(** * Posthoc EMA reconstruction ([diffusion_policy/scripts/recon_ema.py])

    A shallow embedding of the script and the properties of its
    specification.

    - [parse_std_list] works on Python floats.  They are IEEE 754 binary64
      numbers, which is exactly the kernel's primitive [float] type, so the
      parser is embedded bit for bit and runs inside the prover.
    - [std_to_exp], [power_function_correlation] and
      [solve_posthoc_coefficients] are numpy code (polynomial roots, real
      powers, a dense linear solve).  They are embedded over the real
      numbers: every numpy operation is read as the exact operation it
      approximates.
    - [EMARunner.__call__] and [main] are embedded with explicit state (the
      checkpoint store) and an exception monad.
    - The training loop of [diffusion_policy/workspace/train_workspace.py],
      which writes the checkpoints, is embedded as far as its counters, its
      logs and its checkpoints go. *)

From Stdlib Require Import ZArith List String Ascii Bool Lia Floats.
From Stdlib Require Import Reals Lra Psatz ClassicalEpsilon.
From Stdlib Require Import Sorted Permutation Classical.
From Stdlib Require DecimalString.
Import ListNotations.

(** ** Exceptions *)

(** The exceptions the script can raise.  A [ClickException] carries its
    message, since the parser reports each violated rule by its own text. *)
Inductive exn : Type :=
| ClickException (msg : string)
| ValueError (msg : string)
| OverflowError (msg : string)
| IndexError (msg : string)
| AssertionError (msg : string)
| FileNotFoundError (name : string)
| RuntimeError (msg : string)
| LinAlgError (msg : string).

Inductive result (A : Type) : Type :=
| Ok (a : A)
| Raise (e : exn).

Arguments Ok {A} a.
Arguments Raise {A} e.

Definition bind {A B : Type} (r : result A) (k : A -> result B) : result B :=
  match r with
  | Ok a => k a
  | Raise e => Raise e
  end.

Notation "x <- r ;; k" := (bind r (fun x => k))
  (at level 61, r at next level, right associativity).

Definition is_ok {A : Type} (r : result A) : bool :=
  match r with Ok _ => true | Raise _ => false end.

(** ** Python floats *)

Module PyFloat.

Open Scope Z_scope.

(** The float nearest to [m * 10^e], ties to even: what [float(str)] and a
    float literal denote.  For a negative [e] the quotient is rounded once,
    by the division of the binary64 specification applied to the two
    integers. *)
Definition of_decimal (neg : bool) (m : Z) (e : Z) : float :=
  match m with
  | Zpos p =>
      if 0 <=? e
      then SF2Prim (binary_normalize prec emax
                      (if neg then - (m * 10 ^ e) else m * 10 ^ e) 0 false)
      else SF2Prim (SFdiv prec emax (S754_finite neg p 0)
                      (S754_finite false (Z.to_pos (10 ^ (- e))) 0))
  | _ => if neg then neg_zero else zero
  end.

(** [float(n)] for a Python integer [n]: the nearest float. *)
Definition of_int (n : Z) : float :=
  SF2Prim (binary_normalize prec emax n 0 false).

(** [round(x)] for a float [x] and no digits: the nearest integer, ties to
    even; Python raises on NaN and on the infinities. *)
Definition round (x : float) : result Z :=
  match Prim2SF x with
  | S754_nan => Raise (ValueError "cannot convert float NaN to integer")
  | S754_infinity _ =>
      Raise (OverflowError "cannot convert float infinity to integer")
  | S754_zero _ => Ok 0
  | S754_finite s m e =>
      let a :=
        if 0 <=? e then Zpos m * 2 ^ e
        else
          let d := 2 ^ (- e) in
          let q := Zpos m / d in
          let r := Zpos m mod d in
          match 2 * r ?= d with
          | Lt => q
          | Gt => q + 1
          | Eq => if Z.even q then q else q + 1
          end in
      Ok (if s then - a else a)
  end.

(** *** [float(str)] *)

Definition is_digit (c : ascii) : bool :=
  let n := nat_of_ascii c in (48 <=? n)%nat && (n <=? 57)%nat.

Definition digit_val (c : ascii) : Z := Z.of_nat (nat_of_ascii c - 48).

(** The white space that [float] skips around the number, for a string of
    ASCII characters: tab, line feed, vertical tab, form feed, carriage
    return and space (the separators 0x1c to 0x1f are not skipped). *)
Definition is_space (c : ascii) : bool :=
  let n := nat_of_ascii c in
  ((9 <=? n)%nat && (n <=? 13)%nat) || (n =? 32)%nat.

Definition lower (c : ascii) : ascii :=
  let n := nat_of_ascii c in
  if (65 <=? n)%nat && (n <=? 90)%nat then ascii_of_nat (n + 32) else c.

Fixpoint lstrip (s : list ascii) : list ascii :=
  match s with
  | c :: s' => if is_space c then lstrip s' else s
  | [] => []
  end.

Definition strip (s : list ascii) : list ascii :=
  rev (lstrip (rev (lstrip s))).

(** The rest of a [digitpart]: digits, each optionally preceded by one
    underscore.  Returns the digits read and what follows them. *)
Fixpoint digits_rest (s : list ascii) (acc : list Z) : list Z * list ascii :=
  match s with
  | c :: s' =>
      if is_digit c then digits_rest s' (acc ++ [digit_val c])
      else if Ascii.eqb c "_" then
        match s' with
        | d :: s'' =>
            if is_digit d then digits_rest s'' (acc ++ [digit_val d])
            else (acc, s)
        | [] => (acc, s)
        end
      else (acc, s)
  | [] => (acc, [])
  end.

Definition digitpart (s : list ascii) : option (list Z * list ascii) :=
  match s with
  | c :: s' => if is_digit c then Some (digits_rest s' [digit_val c]) else None
  | [] => None
  end.

Definition digits_value (ds : list Z) : Z :=
  fold_left (fun acc d => 10 * acc + d) ds 0.

(** [number ::= [digitpart] "." digitpart | digitpart ["."]]: the integer
    digits, the fraction digits and the rest. *)
Definition number (s : list ascii) : option (list Z * list Z * list ascii) :=
  match digitpart s with
  | Some (ip, rest) =>
      match rest with
      | c :: rest' =>
          if Ascii.eqb c "." then
            match digitpart rest' with
            | Some (fp, rest'') => Some (ip, fp, rest'')
            | None => Some (ip, [], rest')
            end
          else Some (ip, [], rest)
      | [] => Some (ip, [], [])
      end
  | None =>
      match s with
      | c :: rest' =>
          if Ascii.eqb c "." then
            match digitpart rest' with
            | Some (fp, rest'') => Some ([], fp, rest'')
            | None => None
            end
          else None
      | [] => None
      end
  end.

Definition sign (s : list ascii) : bool * list ascii :=
  match s with
  | c :: s' =>
      if Ascii.eqb c "-" then (true, s')
      else if Ascii.eqb c "+" then (false, s')
      else (false, s)
  | [] => (false, [])
  end.

(** [exponent ::= ("e" | "E") [sign] digitpart], up to the end of the
    text; no exponent at all is the exponent 0. *)
Definition exponent (s : list ascii) : option Z :=
  match s with
  | [] => Some 0
  | c :: s' =>
      if Ascii.eqb (lower c) "e" then
        let (neg, s'') := sign s' in
        match digitpart s'' with
        | Some (ds, []) =>
            Some (if neg then - digits_value ds else digits_value ds)
        | _ => None
        end
      else None
  end.

Definition absfloatvalue (neg : bool) (s : list ascii) : option float :=
  let low := string_of_list_ascii (map lower s) in
  if String.eqb low "inf" || String.eqb low "infinity"
  then Some (if neg then neg_infinity else infinity)
  else if String.eqb low "nan" then Some nan
  else
    match number s with
    | Some (ip, fp, rest) =>
        match exponent rest with
        | Some e =>
            Some (of_decimal neg (digits_value (ip ++ fp))
                    (e - Z.of_nat (List.length fp)))
        | None => None
        end
    | None => None
    end.

(** [float(s)] for a string [s] of ASCII characters. *)
Definition of_string (s : string) : result float :=
  let (neg, body) := sign (strip (list_ascii_of_string s)) in
  match absfloatvalue neg body with
  | Some x => Ok x
  | None => Raise (ValueError "could not convert string to float")
  end.

End PyFloat.

(** ** [parse_std_list] *)

Module StdList.

Import PyFloat.
Open Scope float_scope.

(** The literals of the source, as Python reads them. *)
Definition lit_0_000 : float := Eval vm_compute in of_decimal false 0 (-3).
Definition lit_0_289 : float := Eval vm_compute in of_decimal false 289 (-3).
Definition lit_1e_4 : float := Eval vm_compute in of_decimal false 1 (-4).

Definition msg_preceded : string :=
  "'...' must be preceded by at least two floats".
Definition msg_followed : string :=
  "'...' must be followed by at least one float".
Definition msg_equal : string :=
  "The floats preceding '...' must not be equal".
Definition msg_non_empty : string :=
  "'...' must correspond to a non-empty interval".
Definition msg_evenly : string :=
  "'...' must correspond to an evenly spaced interval".
Definition msg_range : string :=
  "Relative standard deviation must be positive and less than 0.289".

(** [s.split(',')]: the pieces between the commas, empty ones included. *)
Fixpoint split_comma (s : list ascii) (cur : list ascii) : list string :=
  match s with
  | [] => [string_of_list_ascii (rev cur)]
  | c :: s' =>
      if Ascii.eqb c "," then string_of_list_ascii (rev cur) :: split_comma s' []
      else split_comma s' (c :: cur)
  end.

Definition split (s : string) : list string :=
  split_comma (list_ascii_of_string s) [].

(** [[None if v == '...' else float(v) for v in s.split(',')]] *)
Fixpoint parse_raw (vs : list string) : result (list (option float)) :=
  match vs with
  | [] => Ok []
  | v :: vs' =>
      if String.eqb v "..." then
        raw <- parse_raw vs' ;; Ok (None :: raw)
      else
        x <- of_string v ;;
        raw <- parse_raw vs' ;; Ok (Some x :: raw)
  end.

(** [raw[i] is None], for an index [i] in range. *)
Definition is_None (o : option (option float)) : bool :=
  match o with Some (Some _) => false | _ => true end.

(** [raw[i]] for an index known to be in range and to hold a float. *)
Definition at_ (raw : list (option float)) (i : nat) : float :=
  match nth_error raw i with
  | Some (Some x) => x
  | _ => nan
  end.

(** [range(num)] *)
Definition range (num : Z) : list Z :=
  map Z.of_nat (seq 0 (Z.to_nat num)).

(** The body of the loop for an ellipsis at index [i]: the checks of lines
    27 to 38 and the points appended by lines 39 and 40. *)
Definition ellipsis (raw : list (option float)) (i : nat) : result (list float) :=
  if (i <? 2)%nat || is_None (nth_error raw (i - 2))
     || is_None (nth_error raw (i - 1))
  then Raise (ClickException msg_preceded)
  else if (List.length raw <=? i + 1)%nat || is_None (nth_error raw (i + 1))
  then Raise (ClickException msg_followed)
  else
    let a := at_ raw (i - 2) in
    let b := at_ raw (i - 1) in
    let c := at_ raw (i + 1) in
    if a =? b then Raise (ClickException msg_equal)
    else
      let approx_num := (c - b) / (b - a) - 1 in
      num <- round approx_num ;;
      if (num <=? 0)%Z then Raise (ClickException msg_non_empty)
      else if lit_1e_4 <? abs (of_int num - approx_num)
      then Raise (ClickException msg_evenly)
      else Ok (map (fun j => b + (b - a) * of_int (j + 1)) (range num)).

(** [for i, v in enumerate(raw)]: [rest] is what is left of [raw] from
    index [i] on, [out] the list built so far. *)
Fixpoint fill (raw : list (option float)) (i : nat)
    (rest : list (option float)) (out : list float) : result (list float) :=
  match rest with
  | [] => Ok out
  | Some v :: rest' => fill raw (S i) rest' (out ++ [v])
  | None :: rest' =>
      pts <- ellipsis raw i ;;
      fill raw (S i) rest' (out ++ pts)
  end.

(** [sorted(set(out))]: the distinct values in increasing order.  The
    values are compared as Python compares floats. *)
Fixpoint insert (x : float) (l : list float) : list float :=
  match l with
  | [] => [x]
  | y :: l' =>
      if x =? y then l
      else if x <? y then x :: l
      else y :: insert x l'
  end.

Definition sorted_set (out : list float) : list float :=
  fold_left (fun acc x => insert x acc) out [].

(** [v] has a representative in [l]: itself or a float equal to it. *)
Definition covered (v : float) (l : list float) : Prop :=
  exists w, In w l /\ (w = v \/ (v =? w) = true).

Definition in_range (v : float) : bool :=
  (lit_0_000 <? v) && (v <? lit_0_289).

(** Lines 42 to 46. *)
Definition validate (out : list float) : result (list float) :=
  let out := sorted_set out in
  if negb (forallb in_range out)
  then Raise (ClickException msg_range)
  else Ok out.

(** Lines 21 to 46, from the list [raw] on. *)
Definition parse_tokens (raw : list (option float)) : result (list float) :=
  out <- fill raw 0 raw [] ;;
  validate out.



(** The argument is a string or an already parsed list. *)
Inductive arg : Type :=
| Str (s : string)
| Lst (l : list float).

Definition parse_std_list (s : arg) : result (list float) :=
  match s with
  | Lst l => Ok l
  | Str s =>
      raw <- parse_raw (split s) ;;
      parse_tokens raw
  end.

End StdList.

(** ** The numpy code, over the real numbers *)

Module Numerics.

Open Scope R_scope.

(** *** Complex numbers, for the roots of a polynomial *)

Definition C : Type := (R * R)%type.

Definition Cre (z : C) : R := fst z.
Definition Cim (z : C) : R := snd z.
Definition RtoC (x : R) : C := (x, 0).
Definition Cadd (z w : C) : C := (fst z + fst w, snd z + snd w).
Definition Csub (z w : C) : C := (fst z - fst w, snd z - snd w).
Definition Cmul (z w : C) : C :=
  (fst z * fst w - snd z * snd w, fst z * snd w + snd z * fst w).

(** The value at [z] of the polynomial with the coefficients [p], highest
    degree first, as numpy writes polynomials. *)
Definition Ceval (p : list R) (z : C) : C :=
  fold_left (fun acc c => Cadd (Cmul acc z) (RtoC c)) p (RtoC 0).

Definition Cprod_linear (rs : list C) (z : C) : C :=
  fold_right (fun r acc => Cmul (Csub z r) acc) (RtoC 1) rs.

(** [rs] lists the complex roots of the monic polynomial [p], each as
    often as its multiplicity, in some order. *)
Definition is_roots (p : list R) (rs : list C) : Prop :=
  S (List.length rs) = List.length p /\
  forall z : C, Ceval p z = Cprod_linear rs z.

(** [np.roots(p)] for a polynomial with leading coefficient 1: numpy
    returns the eigenvalues of the companion matrix, which are the roots
    of [p]; their order is not specified. *)
Definition np_roots (p : list R) : list C :=
  epsilon (inhabits []) (is_roots p).

(** [a.max()] of a one-dimensional array.  numpy raises on an empty array;
    the function is applied to the three roots of a cubic. *)
Definition array_max (a : list R) : R :=
  match a with
  | [] => 0
  | x :: a' => fold_left Rmax a' x
  end.

(** *** [std_to_exp] *)

(** An array as numpy stores it: a shape and the elements in row-major
    order. *)
Record ndarray : Type := mk_ndarray { shape : list nat; flat : list R }.

Definition flatten (a : ndarray) : list R := flat a.

Definition reshape (l : list R) (sh : list nat) : ndarray := mk_ndarray sh l.

(** The cubic of line 51 as a function of the real [x]. *)
Definition cubic (t x : R) : R :=
  x * x * x + 7 * (x * x) + (16 - t) * x + (12 - t).

(** The body of the comprehension of line 51, for one [t]. *)
Definition max_real_root (t : R) : R :=
  array_max (map Cre (np_roots [1; 7; 16 - t; 12 - t])).

(** [x ** -2] *)
Definition pow_minus_2 (x : R) : R := / (x * x).

Definition std_to_exp (std : ndarray) : ndarray :=
  let tmp := map pow_minus_2 (flatten std) in
  let exp := map max_real_root tmp in
  reshape exp (shape std).

(** [std_to_exp] of a single number (an array of shape [()]). *)
Definition std_to_exp1 (std : R) : R :=
  hd 0 (flat (std_to_exp (mk_ndarray [] [std]))).

(** *** [power_function_correlation] *)

(** One entry of the result.  numpy applies every operation of the
    function elementwise, so on arrays the function is this one applied to
    the corresponding entries.  The real-number reading holds for positive
    offsets and stds in (0, 0.289): there [x ** y] is [Rpower x y] on a
    positive base and no denominator is zero.  At an offset 0, or where
    [a_exp + b_exp + 1] is zero, numpy computes with infinities and NaN,
    which this definition does not follow; the properties are stated for
    positive offsets and stds in the range. *)
Definition power_function_correlation (a_ofs a_std b_ofs b_std : R) : R :=
  let a_exp := std_to_exp1 a_std in
  let b_exp := std_to_exp1 b_std in
  let t_ratio := a_ofs / b_ofs in
  let t_exp := if Rlt_dec a_ofs b_ofs then b_exp else - a_exp in
  let t_max := Rmax a_ofs b_ofs in
  let num := (a_exp + 1) * (b_exp + 1) * Rpower t_ratio t_exp in
  let den := (a_exp + b_exp + 1) * t_max in
  num / den.

(** The correlation as the specification words it, case by case. *)
Definition correlation_spec (a_ofs a_std b_ofs b_std : R) : R :=
  let a_exp := std_to_exp1 a_std in
  let b_exp := std_to_exp1 b_std in
  (a_exp + 1) * (b_exp + 1)
  * Rpower (a_ofs / b_ofs) (if Rlt_dec a_ofs b_ofs then b_exp else - a_exp)
  / ((a_exp + b_exp + 1) * (if Rle_dec a_ofs b_ofs then b_ofs else a_ofs)).

(** Offsets that are all positive, and stds that are all in (0, 0.289). *)
Definition positive_offsets (ofs : list R) : Prop := Forall (fun o => 0 < o) ofs.

Definition valid_stds (stds : list R) : Prop :=
  Forall (fun s => 0 < s < 289 / 1000) stds.

(** *** Vectors and matrices *)

Abbreviation vec := (list R).
Abbreviation matrix := (list (list R)).

Fixpoint vadd (u v : vec) : vec :=
  match u, v with
  | x :: u', y :: v' => (x + y) :: vadd u' v'
  | _, _ => []
  end.

Definition vscale (c : R) (v : vec) : vec := map (Rmult c) v.

Definition vsub (u v : vec) : vec := vadd u (vscale (-1) v).

Definition zeros (k : nat) : vec := repeat 0 k.

(** [sum_j cs[j] * X[j]], a vector of length [k]. *)
Fixpoint lincomb (k : nat) (cs : vec) (X : matrix) : vec :=
  match cs, X with
  | c :: cs', x :: X' => vadd (vscale c x) (lincomb k cs' X')
  | _, _ => zeros k
  end.

Fixpoint dot (u v : vec) : R :=
  match u, v with
  | x :: u', y :: v' => x * y + dot u' v'
  | _, _ => 0
  end.

(** *** [np.linalg.solve] *)

(** One equation of the system [A X = B]: a row of [A] and the row of [B]
    beside it. *)
Abbreviation equation := (list R * list R)%type.

Definition lead (e : equation) : R := hd 0 (fst e).

(** The equation with the largest leading coefficient in absolute value
    (the first one among equals), and the other equations. *)
Fixpoint select_pivot (eqs : list equation) : option (equation * list equation) :=
  match eqs with
  | [] => None
  | e :: eqs' =>
      match select_pivot eqs' with
      | None => Some (e, [])
      | Some (p, others) =>
          if Rle_dec (Rabs (lead p)) (Rabs (lead e))
          then Some (e, eqs')
          else Some (p, e :: others)
      end
  end.

(** Subtract from [e] the multiple of the pivot equation [p] that cancels
    the leading coefficient of [e], and drop that coefficient. *)
Definition eliminate (p e : equation) : equation :=
  let f := lead e / lead p in
  (vsub (tl (fst e)) (vscale f (tl (fst p))),
   vsub (snd e) (vscale f (snd p))).

(** Gaussian elimination with partial pivoting on [n] equations in [n]
    unknowns, with right-hand sides of length [k]: the LAPACK routine
    behind [np.linalg.solve] factors the matrix this way, and over the real
    numbers it finds the solution exactly when the matrix is nonsingular.
    On a singular matrix this definition raises; the binary64 routine
    raises there only if rounding leaves a pivot that is exactly zero, and
    otherwise returns coefficients made of rounding errors.  The
    properties are therefore stated for systems that are solved, and none
    is stated about the error. *)
Fixpoint gauss (n k : nat) (eqs : list equation) : result matrix :=
  match n with
  | O => Ok []
  | S n' =>
      match select_pivot eqs with
      | None => Raise (LinAlgError "Singular matrix")
      | Some (p, others) =>
          if Req_dec_T (lead p) 0 then Raise (LinAlgError "Singular matrix")
          else
            X' <- gauss n' k (map (eliminate p) others) ;;
            let x1 :=
              vscale (/ lead p) (vsub (snd p) (lincomb k (tl (fst p)) X')) in
            Ok (x1 :: X')
      end
  end.

(** [np.linalg.solve(A, B)] for a square [A] and a [B] with [k] columns. *)
Definition linalg_solve (k : nat) (A B : matrix) : result matrix :=
  gauss (List.length A) k (combine A B).

(** The column [j] of a matrix. *)
Definition col (j : nat) (X : matrix) : vec := map (fun x => nth j x 0) X.

Definition rows_of_length (k : nat) (X : matrix) : Prop :=
  Forall (fun x => List.length x = k) X.

(** [n] unknowns and right-hand sides of length [k] in every equation. *)
Definition well_formed (n k : nat) (eqs : list equation) : Prop :=
  Forall (fun e => List.length (fst e) = n /\ List.length (snd e) = k) eqs.

(** [rows] has no kernel among the vectors of length [n]: the only [v]
    with [r . v = 0] for every row [r] is [0]. *)
Definition trivial_kernel (n : nat) (rows : list vec) : Prop :=
  forall v : vec, List.length v = n ->
    (forall r, In r rows -> dot r v = 0) -> v = zeros n.

(** The square matrix [A] is nonsingular. *)
Definition nonsingular (A : matrix) : Prop :=
  trivial_kernel (List.length A) A.

(** The [n] by 1 matrix with a 1 in row [j] and 0 elsewhere. *)
Definition unit_column (n j : nat) : matrix :=
  map (fun i => [if (i =? j)%nat then 1 else 0]) (seq 0 n).

(** *** [solve_posthoc_coefficients] *)

(** [np.broadcast_arrays] on two one-dimensional arrays. *)
Definition broadcast_arrays (x y : list R) : result (list R * list R) :=
  if (List.length x =? List.length y)%nat then Ok (x, y)
  else if (List.length x =? 1)%nat
  then Ok (repeat (hd 0 x) (List.length y), y)
  else if (List.length y =? 1)%nat
  then Ok (x, repeat (hd 0 y) (List.length x))
  else Raise (ValueError "shape mismatch: objects cannot be broadcast to a single shape").

(** [power_function_correlation(rv(a_ofs), rv(a_std), cv(b_ofs), cv(b_std))]:
    a column against a row broadcasts to the table of all pairs. *)
Definition correlation_table (a_ofs a_std b_ofs b_std : list R) : matrix :=
  map (fun a =>
         map (fun b =>
                power_function_correlation (fst a) (snd a) (fst b) (snd b))
             (combine b_ofs b_std))
      (combine a_ofs a_std).

(** [np.sum(X, axis=0)] for an [X] with [k] columns. *)
Definition col_sums (k : nat) (X : matrix) : vec :=
  fold_right vadd (zeros k) X.

Fixpoint vdiv (u v : vec) : vec :=
  match u, v with
  | x :: u', y :: v' => (x / y) :: vdiv u' v'
  | _, _ => []
  end.

(** [X / np.sum(X, axis=0)] *)
Definition normalize (k : nat) (X : matrix) : matrix :=
  map (fun row => vdiv row (col_sums k X)) X.

Definition solve_posthoc_coefficients
    (in_ofs in_std out_ofs out_std : list R) : result matrix :=
  ins <- broadcast_arrays in_ofs in_std ;;
  outs <- broadcast_arrays out_ofs out_std ;;
  let A := correlation_table (fst ins) (snd ins) (fst ins) (snd ins) in
  let B := correlation_table (fst ins) (snd ins) (fst outs) (snd outs) in
  X <- linalg_solve (List.length (fst outs)) A B ;;
  Ok (normalize (List.length (fst outs)) X).

End Numerics.

(** ** Checkpoints, [EMARunner] and [main] *)

Module Recon.

Import Numerics.
Open Scope R_scope.

(** A parameter or buffer tensor, by its elements; a torch module, by its
    parameters and its buffers, each in the order torch iterates them. *)
Abbreviation tensor := (list R).

Record model : Type := mk_model {
  parameters : list tensor;
  buffers : list tensor
}.

(** Modelled from the spec: the EMA holder (class [EMAModel], which is not
    among the sources).  Its state is the list of the stds it averages at
    and one averaged model per std, in the same order; [load_state_dict]
    replaces the state and [get] returns the averaged models. *)
Record ema_holder : Type := mk_ema {
  stds : list R;
  averaged_models : list model
}.

Definition ema_load_state_dict (h state : ema_holder) : ema_holder := state.

Definition ema_get (h : ema_holder) : list model := averaged_models h.

(** What the script reads of a checkpoint file: [payload['cfg'].ema.stds],
    [payload['pickles']['global_step']], [payload['state_dicts']['ema']]
    and the state of the model. *)
Record payload : Type := mk_payload {
  cfg_ema_stds : list R;
  pickles_global_step : Z;
  state_dicts_ema : ema_holder;
  state_dicts_model : model
}.

(** What the script reads of the workspace. *)
Record workspace : Type := mk_workspace {
  ema : ema_holder;
  global_step : Z;
  ws_model : model
}.

(** Modelled from the spec: [BaseWorkspace.load_payload] (not among the
    sources) loads the persisted state of the payload into the workspace:
    the EMA state, the state of the model and the step counter. *)
Definition load_payload (ws : workspace) (p : payload) : workspace :=
  mk_workspace (ema_load_state_dict (ema ws) (state_dicts_ema p))
               (pickles_global_step p) (state_dicts_model p).

(** The workspace as its class constructs it from the configuration,
    before any payload is loaded. *)
Definition new_workspace : workspace :=
  mk_workspace (mk_ema [] []) 0 (mk_model [] []).

(** The checkpoint directory: its entries in the order [iterdir] yields
    them, each with what loading it gives. *)
Definition directory : Type := list (string * payload).

Fixpoint lookup (d : directory) (name : string) : option payload :=
  match d with
  | [] => None
  | (n, p) :: d' => if String.eqb n name then Some p else lookup d' name
  end.

(** [open(checkpoint_dir / file, 'rb')] and [torch.load] *)
Definition load (d : directory) (name : string) : result payload :=
  match lookup d name with
  | Some p => Ok p
  | None => Raise (FileNotFoundError name)
  end.

(** A record [(global_step, std, file.name)]. *)
Definition record : Type := (Z * R * string)%type.

Definition rec_step (r : record) : Z := fst (fst r).
Definition rec_std (r : record) : R := snd (fst r).
Definition rec_file (r : record) : string := snd r.

(** A record whose profile is in the range of the real-number reading of
    the correlation: a positive step and a std in (0, 0.289). *)
Definition valid_record (r : record) : Prop :=
  (0 < rec_step r)%Z /\ 0 < rec_std r < 289 / 1000.

(** *** [main]: the discovery of the checkpoints *)

(** [re.match(r"epoch_(\d+).ckpt", name)]: after [epoch_], one digit or
    more, then any character but a newline, then [ckpt]; what follows is
    not looked at. *)
Fixpoint strip_prefix (p s : list ascii) : option (list ascii) :=
  match p, s with
  | [], _ => Some s
  | a :: p', b :: s' => if Ascii.eqb a b then strip_prefix p' s' else None
  | _ :: _, [] => None
  end.

Definition dot_ckpt (s : list ascii) : bool :=
  match s with
  | c :: s' =>
      negb (Ascii.eqb c "010")
      && match strip_prefix (list_ascii_of_string "ckpt") s' with
         | Some _ => true
         | None => false
         end
  | [] => false
  end.

Fixpoint digits_dot_ckpt (s : list ascii) (seen : bool) : bool :=
  (seen && dot_ckpt s)
  || match s with
     | c :: s' => PyFloat.is_digit c && digits_dot_ckpt s' true
     | [] => false
     end.

Definition re_match_epoch (name : string) : bool :=
  match strip_prefix (list_ascii_of_string "epoch_") (list_ascii_of_string name) with
  | Some rest => digits_dot_ckpt rest false
  | None => false
  end.

(** [l[i]] of a Python list. *)
Definition getitem {A : Type} (l : list A) (i : nat) : result A :=
  match nth_error l i with
  | Some x => Ok x
  | None => Raise (IndexError "list index out of range")
  end.

(** The two records of lines 179 and 180 (and of lines 186 and 187). *)
Definition two_records (step : Z) (stds : list R) (name : string)
  : result (list record) :=
  s0 <- getitem stds 0 ;;
  s1 <- getitem stds 1 ;;
  Ok [(step, s0, name); (step, s1, name)].

(** [--workspace_dir] as far as line 174 depends on it.  The paths that
    [iterdir] yields already start with [checkpoint_dir], and line 174
    joins [checkpoint_dir] with such a path once more.  When
    [workspace_dir] is absolute, so is the path of the file, and the join
    is that path: the file itself is opened.  When [workspace_dir] is
    relative, the join is [checkpoint_dir / checkpoint_dir / name], a file
    of another directory, [doubled], which as a rule does not exist (it is
    then [Relative []]). *)
Inductive workspace_dir : Type :=
| Absolute
| Relative (doubled : directory).

(** Lines 174 to 176: [open(checkpoint_dir / file, 'rb')] and [torch.load]
    for the entry [name] of the directory, whose own content is [p]. *)
Definition open_joined (wd : workspace_dir) (name : string) (p : payload)
  : result payload :=
  match wd with
  | Absolute => Ok p
  | Relative doubled => load doubled name
  end.

(** The loop of lines 170 to 183: [entries] is what [iterdir] has still to
    yield, [params] the list built so far. *)
Fixpoint scan (wd : workspace_dir) (entries : directory) (params : list record)
  : result (list record) :=
  match entries with
  | [] => Ok params
  | (name, p) :: entries' =>
      if negb (re_match_epoch name) then scan wd entries' params
      else
        q <- open_joined wd name p ;;
        rs <- two_records (pickles_global_step q) (cfg_ema_stds q) name ;;
        scan wd entries' (params ++ rs)
  end.

(** Lines 154 to 189 of [main]: the workspace loaded from [latest.ckpt]
    and the list [params]. *)
Definition main_params (wd : workspace_dir) (checkpoint_dir : directory)
  : result (workspace * list record) :=
  match lookup checkpoint_dir "latest.ckpt" with
  | None => Raise (AssertionError "Checkpoint does not exist")
  | Some p =>
      let ws := load_payload new_workspace p in
      let saved_stds := cfg_ema_stds p in
      params <- scan wd checkpoint_dir [] ;;
      latest <- two_records (global_step ws) saved_stds "latest.ckpt" ;;
      Ok (ws, params ++ latest)
  end.

(** The entries of the directory with the content that the scan loads for
    them: their own for an absolute [workspace_dir]; for a relative one,
    the content of the file of that name in [doubled], for the names that
    the pattern matches and that [doubled] holds. *)
Definition joined (wd : workspace_dir) (dir : directory) : directory :=
  match wd with
  | Absolute => dir
  | Relative doubled =>
      flat_map (fun e =>
                  if re_match_epoch (fst e)
                  then match lookup doubled (fst e) with
                       | Some q => [(fst e, q)]
                       | None => []
                       end
                  else [])
               dir
  end.

(** The records that an entry of the directory contributes when its
    checkpoint holds two stds at least: two for a name the pattern matches,
    none otherwise. *)
Definition epoch_records (entry : string * payload) : list record :=
  let (name, p) := entry in
  if re_match_epoch name
  then [(pickles_global_step p, nth 0 (cfg_ema_stds p) 0, name);
        (pickles_global_step p, nth 1 (cfg_ema_stds p) 0, name)]
  else [].

(** The entry is loaded by the scan and its checkpoint holds fewer than two
    stds. *)
Definition short_stds (entry : string * payload) : bool :=
  re_match_epoch (fst entry) && (List.length (cfg_ema_stds (snd entry)) <? 2)%nat.

(** The number of records whose source file is [latest.ckpt]. *)
Definition count_latest (params : list record) : nat :=
  List.length (filter (fun r => String.eqb (rec_file r) "latest.ckpt") params).

(** The name [epoch_<N>.ckpt] for a number written with the digits [ds]. *)
Definition epoch_name (ds : list ascii) : string :=
  ("epoch_" ++ string_of_list_ascii ds ++ ".ckpt")%string.

(** *** [EMARunner] *)

Record EMARunner : Type := mk_runner {
  sorted_params : list record;
  steps : list R;
  in_stds : list R;
  latest : list R;
  checkpoint_dir : directory;
  runner_workspace : workspace;
  last_model : model
}.

(** The key [(x[0], x[1])] of the sort, compared as Python compares
    tuples. *)
Definition key_le (a b : record) : bool :=
  (rec_step a <? rec_step b)%Z
  || ((rec_step a =? rec_step b)%Z
      && if Rle_dec (rec_std a) (rec_std b) then true else false).

Fixpoint insert_by_key (x : record) (l : list record) : list record :=
  match l with
  | [] => [x]
  | y :: l' => if key_le x y then x :: l else y :: insert_by_key x l'
  end.

(** [sorted(params, key=...)]: a stable sort. *)
Definition sorted (params : list record) : list record :=
  fold_right insert_by_key [] params.

Definition init (params : list record) (ws : workspace) (d : directory)
  : EMARunner :=
  let sp := sorted params in
  mk_runner sp
    (map (fun x => IZR (rec_step x)) sp)
    (map rec_std sp)
    [IZR (global_step ws)]
    d ws (ws_model ws).

(** [l.index(x)] of a Python list. *)
Fixpoint index (l : list R) (x : R) : result nat :=
  match l with
  | [] => Raise (ValueError "is not in list")
  | y :: l' =>
      if Req_dec_T y x then Ok O
      else i <- index l' x ;; Ok (S i)
  end.

(** [p.zero_()] *)
Definition zero_ (p : tensor) : tensor := map (fun _ => 0) p.

(** [p += ema_p * c] for two tensors of one shape and the number [c]. *)
Fixpoint add_scaled (p ema_p : tensor) (c : R) : result tensor :=
  match p, ema_p with
  | [], [] => Ok []
  | x :: p', y :: ema_p' =>
      r <- add_scaled p' ema_p' c ;; Ok ((x + y * c) :: r)
  | _, _ => Raise (RuntimeError "The size of tensor a must match the size of tensor b")
  end.

(** The loop of lines 124 and 125; [zip] stops at the shorter list and the
    parameters beyond stay as they are. *)
Fixpoint accumulate (ps ema_ps : list tensor) (c : R) : result (list tensor) :=
  match ps, ema_ps with
  | p :: ps', q :: ema_ps' =>
      p' <- add_scaled p q c ;;
      r <- accumulate ps' ema_ps' c ;;
      Ok (p' :: r)
  | _, _ => Ok ps
  end.

(** The row of [coef] for one source as a number: there is one target, so
    the row has one entry, which torch multiplies into every element. *)
Definition scalar_of_row (c : vec) : result R :=
  match c with
  | [c0] => Ok c0
  | _ => Raise (RuntimeError "a coefficient row with one entry is expected")
  end.

(** The loop of lines 107 to 125 over [zip(self.sorted_params, coef)]. *)
Fixpoint include (d : directory) (ws : workspace) (out : model)
    (params : list record) (coef : matrix) : result (workspace * model) :=
  match params, coef with
  | (step, std_in, file) :: params', c :: coef' =>
      p <- load d file ;;
      let ws := mk_workspace (ema_load_state_dict (ema ws) (state_dicts_ema p))
                  (global_step ws) (ws_model ws) in
      let ws := load_payload ws p in
      idx <- index (cfg_ema_stds p) std_in ;;
      ema_i <- getitem (ema_get (ema ws)) idx ;;
      c0 <- scalar_of_row c ;;
      ps <- accumulate (parameters out) (parameters ema_i) c0 ;;
      include d ws (mk_model ps (buffers out)) params' coef'
  | _, _ => Ok (ws, out)
  end.

(** [p_ema.copy_(p_net)] over [zip(last_model.buffers(), policy.buffers())] *)
Fixpoint copy_buffers (nets emas : list tensor) : result (list tensor) :=
  match nets, emas with
  | p_net :: nets', p_ema :: emas' =>
      if (List.length p_net =? List.length p_ema)%nat
      then r <- copy_buffers nets' emas' ;; Ok (p_net :: r)
      else Raise (RuntimeError "The size of tensor a must match the size of tensor b")
  | _, _ => Ok emas
  end.

(** [m] is the EMA variant of the checkpoint of the record [r] that the
    std of the record selects. *)
Definition variant (d : directory) (r : record) (m : model) : Prop :=
  exists p idx,
    lookup d (rec_file r) = Some p
    /\ index (cfg_ema_stds p) (rec_std r) = Ok idx
    /\ nth_error (averaged_models (state_dicts_ema p)) idx = Some m.

(** Two lists of tensors with the same shapes. *)
Definition same_shape (ps qs : list tensor) : Prop :=
  Forall2 (fun p q => List.length p = List.length q) ps qs.

(** The element [e] of the parameter tensor [p] of a model. *)
Definition element (m : list tensor) (p e : nat) : R := nth e (nth p m []) 0.

(** The weighted sum [sum_i c_i * m_i], computed directly for the element
    [e] of the parameter tensor [p]. *)
Definition weighted_sum (cs : list R) (ms : list model) (p e : nat) : R :=
  fold_right Rplus 0
    (map (fun cm => fst cm * element (parameters (snd cm)) p e) (combine cs ms)).

(** Lines 94 to 126 of [__call__]: the coefficients and the model [out]
    accumulated from the checkpoints. *)
Definition reconstruct (self : EMARunner) (std : R)
  : result (matrix * workspace * model) :=
  let out_stds := [std] in
  coef <- solve_posthoc_coefficients (steps self) (in_stds self)
            (latest self) out_stds ;;
  ema0 <- getitem (ema_get (ema (runner_workspace self))) 0 ;;
  let out := mk_model (map zero_ (parameters ema0)) (buffers ema0) in
  r <- include (checkpoint_dir self) (runner_workspace self) out
         (sorted_params self) coef ;;
  Ok (coef, fst r, snd r).

(** [__call__] up to the policy handed to the environment runner (line
    136): the workspace with the reconstructed model installed, and the
    policy. *)
Definition call (self : EMARunner) (std : R) : result (workspace * model) :=
  r <- reconstruct self std ;;
  let '(coef, ws, out) := r in
  let new_state_dict := mk_ema [std] [out; out] in
  let ws := mk_workspace (ema_load_state_dict (ema ws) new_state_dict)
              (global_step ws) (ws_model ws) in
  policy <- getitem (ema_get (ema ws)) 0 ;;
  bs <- copy_buffers (buffers (last_model self)) (buffers policy) ;;
  let policy := mk_model (parameters policy) bs in
  Ok (mk_workspace (mk_ema [std] [policy; out]) (global_step ws) (ws_model ws),
      policy).

(** *** An example *)

(** A checkpoint at the given step with one model without parameters for
    each of its stds. *)
Definition example_payload (step : Z) (stds : list R) : payload :=
  mk_payload stds step (mk_ema stds (map (fun _ => mk_model [] []) stds))
    (mk_model [] []).

(** A directory with one epoch checkpoint that holds three stds, and
    [latest.ckpt]. *)
Definition example_directory : directory :=
  [("epoch_0100.ckpt"%string, example_payload 100 [5 / 100; 1 / 10; 2 / 10]);
   ("latest.ckpt"%string, example_payload 500 [5 / 100; 1 / 10])].

(** A checkpoint directory with the single file [latest.ckpt], written at
    step 1 with the std 0.1, whose model has one parameter tensor. *)
Definition example_source : model := mk_model [[2; 3]] [].

Definition example_checkpoint : payload :=
  mk_payload [1 / 10] 1 (mk_ema [1 / 10] [example_source]) example_source.

Definition example_store : directory :=
  [("latest.ckpt"%string, example_checkpoint)].

(** Two checkpoints that each hold the stds 0.1 and 0.2, written at the
    steps 100 and 500, with different parameter values in every model; and
    the runner for their records at the std 0.1. *)
Definition example_early : payload :=
  mk_payload [1 / 10; 2 / 10] 100
    (mk_ema [1 / 10; 2 / 10] [mk_model [[2; 3]] []; mk_model [[5; 5]] []])
    (mk_model [[1; 1]] []).

Definition example_late : payload :=
  mk_payload [1 / 10; 2 / 10] 500
    (mk_ema [1 / 10; 2 / 10] [mk_model [[4; 7]] []; mk_model [[6; 9]] []])
    (mk_model [[8; 8]] []).

Definition example_pair_store : directory :=
  [("epoch_0100.ckpt"%string, example_early);
   ("latest.ckpt"%string, example_late)].

Definition example_pair_params : list record :=
  [(500%Z, 1 / 10, "latest.ckpt"%string);
   (100%Z, 1 / 10, "epoch_0100.ckpt"%string)].

Definition example_pair_runner : EMARunner :=
  init example_pair_params (load_payload new_workspace example_late)
    example_pair_store.

(** Two checkpoints whose models at the std 0.1 hold the same values. *)
Definition example_same_early : payload :=
  mk_payload [1 / 10; 2 / 10] 100
    (mk_ema [1 / 10; 2 / 10] [mk_model [[2; 3]] []; mk_model [[5; 5]] []])
    (mk_model [[1; 1]] []).

Definition example_same_late : payload :=
  mk_payload [1 / 10; 2 / 10] 500
    (mk_ema [1 / 10; 2 / 10] [mk_model [[2; 3]] []; mk_model [[6; 9]] []])
    (mk_model [[8; 8]] []).

Definition example_same_store : directory :=
  [("epoch_0100.ckpt"%string, example_same_early);
   ("latest.ckpt"%string, example_same_late)].

End Recon.

(** ** Definitions for further properties *)

Module ExtraDefs.

Import Numerics.
Open Scope R_scope.

(** The equation [e] with both sides multiplied by [l]. *)
Definition scale_equation (l : R) (e : equation) : equation :=
  (vscale l (fst e), vscale l (snd e)).

(** The order of the keys [(x[0], x[1])] of the sort of the records. *)
Definition key_order (a b : Recon.record) : Prop :=
  (Recon.rec_step a < Recon.rec_step b)%Z
  \/ (Recon.rec_step a = Recon.rec_step b
      /\ Recon.rec_std a <= Recon.rec_std b).

(** A directory in which the file of the record is missing, and one whose
    [latest.ckpt] was written with another std. *)
Definition example_missing_record : Recon.record :=
  (1%Z, 1 / 10, "epoch_1.ckpt"%string).

Definition example_other_store : Recon.directory :=
  [("latest.ckpt"%string,
    Recon.mk_payload [2 / 10] 1
      (Recon.mk_ema [2 / 10] [Recon.example_source]) Recon.example_source)].

(** [a < b] as Python compares two floats. *)
Definition float_lt (a b : float) : Prop := PrimFloat.ltb a b = true.

(** The pieces of [s.split(',')] put together again with commas. *)
Definition join_comma (pieces : list string) : string :=
  String.concat "," pieces.

End ExtraDefs.

(** ** The log of the environment runner (lines 142 to 148) *)

(** What [__call__] does with the dict that [env_runner.run(policy)]
    returns.  A dict is the list of its entries in insertion order, with
    distinct keys; a missing key is [None], for the [KeyError] of
    Python. *)

Module RunnerLog.

Definition dict (V : Type) : Type := list (string * V).

(** [d[k]] *)
Fixpoint dict_get {V : Type} (d : dict V) (k : string) : option V :=
  match d with
  | [] => None
  | (k', v) :: d' => if String.eqb k' k then Some v else dict_get d' k
  end.

(** [d[k] = v]: a key already there keeps its place. *)
Fixpoint dict_set {V : Type} (d : dict V) (k : string) (v : V) : dict V :=
  match d with
  | [] => [(k, v)]
  | (k', v') :: d' =>
      if String.eqb k' k then (k', v) :: d' else (k', v') :: dict_set d' k v
  end.

(** [k.split(sep)] for a separator of one character. *)
Fixpoint split_on (sep : ascii) (s : list ascii) (cur : list ascii)
  : list string :=
  match s with
  | [] => [string_of_list_ascii (rev cur)]
  | c :: s' =>
      if Ascii.eqb c sep
      then string_of_list_ascii (rev cur) :: split_on sep s' []
      else split_on sep s' (c :: cur)
  end.

(** [f"ema/{'_'.join(k.split('/'))}"] *)
Definition ema_key (k : string) : string :=
  ("ema/" ++ String.concat "_" (split_on "/" (list_ascii_of_string k) []))%string.

(** The dict comprehension of line 144. *)
Definition prefixed {V : Type} (runner_log : dict V) : dict V :=
  fold_left (fun d kv => dict_set d (ema_key (fst kv)) (snd kv)) runner_log [].

(** Lines 143 to 148: the dict that is logged and the score returned. *)
Definition log_score {V : Type} (runner_log : dict V) (std : V)
  : option (dict V * V) :=
  match dict_get runner_log "test/mean_score" with
  | None => None
  | Some _ =>
      let runner_log := dict_set (prefixed runner_log) "std" std in
      match dict_get runner_log "ema/test_mean_score" with
      | None => None
      | Some score => Some (runner_log, score)
      end
  end.

(** [k] with every slash turned into an underscore. *)
Definition underscored (k : string) : string :=
  string_of_list_ascii
    (map (fun c => if Ascii.eqb c "/" then "_"%char else c)
       (list_ascii_of_string k)).

End RunnerLog.

(** ** The training loop ([diffusion_policy/workspace/train_workspace.py]) *)

(** [TrainWorkspace.__init__] and [TrainWorkspace.run], as far as the
    counters go: [self.global_step], [self.epoch], and the calls through
    which they leave the loop (the logs and the checkpoints that
    [recon_ema.py] later reads).  [run] is modelled from the state in which
    the optional resume of lines 107 to 113 leaves the workspace.  The
    calls into the libraries (the dataset, the policy, the optimizer, the
    loggers) are recorded as events and taken to return; the train loader
    is taken to yield [len(train_dataloader)] batches per epoch. *)

Module Train.

Open Scope Z_scope.

(** The entries of [cfg] that drive the loop. *)
Record config : Type := mk_config {
  debug : bool;
  num_epochs : Z;
  max_train_steps : option Z;
  gradient_accumulate_every : Z;
  use_ema : bool;
  rollout_every : Z;
  val_every : Z;
  sample_every : Z;
  checkpoint_every : Z;
  save_last_ckpt : bool;
  save_last_snapshot : bool
}.

(** Lines 64 to 77: what [cfg.training.debug] overrides. *)
Definition effective (cfg : config) : config :=
  if debug cfg then
    mk_config true 1 (Some 3) (gradient_accumulate_every cfg) (use_ema cfg)
      1 1 1 1 true false
  else cfg.

(** [str(n)] for a Python integer. *)
Definition py_str (n : Z) : string :=
  DecimalString.NilZero.string_of_int (Z.to_int n).

(** [f"epoch_{self.epoch}"] *)
Definition epoch_tag (e : Z) : string := ("epoch_" ++ py_str e)%string.

(** The calls of the loop.  [SaveCheckpoint tag step e] is a call of
    [self.save_checkpoint] ([tag] is [None] when the call gives none) made
    when [self.global_step] is [step] and [self.epoch] is [e], the two
    attributes of [include_keys]; [Log step] is the pair of calls
    [wandb_run.log(step_log, step=step)] and [json_logger.log(step_log)]. *)
Inductive event : Type :=
| OptimizerStep
| EmaStep
| Log (step : Z)
| Rollout
| Validation
| Sampling
| SaveCheckpoint (tag : option string) (step e : Z)
| SaveSnapshot.

(** The workspace and the local [train_sampling_batch] of [run]:
    [has_ema] tells whether [self.ema] is an EMA holder (not [None]),
    [train_sampling_batch] whether the local holds a batch (not [None]). *)
Record state : Type := mk_state {
  global_step : Z;
  epoch : Z;
  has_ema : bool;
  train_sampling_batch : bool;
  events : list event
}.

(** How a run can stop early in this model: [self.ema.to(device)] on
    [None] (line 120), a remainder or quotient by zero, or line 276 handing
    [None] to [dict_apply] (the loader was empty), after which the run is
    not followed. *)
Inductive stop : Type :=
| AttributeError
| ZeroDivisionError
| SamplingWithoutBatch.

Inductive outcome : Type :=
| Done (st : state)
| Raised (e : stop) (st : state).

(** Lines 37 to 59: [__init__]. *)
Definition init (cfg : config) : state :=
  mk_state 0 0 (use_ema cfg) false [].

Definition emit (ev : event) (st : state) : state :=
  mk_state (global_step st) (epoch st) (has_ema st) (train_sampling_batch st)
    (events st ++ [ev]).

Definition next_step (st : state) : state :=
  mk_state (global_step st + 1) (epoch st) (has_ema st)
    (train_sampling_batch st) (events st).

Definition next_epoch (st : state) : state :=
  mk_state (global_step st) (epoch st + 1) (has_ema st)
    (train_sampling_batch st) (events st).

Definition keep_batch (st : state) : state :=
  mk_state (global_step st) (epoch st) (has_ema st) true (events st).

(** [if c: ev] *)
Definition emit_if (c : bool) (ev : event) (st : state) : state :=
  if c then emit ev st else st.

(** [if (self.epoch % every) == 0: ev] *)
Definition every_epoch (every : Z) (ev : state -> outcome) (st : state)
  : outcome :=
  if every =? 0 then Raised ZeroDivisionError st
  else if epoch st mod every =? 0 then ev st
  else Done st.

Definition and_then (o : outcome) (k : state -> outcome) : outcome :=
  match o with
  | Done st => k st
  | Raised e st => Raised e st
  end.

(** Lines 181 to 227: the batches from index [batch_idx] on, [todo] of
    them, of a loader of [n] batches. *)
Fixpoint train_batches (cfg : config) (n : nat) (batch_idx todo : nat)
    (st : state) : outcome :=
  match todo with
  | O => Done st
  | S todo' =>
      let st := keep_batch st in
      if gradient_accumulate_every cfg =? 0 then Raised ZeroDivisionError st
      else
        let st :=
          emit_if (global_step st mod gradient_accumulate_every cfg =? 0)
            OptimizerStep st in
        let st := emit_if (use_ema cfg) EmaStep st in
        let is_last_batch := Z.of_nat batch_idx =? Z.of_nat n - 1 in
        let st :=
          if negb is_last_batch
          then next_step (emit (Log (global_step st)) st)
          else st in
        if match max_train_steps cfg with
           | Some m => m - 1 <=? Z.of_nat batch_idx
           | None => false
           end
        then Done st
        else train_batches cfg n (S batch_idx) todo' st
  end.

(** Lines 165 to 334: one turn of the loop over the epochs. *)
Definition run_epoch (cfg : config) (n : nat) (st : state) : outcome :=
  and_then (train_batches cfg n 0 n st) (fun st =>
  and_then (every_epoch (rollout_every cfg)
              (fun st => Done (emit Rollout st)) st) (fun st =>
  and_then (every_epoch (val_every cfg)
              (fun st => Done (emit Validation st)) st) (fun st =>
  and_then (every_epoch (sample_every cfg)
              (fun st =>
                 if train_sampling_batch st then Done (emit Sampling st)
                 else Raised SamplingWithoutBatch st) st) (fun st =>
  let st :=
    emit_if (save_last_ckpt cfg)
      (SaveCheckpoint None (global_step st) (epoch st)) st in
  let st := emit_if (save_last_snapshot cfg) SaveSnapshot st in
  and_then (every_epoch (checkpoint_every cfg)
              (fun st =>
                 Done (emit (SaveCheckpoint (Some (epoch_tag (epoch st)))
                               (global_step st) (epoch st)) st)) st)
    (fun st =>
  Done (next_epoch (next_step (emit (Log (global_step st)) st)))))))).

(** [for local_epoch_idx in range(...)], [k] turns. *)
Fixpoint epochs (cfg : config) (n : nat) (k : nat) (st : state) : outcome :=
  match k with
  | O => Done st
  | S k' => and_then (run_epoch cfg n st) (epochs cfg n k')
  end.

(** [run], from the workspace [st], over a train loader of [n] batches.
    Line 120 uses [self.ema] whatever [use_ema] is, and the quotient of
    line 127 is taken before the loop starts. *)
Definition run (cfg : config) (n : nat) (st : state) : outcome :=
  let cfg := effective cfg in
  if negb (has_ema st) then Raised AttributeError st
  else if gradient_accumulate_every cfg =? 0 then Raised ZeroDivisionError st
  else
    epochs cfg n (Z.to_nat (num_epochs cfg))
      (mk_state (global_step st) (epoch st) (has_ema st) false (events st)).

(** *** What the properties are stated with *)

(** The steps of the [Log] events, in order. *)
Definition logged_steps (evs : list event) : list Z :=
  flat_map (fun ev => match ev with Log s => [s] | _ => [] end) evs.

(** The checkpoints saved, in order: tag and the two counters. *)
Definition saved (evs : list event) : list (option string * Z * Z) :=
  flat_map (fun ev =>
              match ev with
              | SaveCheckpoint t g e => [(t, g, e)]
              | _ => []
              end) evs.

(** The integers from [a] up to [b - 1]. *)
Definition steps_between (a b : Z) : list Z :=
  map (fun i => a + Z.of_nat i) (seq 0 (Z.to_nat (b - a))).

(** By how much one epoch over [n] batches advances [global_step]: by [n]
    when every batch is trained on, and by one more than the number of
    batches trained on when [max_train_steps] cuts the epoch short. *)
Definition steps_per_epoch (cfg : config) (n : nat) : Z :=
  match max_train_steps cfg with
  | None => Z.of_nat n
  | Some m =>
      let m := Z.max 1 m in
      if m <? Z.of_nat n then m + 1 else Z.of_nat n
  end.

(** The part of it that the loop over the batches adds, from the batch
    [idx] on. *)
Definition in_loop_steps (cfg : config) (n idx : nat) : Z :=
  if (n <=? idx)%nat then 0
  else
    match max_train_steps cfg with
    | None => Z.of_nat n - 1 - Z.of_nat idx
    | Some m =>
        let last := Z.min (Z.of_nat n - 1) (Z.max (Z.of_nat idx) (m - 1)) in
        last - Z.of_nat idx + (if last =? Z.of_nat n - 1 then 0 else 1)
    end.

(** Two states that differ by events other than logs and checkpoints. *)
Definition quiet (st st' : state) : Prop :=
  global_step st' = global_step st /\ epoch st' = epoch st
  /\ has_ema st' = has_ema st
  /\ train_sampling_batch st' = train_sampling_batch st
  /\ logged_steps (events st') = logged_steps (events st)
  /\ saved (events st') = saved (events st).

(** The checkpoints of the epoch [e] that ends at step [g]. *)
Definition epoch_saves (cfg : config) (g e : Z)
  : list (option string * Z * Z) :=
  (if save_last_ckpt cfg then [(None, g, e)] else [])
  ++ (if e mod checkpoint_every cfg =? 0
      then [(Some (epoch_tag e), g, e)] else []).

(** No period of the epoch loop is zero. *)
Definition periods_nonzero (cfg : config) : Prop :=
  gradient_accumulate_every cfg <> 0 /\ rollout_every cfg <> 0
  /\ val_every cfg <> 0 /\ sample_every cfg <> 0
  /\ checkpoint_every cfg <> 0.

Definition example_config : config :=
  mk_config false 3 (Some 2) 1 true 50 1 5 2 true false.

Definition example_state : state := mk_state 0 0 true false [].

End Train.

(** * Properties *)

(** ** The std list parser *)

Module StdListFacts.

Import PyFloat StdList.
Open Scope float_scope.



Lemma nth_error_lt {A : Type} (l : list A) i x :
  nth_error l i = Some x -> (i < List.length l)%nat.
Proof. intros H. apply nth_error_Some. congruence. Qed.






(** *** The values that reach the range check *)

(** Two floats that Python finds equal compare alike with any third. *)
Lemma SFeqb_compare u v w :
  SFeqb u v = true ->
  SFcompare w u = SFcompare w v /\ SFcompare u w = SFcompare v w.
Proof.
  unfold SFeqb.
  destruct u as [[|] | [|] | | [|] mu eu], v as [[|] | [|] | | [|] mv ev];
    simpl; try discriminate;
    try (intros _; destruct w; split; reflexivity);
    destruct (Z.compare_spec eu ev) as [-> | |]; try discriminate;
    destruct (Pos.compare_cont Eq mu mv) eqn:E; try discriminate;
    apply Pos.compare_eq in E; subst; intros _; split; reflexivity.
Qed.

Lemma eqb_in_range x y : (x =? y) = true -> in_range x = in_range y.
Proof.
  intros H. unfold in_range.
  rewrite eqb_spec in H. rewrite !ltb_spec. unfold SFltb.
  destruct (SFeqb_compare _ _ (Prim2SF lit_0_000) H) as [-> _].
  destruct (SFeqb_compare _ _ (Prim2SF lit_0_289) H) as [_ ->].
  reflexivity.
Qed.

Lemma insert_keeps x l w : In w l -> In w (insert x l).
Proof.
  induction l as [|y l IH]; simpl; [tauto|].
  intros Hw; destruct (x =? y), (x <? y); simpl in *; intuition auto.
Qed.

Lemma insert_covers x l : covered x (insert x l).
Proof.
  induction l as [|y l IH]; simpl.
  - exists x. simpl. auto.
  - destruct (x =? y) eqn:E.
    + exists y. simpl. auto.
    + destruct (x <? y).
      * exists x. simpl. auto.
      * destruct IH as [w [Hw Hc]]. exists w. simpl. auto.
Qed.

Lemma sorted_set_covers out :
  forall acc v, In v out \/ covered v acc ->
    covered v (fold_left (fun acc x => insert x acc) out acc).
Proof.
  induction out as [|x out IH]; intros acc v H; simpl.
  - destruct H as [[] | H]. exact H.
  - apply IH. destruct H as [[-> | H] | H]; auto.
    + right. apply insert_covers.
    + right. destruct H as [w [Hw Hc]]. exists w. split; auto.
      now apply insert_keeps.
Qed.


(** *** The claims *)

(** C6, as the code has it.  On ["1.0,2.0,...,5.0"] the ellipsis is
    expanded to the points 3.0 and 4.0, so that the list built is exactly
    1.0, 2.0, 3.0, 4.0, 5.0; but [parse_std_list] then returns no value:
    the range check raises, since these values are not below 0.289.  On an
    input of the same form inside the range, ["0.05,0.10,...,0.25"], the
    five values of the arithmetic sequence are returned, each within 1e-4
    of 0.05, 0.10, 0.15, 0.20, 0.25. *)
Theorem parse_std_list_ellipsis_expansion :
  (raw <- parse_raw (split "1.0,2.0,...,5.0") ;; fill raw 0 raw [])
    = Ok [1; 2; 3; 4; 5]
  /\ parse_std_list (Str "1.0,2.0,...,5.0") = Raise (ClickException msg_range)
  /\ exists l,
       parse_std_list (Str "0.05,0.10,...,0.25") = Ok l
       /\ List.length l = 5%nat
       /\ forallb (fun xy => abs (fst xy - snd xy) <=? lit_1e_4)
            (combine l (map (fun m => of_decimal false m (-2))
                          [5; 10; 15; 20; 25]%Z)) = true.
Proof.
  split; [vm_compute; reflexivity|].
  split; [vm_compute; reflexivity|].
  eexists. split; [vm_compute; reflexivity|].
  split; vm_compute; reflexivity.
Qed.

(** C6 as it is stated fails: ["1.0,2.0,...,5.0"] has no result, the call
    raises the range error. *)
Lemma parse_std_list_1_to_5_raises :
  parse_std_list (Str "1.0,2.0,...,5.0") = Raise (ClickException msg_range)
  /\ is_ok (parse_std_list (Str "1.0,2.0,...,5.0")) = false.
Proof. split; vm_compute; reflexivity. Qed.




End StdListFacts.

(** ** The exponent of a power-function profile *)

Module ExpFacts.

Import Numerics.
Open Scope R_scope.

(** *** Complex arithmetic *)

Lemma Cmul_integral (z w : C) :
  Cmul z w = RtoC 0 -> z = RtoC 0 \/ w = RtoC 0.
Proof.
  destruct z as [x1 y1], w as [x2 y2]. unfold Cmul, RtoC. simpl.
  intros H. injection H as Hre Him.
  assert (Hn : (x1 * x1 + y1 * y1) * (x2 * x2 + y2 * y2) = 0).
  { replace ((x1 * x1 + y1 * y1) * (x2 * x2 + y2 * y2))
      with ((x1 * x2 - y1 * y2) * (x1 * x2 - y1 * y2)
            + (x1 * y2 + y1 * x2) * (x1 * y2 + y1 * x2)) by ring.
    rewrite Hre, Him. ring. }
  apply Rmult_integral in Hn.
  destruct Hn as [Hn | Hn]; [left | right]; f_equal; nra.
Qed.

Lemma Cprod_linear_zero rs z :
  Cprod_linear rs z = RtoC 0 -> In z rs.
Proof.
  induction rs as [|r rs IH]; simpl.
  - unfold RtoC. intros H. injection H as H. lra.
  - intros H. apply Cmul_integral in H. destruct H as [H | H].
    + left. destruct z as [x y], r as [u v].
      unfold Csub, RtoC in H. simpl in H. injection H as H1 H2.
      f_equal; lra.
    + right. auto.
Qed.

Lemma Ceval_cubic_real t x :
  Ceval [1; 7; 16 - t; 12 - t] (RtoC x) = RtoC (cubic t x).
Proof.
  unfold Ceval, Cadd, Cmul, RtoC, cubic. simpl. f_equal; ring.
Qed.

(** *** The three real roots *)

Lemma cubic_continuity t : continuity (cubic t).
Proof.
  apply derivable_continuous. unfold cubic. reg.
Qed.

Lemma three_real_roots t :
  45 / 4 < t ->
  exists a b c,
    a < -1 /\ -1 < b < -1 / 2 /\ -1 / 2 < c
    /\ cubic t a = 0 /\ cubic t b = 0 /\ cubic t c = 0.
Proof.
  intros Ht.
  assert (Hm1 : cubic t (-1) = 2) by (unfold cubic; ring).
  assert (Hh : cubic t (-1 / 2) = 45 / 8 - t / 2) by (unfold cubic; field).
  assert (Hlo : cubic t (- (t + 3)) < 0).
  { unfold cubic.
    replace (- (t + 3) * - (t + 3) * - (t + 3) + 7 * (- (t + 3) * - (t + 3))
             + (16 - t) * - (t + 3) + (12 - t))
      with (- (t * (t * t + t - 1))) by ring.
    assert (0 < t * (t * t + t - 1)) by (apply Rmult_lt_0_compat; nra).
    lra. }
  assert (Hhi : 0 < cubic t t).
  { unfold cubic. nra. }
  destruct (IVT_cor (cubic t) (- (t + 3)) (-1) (cubic_continuity t))
    as [a [Ha Ha0]]; [lra | rewrite Hm1; lra |].
  destruct (IVT_cor (cubic t) (-1) (-1 / 2) (cubic_continuity t))
    as [b [Hb Hb0]]; [lra | rewrite Hm1, Hh; nra |].
  destruct (IVT_cor (cubic t) (-1 / 2) t (cubic_continuity t))
    as [c [Hc Hc0]]; [lra | rewrite Hh; nra |].
  exists a, b, c.
  assert (a <> -1) by (intros ->; lra).
  assert (b <> -1) by (intros ->; lra).
  assert (b <> -1 / 2) by (intros E; rewrite E in Hb0; lra).
  assert (c <> -1 / 2) by (intros E; rewrite E in Hc0; lra).
  repeat split; auto; lra.
Qed.

(** Three distinct roots determine the coefficients. *)
Lemma vieta t a b c :
  a < b -> b < c ->
  cubic t a = 0 -> cubic t b = 0 -> cubic t c = 0 ->
  a + b + c = -7 /\ a * b + a * c + b * c = 16 - t /\ a * b * c = t - 12.
Proof.
  intros Hab Hbc Ha Hb Hc. unfold cubic in *.
  assert (Sab : a * a + a * b + b * b + 7 * (a + b) + (16 - t) = 0).
  { assert (E : (a - b) * (a * a + a * b + b * b + 7 * (a + b) + (16 - t)) = 0)
      by (ring_simplify; ring_simplify in Ha; ring_simplify in Hb; lra).
    apply Rmult_integral in E. destruct E; lra. }
  assert (Sbc : b * b + b * c + c * c + 7 * (b + c) + (16 - t) = 0).
  { assert (E : (b - c) * (b * b + b * c + c * c + 7 * (b + c) + (16 - t)) = 0)
      by (ring_simplify; ring_simplify in Hb; ring_simplify in Hc; lra).
    apply Rmult_integral in E. destruct E; lra. }
  assert (S1 : a + b + c = -7).
  { assert (E : (a - c) * (a + b + c + 7) = 0) by (ring_simplify; lra).
    apply Rmult_integral in E. destruct E; lra. }
  assert (S2 : a * b + a * c + b * c = 16 - t).
  { replace c with (-7 - a - b) by lra. ring_simplify. lra. }
  repeat split; auto.
  replace (a * b * c) with (a * (a * b + a * c + b * c) - a * a * (b + c)) by ring.
  rewrite S2. replace (b + c) with (-7 - a) by lra. ring_simplify.
  ring_simplify in Ha. lra.
Qed.

Lemma cubic_factor t a b c :
  a + b + c = -7 -> a * b + a * c + b * c = 16 - t -> a * b * c = t - 12 ->
  forall x, cubic t x = (x - a) * (x - b) * (x - c).
Proof.
  intros S1 S2 S3 x. unfold cubic.
  replace (16 - t) with (a * b + a * c + b * c) by lra.
  replace (12 - t) with (- (a * b * c)) by lra.
  replace 7 with (- (a + b + c)) by lra. ring.
Qed.

Lemma is_roots_real t a b c :
  a + b + c = -7 -> a * b + a * c + b * c = 16 - t -> a * b * c = t - 12 ->
  is_roots [1; 7; 16 - t; 12 - t] [RtoC a; RtoC b; RtoC c].
Proof.
  intros S1 S2 S3. split; [reflexivity|].
  intros [x y]. unfold Ceval, Cprod_linear, Cadd, Cmul, Csub, RtoC. simpl.
  replace (16 - t) with (a * b + a * c + b * c) by lra.
  replace (12 - t) with (- (a * b * c)) by lra.
  replace 7 with (- (a + b + c)) by lra.
  f_equal; ring.
Qed.

Lemma max3 (r1 r2 r3 : C) a b c :
  a < b -> b < c ->
  In (RtoC a) [r1; r2; r3] -> In (RtoC b) [r1; r2; r3] ->
  In (RtoC c) [r1; r2; r3] ->
  array_max (map Cre [r1; r2; r3]) = c.
Proof.
  intros Hab Hbc Ia Ib Ic. simpl in *.
  assert (E : forall r x, r = RtoC x -> Cre r = x) by (intros r x ->; reflexivity).
  destruct Ia as [Ia | [Ia | [Ia | []]]];
    destruct Ib as [Ib | [Ib | [Ib | []]]];
    destruct Ic as [Ic | [Ic | [Ic | []]]];
    apply E in Ia; apply E in Ib; apply E in Ic;
    try lra;
    unfold Rmax; repeat destruct Rle_dec; lra.
Qed.

(** What [np.roots] returns for the cubic, and its largest real part. *)
Lemma max_real_root_spec t :
  45 / 4 < t ->
  is_roots [1; 7; 16 - t; 12 - t] (np_roots [1; 7; 16 - t; 12 - t])
  /\ exists a b,
       a < -1 /\ -1 < b < -1 / 2 /\ -1 / 2 < max_real_root t
       /\ forall x, cubic t x = (x - a) * (x - b) * (x - max_real_root t).
Proof.
  intros Ht.
  destruct (three_real_roots t Ht) as (a & b & c & Ha & Hb & Hc & Ra & Rb & Rc).
  destruct (vieta t a b c) as (S1 & S2 & S3); auto; try lra.
  assert (Hex : exists rs, is_roots [1; 7; 16 - t; 12 - t] rs)
    by (eexists; apply (is_roots_real t a b c); auto).
  assert (Hrs : is_roots [1; 7; 16 - t; 12 - t] (np_roots [1; 7; 16 - t; 12 - t])).
  { unfold np_roots. apply epsilon_spec. exact Hex. }
  split; [exact Hrs|].
  assert (Hin : forall x, cubic t x = 0 ->
                  In (RtoC x) (np_roots [1; 7; 16 - t; 12 - t])).
  { intros x Hx. apply Cprod_linear_zero.
    destruct Hrs as [_ Hrs]. rewrite <- Hrs, Ceval_cubic_real, Hx. reflexivity. }
  assert (Hmax : max_real_root t = c).
  { unfold max_real_root.
    destruct Hrs as [Hlen _].
    destruct (np_roots [1; 7; 16 - t; 12 - t]) as [|r1 [|r2 [|r3 [|r4 rs]]]];
      simpl in Hlen; try discriminate.
    apply (max3 r1 r2 r3 a b c); auto; lra. }
  exists a, b. rewrite Hmax.
  repeat split; try lra.
  apply cubic_factor; auto.
Qed.

(** *** [std_to_exp] on the valid range *)

Lemma std_to_exp1_unfold std :
  std_to_exp1 std = max_real_root (pow_minus_2 std).
Proof. reflexivity. Qed.

Lemma pow_minus_2_bound std k :
  0 < std -> k * (std * std) < 1 -> k < pow_minus_2 std.
Proof.
  intros Hs Hk. unfold pow_minus_2.
  assert (Hu : 0 < std * std) by nra.
  assert (Hi : 0 < / (std * std)) by (apply Rinv_0_lt_compat; exact Hu).
  replace k with (k * (std * std) * / (std * std)) by (field; lra).
  replace (/ (std * std)) with (1 * / (std * std)) at 2 by ring.
  apply Rmult_lt_compat_r; assumption.
Qed.

Lemma pow_minus_2_range std :
  0 < std < 289 / 1000 -> 45 / 4 < pow_minus_2 std.
Proof. intros [H0 H1]. apply pow_minus_2_bound; nra. Qed.

Lemma pow_minus_2_decreasing s1 s2 :
  0 < s1 -> s1 < s2 -> pow_minus_2 s2 < pow_minus_2 s1.
Proof.
  intros H0 H. unfold pow_minus_2.
  assert (H1 : 0 < s1 * s1) by (apply Rmult_lt_0_compat; lra).
  assert (H2 : 0 < s2 * s2) by (apply Rmult_lt_0_compat; lra).
  apply Rinv_lt_contravar.
  - now apply Rmult_lt_0_compat.
  - apply Rmult_le_0_lt_compat; lra.
Qed.

Lemma largest_root_positive t :
  12 < t -> 0 < max_real_root t.
Proof.
  intros Ht.
  destruct (max_real_root_spec t) as (_ & a & b & Ha & Hb & Hc & F); [lra|].
  specialize (F 0). unfold cubic in F.
  assert (P : 0 < (0 - a) * (0 - b)) by (apply Rmult_lt_0_compat; lra).
  destruct (Rlt_dec 0 (max_real_root t)) as [|N]; [assumption|].
  assert (0 <= (0 - a) * (0 - b) * (0 - max_real_root t))
    by (apply Rmult_le_pos; lra).
  lra.
Qed.

Lemma largest_root_not_positive t :
  45 / 4 < t -> t <= 12 -> max_real_root t <= 0.
Proof.
  intros Ht Ht'.
  destruct (max_real_root_spec t) as (_ & a & b & Ha & Hb & Hc & F); [lra|].
  specialize (F 0). unfold cubic in F.
  assert (P : 0 < (0 - a) * (0 - b)) by (apply Rmult_lt_0_compat; lra).
  destruct (Rle_dec (max_real_root t) 0) as [|N]; [assumption|].
  assert (0 < (0 - a) * (0 - b) * (max_real_root t))
    by (apply Rmult_lt_0_compat; lra).
  lra.
Qed.

Lemma largest_root_increasing t1 t2 :
  45 / 4 < t2 -> t2 < t1 -> max_real_root t2 < max_real_root t1.
Proof.
  intros H2 H12.
  destruct (max_real_root_spec t1) as (_ & a1 & b1 & Ha1 & Hb1 & Hc1 & F1); [lra|].
  destruct (max_real_root_spec t2) as (_ & a2 & b2 & Ha2 & Hb2 & Hc2 & F2); [lra|].
  set (c1 := max_real_root t1) in *. set (c2 := max_real_root t2) in *.
  assert (Z2 : cubic t2 c2 = 0) by (rewrite F2; ring).
  assert (N : cubic t1 c2 < 0).
  { replace (cubic t1 c2) with (cubic t2 c2 - (t1 - t2) * (c2 + 1))
      by (unfold cubic; ring).
    rewrite Z2. assert (0 < (t1 - t2) * (c2 + 1)) by (apply Rmult_lt_0_compat; lra).
    lra. }
  rewrite F1 in N.
  assert (P : 0 < (c2 - a1) * (c2 - b1)) by (apply Rmult_lt_0_compat; lra).
  destruct (Rlt_dec c2 c1) as [|M]; [assumption|].
  assert (0 <= (c2 - a1) * (c2 - b1) * (c2 - c1)) by (apply Rmult_le_pos; lra).
  lra.
Qed.

(** C3.  For a std in (0, 0.289) and [t = std^-2], [np.roots] returns the
    three complex roots of [x^3 + 7x^2 + (16 - t)x + (12 - t)], and
    [std_to_exp] is the largest of their real parts; this number is a real
    root of the cubic and no real root is larger.  On an array the
    function keeps the shape and maps every element this way. *)
Theorem std_to_exp_largest_real_root :
  (forall std, 0 < std < 289 / 1000 ->
     let t := pow_minus_2 std in
     let roots := np_roots [1; 7; 16 - t; 12 - t] in
     is_roots [1; 7; 16 - t; 12 - t] roots
     /\ std_to_exp1 std = array_max (map Cre roots)
     /\ cubic t (std_to_exp1 std) = 0
     /\ forall x, cubic t x = 0 -> x <= std_to_exp1 std)
  /\ (forall a : ndarray,
        shape (std_to_exp a) = shape a
        /\ flat (std_to_exp a) = map std_to_exp1 (flat a)).
Proof.
  split.
  - intros std Hstd t roots.
    destruct (max_real_root_spec t (pow_minus_2_range std Hstd))
      as (Hroots & a & b & Ha & Hb & Hc & F).
    rewrite std_to_exp1_unfold. fold t.
    split; [exact Hroots|]. split; [reflexivity|].
    split; [rewrite F; ring|].
    intros x Hx. rewrite F in Hx.
    apply Rmult_integral in Hx. destruct Hx as [Hx | Hx]; [|lra].
    apply Rmult_integral in Hx. destruct Hx; lra.
  - intros a. split; [reflexivity|].
    unfold std_to_exp, reshape, flatten. simpl.
    rewrite map_map. reflexivity.
Qed.

(** C3 at the std 0.1. *)
Lemma std_to_exp_largest_real_root_witness :
  cubic (pow_minus_2 (1 / 10)) (std_to_exp1 (1 / 10)) = 0.
Proof.
  refine (proj1 (proj2 (proj2
            (proj1 std_to_exp_largest_real_root (1 / 10) _)))).
  lra.
Defined.

(** C9, as the code has it.  [std_to_exp] is strictly positive for a
    positive std with [12 * std^2 < 1], that is below [1 / sqrt 12]
    (0.28867...), and is not positive from there up to 0.289; on the whole
    of (0, 0.289) it is strictly decreasing in the std. *)
Theorem std_to_exp_positive_decreasing :
  (forall std, 0 < std -> 12 * (std * std) < 1 -> 0 < std_to_exp1 std)
  /\ (forall std, 0 < std < 289 / 1000 -> 1 <= 12 * (std * std) ->
        std_to_exp1 std <= 0)
  /\ (forall std1 std2, 0 < std1 -> std1 < std2 -> std2 < 289 / 1000 ->
        std_to_exp1 std2 < std_to_exp1 std1).
Proof.
  split; [|split].
  - intros std H0 H. rewrite std_to_exp1_unfold.
    apply largest_root_positive. now apply pow_minus_2_bound.
  - intros std Hstd H. rewrite std_to_exp1_unfold.
    apply largest_root_not_positive; [now apply pow_minus_2_range|].
    unfold pow_minus_2.
    assert (Hu : 0 < std * std) by nra.
    apply Rmult_le_reg_r with (r := std * std); [exact Hu|].
    rewrite Rinv_l by lra. lra.
  - intros std1 std2 H0 H12 H2. rewrite !std_to_exp1_unfold.
    apply largest_root_increasing.
    + apply pow_minus_2_range. lra.
    + now apply pow_minus_2_decreasing.
Qed.

(** C9 at the stds 0.1 and 0.2. *)
Lemma std_to_exp_positive_decreasing_witness :
  0 < std_to_exp1 (1 / 10)
  /\ std_to_exp1 (2 / 10) < std_to_exp1 (1 / 10).
Proof.
  split.
  - apply (proj1 std_to_exp_positive_decreasing); lra.
  - apply (proj2 (proj2 std_to_exp_positive_decreasing)); lra.
Defined.

(** C9 as it is stated fails: 0.2889 lies in (0, 0.289) and its exponent
    is negative. *)
Lemma std_to_exp_negative_at_0_2889 :
  0 < 2889 / 10000 < 289 / 1000 /\ std_to_exp1 (2889 / 10000) < 0.
Proof.
  split; [lra|].
  rewrite std_to_exp1_unfold.
  set (t := pow_minus_2 (2889 / 10000)).
  assert (Ht : 45 / 4 < t) by (apply pow_minus_2_range; lra).
  assert (Ht' : t < 12).
  { unfold t, pow_minus_2.
    replace 12 with (/ (/ 12)) by field.
    apply Rinv_lt_contravar; lra. }
  destruct (max_real_root_spec t Ht) as (_ & a & b & Ha & Hb & Hc & F).
  specialize (F 0). unfold cubic in F.
  assert (P : 0 < (0 - a) * (0 - b)) by (apply Rmult_lt_0_compat; lra).
  destruct (Rlt_dec (max_real_root t) 0) as [|N]; [assumption|].
  assert (0 <= (0 - a) * (0 - b) * (max_real_root t))
    by (apply Rmult_le_pos; lra).
  lra.
Qed.

(** *** [power_function_correlation] *)

Lemma exp_above_minus_half std :
  0 < std < 289 / 1000 -> -1 / 2 < std_to_exp1 std.
Proof.
  intros Hstd. rewrite std_to_exp1_unfold.
  destruct (max_real_root_spec _ (pow_minus_2_range std Hstd))
    as (_ & a & b & _ & _ & Hc & _).
  exact Hc.
Qed.

(** C2.  For positive offsets and stds in (0, 0.289) the correlation is
    [(a_exp+1)(b_exp+1) (a_ofs/b_ofs)^e / ((a_exp+b_exp+1) max(a_ofs, b_ofs))]
    with [e = b_exp] when [a_ofs < b_ofs] and [e = -a_exp] otherwise, equal
    offsets included; the divisor is positive, and for equal offsets the
    power is 1. *)
Theorem power_function_correlation_formula a_ofs a_std b_ofs b_std :
  0 < a_ofs -> 0 < b_ofs ->
  0 < a_std < 289 / 1000 -> 0 < b_std < 289 / 1000 ->
  let a_exp := std_to_exp1 a_std in
  let b_exp := std_to_exp1 b_std in
  power_function_correlation a_ofs a_std b_ofs b_std
    = correlation_spec a_ofs a_std b_ofs b_std
  /\ 0 < (a_exp + b_exp + 1) * (if Rle_dec a_ofs b_ofs then b_ofs else a_ofs)
  /\ (a_ofs = b_ofs ->
      power_function_correlation a_ofs a_std b_ofs b_std
        = (a_exp + 1) * (b_exp + 1) / ((a_exp + b_exp + 1) * a_ofs)).
Proof.
  intros Ha Hb Hsa Hsb a_exp b_exp.
  pose proof (exp_above_minus_half a_std Hsa) as Ea.
  pose proof (exp_above_minus_half b_std Hsb) as Eb.
  fold a_exp in Ea. fold b_exp in Eb.
  assert (Hmax : Rmax a_ofs b_ofs = if Rle_dec a_ofs b_ofs then b_ofs else a_ofs)
    by (unfold Rmax; reflexivity).
  split; [|split].
  - unfold power_function_correlation, correlation_spec.
    rewrite Hmax. reflexivity.
  - apply Rmult_lt_0_compat; [lra|]. destruct Rle_dec; lra.
  - intros ->. unfold power_function_correlation.
    fold a_exp. fold b_exp.
    destruct (Rlt_dec b_ofs b_ofs) as [H|_]; [lra|].
    replace (b_ofs / b_ofs) with 1 by (field; lra).
    unfold Rpower. rewrite ln_1, Rmult_0_r, exp_0, Rmax_left by lra.
    f_equal. ring.
Qed.

(** C2 at the offsets 100 and 500 and the stds 0.05 and 0.1. *)
Lemma power_function_correlation_formula_witness :
  power_function_correlation 100 (5 / 100) 500 (1 / 10)
    = correlation_spec 100 (5 / 100) 500 (1 / 10).
Proof.
  refine (proj1 (power_function_correlation_formula
                   100 (5 / 100) 500 (1 / 10) _ _ _ _)); lra.
Defined.

End ExpFacts.

(** ** The linear solve and the coefficients *)

Module SolverFacts.

Import Numerics.
Open Scope R_scope.

(** *** Vectors *)

Lemma vadd_length u : forall v k,
  List.length u = k -> List.length v = k -> List.length (vadd u v) = k.
Proof.
  induction u as [|x u IH]; intros [|y v] k Hu Hv; simpl in *; subst;
    try discriminate; auto.
Qed.

Lemma vscale_length c v : List.length (vscale c v) = List.length v.
Proof. apply length_map. Qed.

Lemma vsub_length u v k :
  List.length u = k -> List.length v = k -> List.length (vsub u v) = k.
Proof.
  intros Hu Hv. unfold vsub. apply vadd_length; auto.
  now rewrite vscale_length.
Qed.

Lemma zeros_length k : List.length (zeros k) = k.
Proof. apply repeat_length. Qed.

Lemma nth_zeros k i : nth i (zeros k) 0 = 0.
Proof. apply nth_repeat. Qed.

Lemma nth_nil i : nth i (@nil R) 0 = 0.
Proof. destruct i; reflexivity. Qed.

Lemma nth_vadd u : forall v i,
  List.length u = List.length v ->
  nth i (vadd u v) 0 = nth i u 0 + nth i v 0.
Proof.
  induction u as [|x u IH]; intros [|y v] i H; simpl in *; try discriminate.
  - destruct i; simpl; ring.
  - destruct i; [reflexivity|]. apply IH. now injection H.
Qed.

Lemma nth_vscale c v : forall i, nth i (vscale c v) 0 = c * nth i v 0.
Proof.
  induction v as [|x v IH]; intros [|i]; simpl; try ring. apply IH.
Qed.

Lemma nth_vsub u v i :
  List.length u = List.length v ->
  nth i (vsub u v) 0 = nth i u 0 - nth i v 0.
Proof.
  intros H. unfold vsub.
  rewrite nth_vadd by (now rewrite vscale_length).
  rewrite nth_vscale. ring.
Qed.

Lemma nth_vdiv u : forall v i,
  List.length u = List.length v ->
  nth i (vdiv u v) 0 = nth i u 0 / nth i v 0.
Proof.
  induction u as [|x u IH]; intros [|y v] i H; simpl in *; try discriminate.
  - destruct i; simpl; unfold Rdiv; ring.
  - destruct i; [reflexivity|]. apply IH. now injection H.
Qed.

Lemma vdiv_length u : forall v k,
  List.length u = k -> List.length v = k -> List.length (vdiv u v) = k.
Proof.
  induction u as [|x u IH]; intros [|y v] k Hu Hv; simpl in *; subst;
    try discriminate; auto.
Qed.

Lemma vec_ext (u v : vec) :
  List.length u = List.length v ->
  (forall i, nth i u 0 = nth i v 0) -> u = v.
Proof. intros H E. apply (nth_ext u v 0 0 H). intros i _. apply E. Qed.

Lemma dot_vadd_l u : forall v w,
  List.length u = List.length v ->
  dot (vadd u v) w = dot u w + dot v w.
Proof.
  induction u as [|x u IH]; intros [|y v] w H; simpl in *; try discriminate.
  - ring.
  - destruct w as [|z w]; [ring|]. rewrite IH by (now injection H). ring.
Qed.

Lemma dot_vscale_l c u : forall w, dot (vscale c u) w = c * dot u w.
Proof.
  induction u as [|x u IH]; intros [|z w]; simpl; try ring.
  unfold vscale in IH. rewrite IH. ring.
Qed.

Lemma dot_vsub_l u v w :
  List.length u = List.length v ->
  dot (vsub u v) w = dot u w - dot v w.
Proof.
  intros H. unfold vsub.
  rewrite dot_vadd_l by (now rewrite vscale_length).
  rewrite dot_vscale_l. ring.
Qed.

Lemma dot_vsub_r u : forall v w,
  List.length v = List.length w ->
  dot u (vsub v w) = dot u v - dot u w.
Proof.
  induction u as [|x u IH]; intros [|y v] [|z w] H; simpl in *;
    try discriminate; try ring.
  unfold vsub in IH. rewrite IH by (now injection H). ring.
Qed.

Lemma dot_zeros_r u : forall n, dot u (zeros n) = 0.
Proof.
  induction u as [|x u IH]; intros [|n]; simpl; try ring.
  unfold zeros in IH. rewrite IH. ring.
Qed.

Lemma lincomb_length k cs : forall X,
  rows_of_length k X -> List.length (lincomb k cs X) = k.
Proof.
  induction cs as [|c cs IH]; intros [|x X] H; simpl;
    try apply zeros_length.
  inversion H; subst.
  apply vadd_length; [now rewrite vscale_length | now apply IH].
Qed.

Lemma nth_lincomb k cs : forall X j,
  rows_of_length k X ->
  nth j (lincomb k cs X) 0 = dot cs (col j X).
Proof.
  induction cs as [|c cs IH]; intros [|x X] j H; simpl;
    try apply nth_zeros.
  inversion H; subst.
  rewrite nth_vadd, nth_vscale, IH; auto.
  rewrite vscale_length. symmetry. now apply lincomb_length.
Qed.

(** *** The pivot *)

Lemma select_pivot_spec eqs : forall p others,
  select_pivot eqs = Some (p, others) ->
  (forall e, In e eqs <-> e = p \/ In e others)
  /\ List.length eqs = S (List.length others)
  /\ forall e, In e eqs -> Rabs (lead e) <= Rabs (lead p).
Proof.
  induction eqs as [|e0 eqs IH]; intros p others H; simpl in H;
    [discriminate|].
  destruct (select_pivot eqs) as [[q rest]|] eqn:E.
  - destruct (IH q rest eq_refl) as (Hin & Hlen & Hmax).
    destruct (Rle_dec (Rabs (lead q)) (Rabs (lead e0))) as [Hle|Hgt];
      injection H as <- <-.
    + split; [|split].
      * intros e. simpl. intuition auto.
      * reflexivity.
      * intros e [<- | He]; [lra|].
        apply Rle_trans with (Rabs (lead q)); auto.
    + split; [|split].
      * intros e. simpl. rewrite Hin. intuition auto.
      * simpl. now rewrite Hlen.
      * intros e [<- | He]; [lra | auto].
  - injection H as <- <-.
    destruct eqs as [|e1 eqs]; [|simpl in E; destruct (select_pivot eqs) as [[? ?]|];
      [destruct Rle_dec|]; discriminate].
    split; [|split].
    + intros e. simpl. intuition auto.
    + reflexivity.
    + intros e [<- | []]. lra.
Qed.

Lemma select_pivot_some e eqs :
  exists p others, select_pivot (e :: eqs) = Some (p, others).
Proof.
  simpl. destruct (select_pivot eqs) as [[q rest]|].
  - destruct Rle_dec; eauto.
  - eauto.
Qed.

(** *** Gaussian elimination *)

Lemma eliminate_well_formed n k p others :
  List.length (fst p) = S n -> List.length (snd p) = k ->
  well_formed (S n) k others ->
  well_formed n k (map (eliminate p) others).
Proof.
  intros Hp Hq H. unfold well_formed in *.
  rewrite Forall_forall in *. intros e' He'.
  apply in_map_iff in He'. destruct He' as [e [<- He]].
  destruct (H e He) as [H1 H2]. unfold eliminate. simpl.
  assert (T : forall r : vec, List.length r = S n -> List.length (tl r) = n)
    by (intros [|? r] Hr; simpl in *; [discriminate | now injection Hr]).
  split.
  - apply vsub_length; [now apply T | rewrite vscale_length; now apply T].
  - apply vsub_length; [assumption | now rewrite vscale_length].
Qed.

Lemma gauss_shape n : forall k eqs X,
  well_formed n k eqs -> List.length eqs = n ->
  gauss n k eqs = Ok X ->
  List.length X = n /\ rows_of_length k X.
Proof.
  induction n as [|n IH]; intros k eqs X Hwf Hlen H; simpl in H.
  - injection H as <-. split; [reflexivity | constructor].
  - destruct (select_pivot eqs) as [[p others]|] eqn:E; [|discriminate].
    destruct (Req_dec_T (lead p) 0) as [|Hp]; [discriminate|].
    destruct (select_pivot_spec eqs p others E) as (Hin & Hl & _).
    assert (Hpwf : List.length (fst p) = S n /\ List.length (snd p) = k).
    { unfold well_formed in Hwf. rewrite Forall_forall in Hwf.
      apply Hwf. apply Hin. now left. }
    assert (Howf : well_formed (S n) k others).
    { unfold well_formed in *. rewrite Forall_forall in *.
      intros e He. apply Hwf. apply Hin. now right. }
    destruct (gauss n k (map (eliminate p) others)) as [X'|] eqn:G;
      simpl in H; [|discriminate].
    injection H as <-.
    destruct (IH k _ X' (eliminate_well_formed n k p others
                           (proj1 Hpwf) (proj2 Hpwf) Howf)) as [L R]; auto.
    { rewrite length_map. lia. }
    split; [simpl; now rewrite L|].
    constructor; [|exact R].
    rewrite vscale_length. apply vsub_length; [tauto|].
    now apply lincomb_length.
Qed.

Lemma cons_of_length (r : vec) n :
  List.length r = S n -> r = hd 0 r :: tl r /\ List.length (tl r) = n.
Proof.
  destruct r as [|x r]; simpl; intros H; [discriminate|].
  split; [reflexivity | now injection H].
Qed.

(** The result solves every equation, column by column. *)
Lemma gauss_sound n : forall k eqs X,
  well_formed n k eqs -> List.length eqs = n ->
  gauss n k eqs = Ok X ->
  forall e j, In e eqs -> dot (fst e) (col j X) = nth j (snd e) 0.
Proof.
  induction n as [|n IH]; intros k eqs X Hwf Hlen H e j He; simpl in H.
  - destruct eqs; [destruct He | discriminate].
  - destruct (select_pivot eqs) as [[p others]|] eqn:E; [|discriminate].
    destruct (Req_dec_T (lead p) 0) as [|Hp]; [discriminate|].
    destruct (select_pivot_spec eqs p others E) as (Hin & Hl & _).
    unfold well_formed in Hwf. rewrite Forall_forall in Hwf.
    assert (Hpwf : List.length (fst p) = S n /\ List.length (snd p) = k)
      by (apply Hwf, Hin; now left).
    assert (Howf : well_formed (S n) k others).
    { unfold well_formed. rewrite Forall_forall.
      intros e' He'. apply Hwf, Hin. now right. }
    pose proof (eliminate_well_formed n k p others
                  (proj1 Hpwf) (proj2 Hpwf) Howf) as Hewf.
    assert (Hel : List.length (map (eliminate p) others) = n)
      by (rewrite length_map; lia).
    destruct (gauss n k (map (eliminate p) others)) as [X'|] eqn:G;
      simpl in H; [|discriminate].
    injection H as <-.
    destruct (gauss_shape n k _ X' Hewf Hel G) as [_ HX'].
    destruct (cons_of_length (fst p) n (proj1 Hpwf)) as [Ep Lp].
    assert (Hx1 : nth j (vscale (/ lead p)
                           (vsub (snd p) (lincomb k (tl (fst p)) X'))) 0
                  = / lead p * (nth j (snd p) 0 - dot (tl (fst p)) (col j X'))).
    { rewrite nth_vscale, nth_vsub, nth_lincomb; auto.
      rewrite lincomb_length; [tauto | exact HX']. }
    apply Hin in He. destruct He as [-> | He].
    + rewrite Ep at 1. simpl. rewrite Hx1. fold (lead p). field. exact Hp.
    + destruct (Hwf e (proj2 (Hin e) (or_intror He))) as [Le1 Le2].
      destruct (cons_of_length (fst e) n Le1) as [Ee Le].
      assert (I : dot (fst (eliminate p e)) (col j X')
                  = nth j (snd (eliminate p e)) 0).
      { apply (IH k _ X' Hewf Hel G). now apply in_map. }
      unfold eliminate in I. simpl in I.
      rewrite dot_vsub_l, dot_vscale_l in I
        by (rewrite vscale_length; congruence).
      pose proof (proj2 Hpwf) as Lp2.
      rewrite nth_vsub, nth_vscale in I
        by (rewrite vscale_length; congruence).
      rewrite Ee at 1. simpl. rewrite Hx1. fold (lead e).
      unfold Rdiv in I.
      replace (lead e * (/ lead p * (nth j (snd p) 0 - dot (tl (fst p)) (col j X'))))
        with (lead e * / lead p * nth j (snd p) 0
              - lead e * / lead p * dot (tl (fst p)) (col j X')) by ring.
      lra.
Qed.

(** Elimination succeeds on a system without kernel. *)
Lemma gauss_complete n : forall k eqs,
  well_formed n k eqs -> List.length eqs = n ->
  trivial_kernel n (map fst eqs) ->
  exists X, gauss n k eqs = Ok X.
Proof.
  induction n as [|n IH]; intros k eqs Hwf Hlen Hker; simpl.
  - eauto.
  - destruct eqs as [|e0 eqs]; [discriminate|].
    destruct (select_pivot_some e0 eqs) as (p & others & E).
    rewrite E.
    destruct (select_pivot_spec _ p others E) as (Hin & Hl & Hmax).
    unfold well_formed in Hwf. rewrite Forall_forall in Hwf.
    assert (Hpwf : List.length (fst p) = S n /\ List.length (snd p) = k)
      by (apply Hwf, Hin; now left).
    assert (Howf : well_formed (S n) k others).
    { unfold well_formed. rewrite Forall_forall.
      intros e' He'. apply Hwf, Hin. now right. }
    pose proof (eliminate_well_formed n k p others
                  (proj1 Hpwf) (proj2 Hpwf) Howf) as Hewf.
    destruct (cons_of_length (fst p) n (proj1 Hpwf)) as [Ep Lp].
    destruct (Req_dec_T (lead p) 0) as [Hp0|Hp].
    + (* every leading coefficient is zero: the first unit vector is in
         the kernel *)
      exfalso.
      assert (K : 1 :: zeros n = zeros (S n)).
      { apply Hker; [simpl; now rewrite zeros_length|].
        intros r Hr. apply in_map_iff in Hr. destruct Hr as [e [<- He]].
        destruct (cons_of_length (fst e) n (proj1 (Hwf e He))) as [Ee _].
        rewrite Ee. simpl. rewrite dot_zeros_r.
        pose proof (Hmax e He) as M. rewrite Hp0, Rabs_R0 in M.
        fold (lead e).
        assert (lead e = 0).
        { destruct (Req_dec_T (lead e) 0) as [|N]; [assumption|].
          apply Rabs_pos_lt in N. lra. }
        lra. }
      simpl in K. injection K as K. lra.
    + destruct (IH k (map (eliminate p) others)) as [X' G]; auto.
      { rewrite length_map. simpl in Hl. simpl in Hlen. lia. }
      { intros v' Lv' Hv'.
        set (x1 := - (dot (tl (fst p)) v') / lead p).
        assert (K : x1 :: v' = zeros (S n)).
        { apply Hker; [simpl; now rewrite Lv'|].
          intros r Hr. apply in_map_iff in Hr. destruct Hr as [e [<- He]].
          apply Hin in He. destruct He as [-> | He].
          - rewrite Ep. simpl. fold (lead p). unfold x1. field. exact Hp.
          - destruct (Hwf e (proj2 (Hin e) (or_intror He))) as [Le1 Le2].
            destruct (cons_of_length (fst e) n Le1) as [Ee Le].
            assert (I : dot (fst (eliminate p e)) v' = 0).
            { apply Hv'. rewrite map_map. apply in_map_iff. eauto. }
            unfold eliminate in I. simpl in I.
            rewrite dot_vsub_l, dot_vscale_l in I
              by (rewrite vscale_length; congruence).
            rewrite Ee. simpl. fold (lead e). unfold x1.
            unfold Rdiv in *.
            replace (lead e * (- dot (tl (fst p)) v' * / lead p))
              with (- (lead e * / lead p * dot (tl (fst p)) v')) by ring.
            lra. }
        simpl in K. now injection K. }
      rewrite G. simpl. eauto.
Qed.

Lemma nth_col (M : matrix) j : forall i,
  nth i (col j M) 0 = nth j (nth i M []) 0.
Proof.
  induction M as [|x M IH]; intros [|i]; simpl; auto;
    destruct j; reflexivity.
Qed.

(** Two solutions of a system without kernel are equal. *)
Lemma solution_unique n k (rows : list vec) (X Y : matrix) :
  trivial_kernel n rows ->
  List.length X = n -> List.length Y = n ->
  rows_of_length k X -> rows_of_length k Y ->
  (forall r j, In r rows -> dot r (col j X) = dot r (col j Y)) ->
  X = Y.
Proof.
  intros Hker LX LY RX RY H.
  assert (Hcol : forall j, col j X = col j Y).
  { intros j.
    assert (Z : vsub (col j X) (col j Y) = zeros n).
    { apply Hker.
      - apply vsub_length; unfold col; now rewrite length_map.
      - intros r Hr. rewrite dot_vsub_r, (H r j Hr).
        + ring.
        + unfold col. rewrite !length_map. congruence. }
    apply vec_ext; [unfold col; rewrite !length_map; congruence|].
    intros i.
    assert (Zi : nth i (vsub (col j X) (col j Y)) 0 = 0)
      by (rewrite Z; apply nth_zeros).
    rewrite nth_vsub in Zi by (unfold col; rewrite !length_map; congruence).
    lra. }
  apply (nth_ext X Y [] []); [congruence|].
  intros i Hi.
  unfold rows_of_length in *. rewrite Forall_forall in RX, RY.
  apply vec_ext.
  - rewrite RX, RY; auto; apply nth_In; congruence.
  - intros j. specialize (Hcol j).
    apply (f_equal (fun l => nth i l 0)) in Hcol.
    now rewrite !nth_col in Hcol.
Qed.

(** *** The system of [solve_posthoc_coefficients] *)

Lemma broadcast_arrays_length x y ins :
  broadcast_arrays x y = Ok ins ->
  List.length (fst ins) = List.length (snd ins).
Proof.
  unfold broadcast_arrays.
  destruct (List.length x =? List.length y)%nat eqn:E.
  - intros H. injection H as <-. simpl. now apply Nat.eqb_eq.
  - destruct (List.length x =? 1)%nat.
    + intros H. injection H as <-. simpl. apply repeat_length.
    + destruct (List.length y =? 1)%nat; [|discriminate].
      intros H. injection H as <-. simpl. symmetry. apply repeat_length.
Qed.

Lemma correlation_table_length a_ofs a_std b_ofs b_std :
  List.length a_ofs = List.length a_std ->
  List.length (correlation_table a_ofs a_std b_ofs b_std) = List.length a_ofs.
Proof.
  intros H. unfold correlation_table.
  rewrite length_map, length_combine. lia.
Qed.

Lemma correlation_table_rows a_ofs a_std b_ofs b_std :
  List.length b_ofs = List.length b_std ->
  rows_of_length (List.length b_ofs) (correlation_table a_ofs a_std b_ofs b_std).
Proof.
  intros H. unfold rows_of_length, correlation_table.
  rewrite Forall_forall. intros r Hr.
  apply in_map_iff in Hr. destruct Hr as [a [<- _]].
  rewrite length_map, length_combine. lia.
Qed.

Lemma combine_well_formed n k : forall A B : matrix,
  rows_of_length n A -> rows_of_length k B ->
  well_formed n k (combine A B).
Proof.
  induction A as [|r A IH]; intros [|b B] HA HB; simpl; try constructor.
  - inversion HA; inversion HB; subst. simpl. auto.
  - inversion HA; inversion HB; subst. now apply IH.
Qed.

Lemma map_fst_combine {U V : Type} : forall (A : list U) (B : list V),
  List.length A = List.length B -> map fst (combine A B) = A.
Proof.
  induction A as [|a A IH]; intros [|b B] H; simpl in *;
    try discriminate; auto.
  f_equal. apply IH. now injection H.
Qed.

(** The system that [linalg_solve] is given: [n] equations, [n] unknowns,
    right-hand sides of length [k], and the rows of [A] on the left. *)
Lemma system_shape io is_ oo os :
  List.length io = List.length is_ ->
  List.length oo = List.length os ->
  let A := correlation_table io is_ io is_ in
  let B := correlation_table io is_ oo os in
  well_formed (List.length A) (List.length oo) (combine A B)
  /\ List.length (combine A B) = List.length A
  /\ map fst (combine A B) = A.
Proof.
  intros Hi Ho A B.
  assert (LA : List.length A = List.length io)
    by (now apply correlation_table_length).
  assert (LB : List.length B = List.length io)
    by (now apply correlation_table_length).
  split; [|split].
  - apply combine_well_formed.
    + rewrite LA. now apply correlation_table_rows.
    + now apply correlation_table_rows.
  - rewrite length_combine. lia.
  - apply map_fst_combine. lia.
Qed.

(** *** The normalization *)

Lemma col_sums_length k (X : matrix) :
  rows_of_length k X -> List.length (col_sums k X) = k.
Proof.
  induction 1 as [|x X Hx HX IH]; simpl.
  - apply zeros_length.
  - now apply vadd_length.
Qed.

Lemma nth_col_sums_scaled k (s : vec) (X : matrix) j :
  rows_of_length k X -> List.length s = k ->
  nth j (col_sums k (map (fun row => vdiv row s) X)) 0
  = nth j (col_sums k X) 0 / nth j s 0.
Proof.
  intros HX Hs. induction HX as [|x X Hx HX IH]; simpl.
  - rewrite nth_zeros. unfold Rdiv. ring.
  - assert (HX' : rows_of_length k (map (fun row => vdiv row s) X)).
    { unfold rows_of_length in *. rewrite Forall_forall in *.
      intros r Hr. apply in_map_iff in Hr. destruct Hr as [r' [<- Hr']].
      apply vdiv_length; auto. }
    rewrite !nth_vadd, IH, nth_vdiv.
    + unfold Rdiv. ring.
    + congruence.
    + rewrite col_sums_length; auto.
    + rewrite col_sums_length by exact HX'. apply vdiv_length; auto.
Qed.

Lemma normalize_shape k (X : matrix) :
  rows_of_length k X ->
  List.length (normalize k X) = List.length X
  /\ rows_of_length k (normalize k X).
Proof.
  intros HX. unfold normalize. split; [apply length_map|].
  pose proof (col_sums_length k X HX) as Ls.
  unfold rows_of_length in *. rewrite Forall_forall in *.
  intros r Hr. apply in_map_iff in Hr. destruct Hr as [r' [<- Hr']].
  apply vdiv_length; auto.
Qed.

Lemma normalize_col_sums k (X : matrix) j :
  rows_of_length k X ->
  nth j (col_sums k X) 0 <> 0 ->
  nth j (col_sums k (normalize k X)) 0 = 1.
Proof.
  intros HX Hj. unfold normalize.
  rewrite nth_col_sums_scaled; auto.
  - now field.
  - now apply col_sums_length.
Qed.

(** *** A target that is one of the sources *)

Lemma dot_unit j (r : vec) : forall s,
  dot r (map (fun i => if (i =? j)%nat then 1 else 0) (seq s (List.length r)))
  = if (s <=? j)%nat then nth (j - s) r 0 else 0.
Proof.
  induction r as [|x r IH]; intros s; simpl.
  - destruct (s <=? j)%nat; [|reflexivity]. now destruct (j - s)%nat.
  - rewrite IH.
    destruct (Nat.eqb_spec s j) as [->|Hne].
    + rewrite Nat.leb_refl, Nat.sub_diag.
      destruct (Nat.leb_spec (S j) j); [lia|]. ring.
    + destruct (Nat.leb_spec s j) as [Hle|Hgt].
      * destruct (Nat.leb_spec (S s) j); [|lia].
        replace (j - s)%nat with (S (j - S s)) by lia. ring.
      * destruct (Nat.leb_spec (S s) j); [lia|]. ring.
Qed.

Lemma map_zero_seq n : forall s, map (fun _ : nat => 0) (seq s n) = zeros n.
Proof.
  unfold zeros.
  induction n as [|n IH]; intros s; simpl; [reflexivity|].
  f_equal. apply IH.
Qed.

Lemma col_unit_column n j :
  col 0 (unit_column n j)
  = map (fun i => if (i =? j)%nat then 1 else 0) (seq 0 n).
Proof. unfold col, unit_column. rewrite map_map. reflexivity. Qed.

Lemma unit_column_shape n j :
  List.length (unit_column n j) = n /\ rows_of_length 1 (unit_column n j).
Proof.
  unfold unit_column. split.
  - now rewrite length_map, length_seq.
  - unfold rows_of_length. rewrite Forall_forall. intros r Hr.
    apply in_map_iff in Hr. destruct Hr as [i [<- _]]. reflexivity.
Qed.

(** When the right-hand side is the column [j] of a nonsingular [A], the
    solve returns the unit column [j]. *)
Lemma linalg_solve_unit_column (A : matrix) j :
  rows_of_length (List.length A) A ->
  nonsingular A ->
  linalg_solve 1 A (map (fun r => [nth j r 0]) A)
    = Ok (unit_column (List.length A) j).
Proof.
  intros HA Hns. set (n := List.length A) in *.
  set (B := map (fun r : vec => [nth j r 0]) A).
  assert (HB : rows_of_length 1 B).
  { unfold rows_of_length, B. rewrite Forall_forall. intros b Hb.
    apply in_map_iff in Hb. destruct Hb as [r [<- _]]. reflexivity. }
  assert (LB : List.length B = n) by (unfold B; now rewrite length_map).
  pose proof (combine_well_formed n 1 A B HA HB) as Hwf.
  assert (Hlen : List.length (combine A B) = n)
    by (rewrite length_combine; fold n; lia).
  assert (Hfst : map fst (combine A B) = A)
    by (apply map_fst_combine; fold n; lia).
  unfold linalg_solve. fold n.
  destruct (gauss_complete n 1 (combine A B) Hwf Hlen) as [X G].
  { rewrite Hfst. exact Hns. }
  rewrite G. f_equal.
  destruct (gauss_shape n 1 _ X Hwf Hlen G) as [LX RX].
  destruct (unit_column_shape n j) as [LE RE].
  apply (solution_unique n 1 A); auto.
  intros r c Hr.
  assert (Hrb : In (r, [nth j r 0]) (combine A B)).
  { unfold B. clear -Hr. induction A as [|a A IH]; simpl in *; [tauto|].
    destruct Hr as [-> | Hr]; auto. }
  pose proof (gauss_sound n 1 _ X Hwf Hlen G _ c Hrb) as Sd. simpl in Sd.
  rewrite Sd.
  destruct c as [|c].
  - rewrite col_unit_column.
    assert (Lr : List.length r = n).
    { unfold rows_of_length in HA. rewrite Forall_forall in HA. auto. }
    rewrite <- Lr, dot_unit. simpl. now rewrite Nat.sub_0_r.
  - assert (Z : col (S c) (unit_column n j) = zeros n).
    { unfold col, unit_column. rewrite map_map.
      transitivity (map (fun _ : nat => 0) (seq 0 n)).
      - apply map_ext. intros i. simpl. now destruct c.
      - apply map_zero_seq. }
    rewrite Z, dot_zeros_r. simpl. now destruct c.
Qed.

Lemma col_sums_unit_column n j :
  (j < n)%nat -> col_sums 1 (unit_column n j) = [1].
Proof.
  intros Hj. unfold unit_column, col_sums.
  assert (G : forall s m,
            fold_right vadd (zeros 1)
              (map (fun i => [if (i =? j)%nat then 1 else 0]) (seq s m))
            = [if ((s <=? j) && (j <? s + m))%nat then 1 else 0]).
  { intros s m. revert s.
    induction m as [|m IH]; intros s; cbn -[Nat.leb Nat.ltb Nat.eqb].
    - replace (j <? s + 0)%nat with (j <? s)%nat by (f_equal; lia).
      destruct (Nat.leb_spec s j), (Nat.ltb_spec j s); simpl; auto; lia.
    - rewrite IH. cbn -[Nat.leb Nat.ltb Nat.eqb]. f_equal.
      destruct (Nat.eqb_spec s j), (Nat.leb_spec s j), (Nat.leb_spec (S s) j),
        (Nat.ltb_spec j (S (s + m))), (Nat.ltb_spec j (s + S m));
        cbn [andb]; try lia; ring. }
  rewrite G. simpl.
  destruct (Nat.ltb_spec j n); [reflexivity | lia].
Qed.

Lemma normalize_unit_column n j :
  (j < n)%nat -> normalize 1 (unit_column n j) = unit_column n j.
Proof.
  intros Hj. unfold normalize. rewrite col_sums_unit_column by exact Hj.
  unfold unit_column. rewrite map_map. apply map_ext.
  intros i. simpl. f_equal. field.
Qed.

(** The right-hand side for a target that is the source [j]. *)
Lemma correlation_table_column io is_ j o s :
  nth_error (combine io is_) j = Some (o, s) ->
  correlation_table io is_ [o] [s]
  = map (fun r => [nth j r 0]) (correlation_table io is_ io is_).
Proof.
  intros Hj. unfold correlation_table. rewrite map_map.
  apply map_ext. intros a. simpl. f_equal.
  set (g := fun b : R * R =>
              power_function_correlation (fst a) (snd a) (fst b) (snd b)).
  assert (Lj : (j < List.length (combine io is_))%nat)
    by (apply nth_error_Some; congruence).
  rewrite (nth_indep _ 0 (g (0, 0))) by (now rewrite length_map).
  rewrite map_nth.
  rewrite (nth_error_nth _ _ (0, 0) Hj). reflexivity.
Qed.

(** The correlation of a profile with itself is positive, so a single
    source gives a nonsingular system. *)
Lemma self_correlation_positive o s :
  0 < o -> 0 < s < 289 / 1000 -> 0 < power_function_correlation o s o s.
Proof.
  intros Ho Hs. unfold power_function_correlation.
  pose proof (ExpFacts.exp_above_minus_half s Hs) as E.
  set (e := std_to_exp1 s) in *.
  rewrite Rmax_left by lra.
  apply Rdiv_lt_0_compat.
  - apply Rmult_lt_0_compat; [apply Rmult_lt_0_compat; lra|].
    unfold Rpower. apply exp_pos.
  - apply Rmult_lt_0_compat; lra.
Qed.

Lemma nonsingular_1 a : a <> 0 -> nonsingular [[a]].
Proof.
  intros Ha v Lv Hv. simpl in Lv.
  destruct v as [|x [|y v]]; try discriminate.
  specialize (Hv [a] (or_introl eq_refl)). simpl in Hv.
  unfold zeros. simpl. f_equal.
  assert (E : a * x = 0) by lra.
  apply Rmult_integral in E. destruct E; [contradiction | assumption].
Qed.

Lemma nth_map_seq {T : Type} (f : nat -> T) d n : forall s i,
  (i < n)%nat -> nth i (map f (seq s n)) d = f (s + i)%nat.
Proof.
  induction n as [|n IH]; intros s [|i] H; simpl; try lia.
  - f_equal. lia.
  - rewrite IH by lia. f_equal. lia.
Qed.

Lemma nth_unit_column n j i :
  (i < n)%nat -> nth i (unit_column n j) [] = [if (i =? j)%nat then 1 else 0].
Proof.
  intros Hi. unfold unit_column.
  now rewrite nth_map_seq by exact Hi.
Qed.

(** *** Two sources with one std *)

Lemma nonsingular_2 a11 a12 a21 a22 :
  a11 * a22 - a12 * a21 <> 0 -> nonsingular [[a11; a12]; [a21; a22]].
Proof.
  intros Hd v Lv Hv. simpl in Lv.
  destruct v as [|x [|y [|z v]]]; try discriminate.
  pose proof (Hv [a11; a12] (or_introl eq_refl)) as H1.
  pose proof (Hv [a21; a22] (or_intror (or_introl eq_refl))) as H2.
  simpl in H1, H2.
  assert (Ex : (a11 * a22 - a12 * a21) * x = 0).
  { replace ((a11 * a22 - a12 * a21) * x)
      with (a22 * (a11 * x + (a12 * y + 0)) - a12 * (a21 * x + (a22 * y + 0)))
      by ring.
    rewrite H1, H2. ring. }
  assert (Ey : (a11 * a22 - a12 * a21) * y = 0).
  { replace ((a11 * a22 - a12 * a21) * y)
      with (a11 * (a21 * x + (a22 * y + 0)) - a21 * (a11 * x + (a12 * y + 0)))
      by ring.
    rewrite H1, H2. ring. }
  apply Rmult_integral in Ex, Ey.
  destruct Ex as [Ex | ->]; [contradiction|].
  destruct Ey as [Ey | ->]; [contradiction|].
  reflexivity.
Qed.

(** The solve on a nonsingular system of two equations returns the
    solution of the system. *)
Lemma linalg_solve_2 a11 a12 a21 a22 b1 b2 y1 y2 :
  nonsingular [[a11; a12]; [a21; a22]] ->
  a11 * y1 + a12 * y2 = b1 -> a21 * y1 + a22 * y2 = b2 ->
  linalg_solve 1 [[a11; a12]; [a21; a22]] [[b1]; [b2]] = Ok [[y1]; [y2]].
Proof.
  intros Hns E1 E2.
  set (A := [[a11; a12]; [a21; a22]]) in *. set (B := [[b1]; [b2]]).
  assert (Hwf : well_formed 2 1 (combine A B)) by (repeat constructor).
  destruct (gauss_complete 2 1 (combine A B) Hwf eq_refl Hns) as [X G].
  unfold linalg_solve. change (List.length A) with 2%nat. rewrite G. f_equal.
  destruct (gauss_shape 2 1 _ X Hwf eq_refl G) as [LX RX].
  apply (solution_unique 2 1 A); auto; [repeat constructor|].
  intros r c Hr.
  assert (Hc : forall c' (u v : R), col (S c') [[u]; [v]] = [0; 0])
    by (intros c' u v; unfold col; simpl; now destruct c').
  destruct Hr as [<- | [<- | []]].
  - pose proof (gauss_sound 2 1 _ X Hwf eq_refl G ([a11; a12], [b1]) c
                  (or_introl eq_refl)) as Sd.
    cbn [fst snd] in Sd. rewrite Sd.
    destruct c as [|c]; [simpl; lra|].
    rewrite Hc. simpl. destruct c; ring.
  - pose proof (gauss_sound 2 1 _ X Hwf eq_refl G ([a21; a22], [b2]) c
                  (or_intror (or_introl eq_refl))) as Sd.
    cbn [fst snd] in Sd. rewrite Sd.
    destruct c as [|c]; [simpl; lra|].
    rewrite Hc. simpl. destruct c; ring.
Qed.

Lemma Rpower_below_one x y : 0 < x < 1 -> 0 < y -> Rpower x y < 1.
Proof.
  intros Hx Hy. unfold Rpower. rewrite <- exp_0. apply exp_increasing.
  assert (L : ln x < 0) by (rewrite <- ln_1; apply ln_increasing; lra).
  nra.
Qed.

Lemma Rpower_of_one e : Rpower 1 e = 1.
Proof. unfold Rpower. now rewrite ln_1, Rmult_0_r, exp_0. Qed.

Lemma Rpower_swap x y e :
  0 < x -> 0 < y -> Rpower (y / x) (- e) = Rpower (x / y) e.
Proof.
  intros Hx Hy. unfold Rpower. f_equal.
  unfold Rdiv. rewrite !ln_mult, !ln_Rinv; auto using Rinv_0_lt_compat.
  ring.
Qed.

(** The correlation of two profiles with one std, at the offsets
    [a <= b], in either order. *)
Lemma correlation_one_std a b s :
  0 < a -> a <= b ->
  power_function_correlation a s b s
  = (std_to_exp1 s + 1) * (std_to_exp1 s + 1) * Rpower (a / b) (std_to_exp1 s)
    / ((std_to_exp1 s + std_to_exp1 s + 1) * b)
  /\ power_function_correlation b s a s
     = (std_to_exp1 s + 1) * (std_to_exp1 s + 1) * Rpower (a / b) (std_to_exp1 s)
       / ((std_to_exp1 s + std_to_exp1 s + 1) * b).
Proof.
  intros Ha Hab. unfold power_function_correlation.
  set (e := std_to_exp1 s).
  destruct (Rlt_dec b a) as [C|_]; [lra|].
  rewrite (Rmax_left b a) by lra. rewrite (Rpower_swap a b e) by lra.
  split; [|reflexivity].
  rewrite (Rmax_right a b) by lra.
  destruct (Rlt_dec a b) as [L|L]; [reflexivity|].
  assert (E : a = b) by lra. subst b.
  replace (a / a) with 1 by (field; lra).
  now rewrite !Rpower_of_one.
Qed.

(** Two sources with one std at two different steps give a nonsingular
    correlation matrix. *)
Lemma two_steps_nonsingular t1 t2 s :
  0 < t1 < t2 -> 0 < s < 289 / 1000 ->
  nonsingular (correlation_table [t1; t2] [s; s] [t1; t2] [s; s]).
Proof.
  intros Ht Hs.
  pose proof (ExpFacts.exp_above_minus_half s Hs) as He.
  change (correlation_table [t1; t2] [s; s] [t1; t2] [s; s])
    with [[power_function_correlation t1 s t1 s;
           power_function_correlation t1 s t2 s];
          [power_function_correlation t2 s t1 s;
           power_function_correlation t2 s t2 s]].
  apply nonsingular_2.
  destruct (correlation_one_std t1 t1 s) as [-> _]; [lra | lra|].
  destruct (correlation_one_std t2 t2 s) as [-> _]; [lra | lra|].
  destruct (correlation_one_std t1 t2 s) as [-> ->]; [lra | lra|].
  replace (t1 / t1) with 1 by (field; lra).
  replace (t2 / t2) with 1 by (field; lra).
  rewrite Rpower_of_one.
  set (e := std_to_exp1 s) in *. set (rho := Rpower (t1 / t2) e).
  assert (Hr : rho * rho * (t1 / t2) < 1).
  { replace (rho * rho * (t1 / t2)) with (Rpower (t1 / t2) (e + e + 1)).
    - apply Rpower_below_one; [|lra].
      split; [apply Rdiv_lt_0_compat; lra|].
      apply (Rmult_lt_reg_r t2); [lra|].
      unfold Rdiv. rewrite Rmult_assoc, Rinv_l by lra. lra.
    - rewrite !Rpower_plus, Rpower_1; [reflexivity|].
      apply Rdiv_lt_0_compat; lra. }
  assert (Hr' : rho * rho * t1 < t2).
  { apply (Rmult_lt_compat_r t2) in Hr; [|lra].
    replace (rho * rho * (t1 / t2) * t2) with (rho * rho * t1) in Hr
      by (field; lra).
    lra. }
  apply Rgt_not_eq.
  replace ((e + 1) * (e + 1) * 1 / ((e + e + 1) * t1)
           * ((e + 1) * (e + 1) * 1 / ((e + e + 1) * t2))
           - (e + 1) * (e + 1) * rho / ((e + e + 1) * t2)
             * ((e + 1) * (e + 1) * rho / ((e + e + 1) * t2)))
    with ((e + 1) * (e + 1) * ((e + 1) * (e + 1))
          / ((e + e + 1) * (e + e + 1) * t1 * (t2 * t2))
          * (t2 - rho * rho * t1))
    by (field; repeat split; lra).
  apply Rmult_lt_0_compat; [|lra].
  apply Rdiv_lt_0_compat.
  - repeat apply Rmult_lt_0_compat; lra.
  - repeat apply Rmult_lt_0_compat; lra.
Qed.

(** With two sources of one std, the raw solution for a target of this
    std at the step of the later source or after it uses the later source
    only. *)
Lemma later_target_solution t1 t2 t3 s :
  0 < t1 < t2 -> t2 <= t3 -> 0 < s < 289 / 1000 ->
  linalg_solve 1 (correlation_table [t1; t2] [s; s] [t1; t2] [s; s])
    (correlation_table [t1; t2] [s; s] [t3] [s])
  = Ok [[0]; [Rpower (t2 / t3) (std_to_exp1 s) * (t2 / t3)]]
  /\ 0 < Rpower (t2 / t3) (std_to_exp1 s) * (t2 / t3).
Proof.
  intros Ht Ht3 Hs.
  pose proof (ExpFacts.exp_above_minus_half s Hs) as He.
  pose proof (two_steps_nonsingular t1 t2 s Ht Hs) as Hns.
  split.
  - change (correlation_table [t1; t2] [s; s] [t1; t2] [s; s])
      with [[power_function_correlation t1 s t1 s;
             power_function_correlation t1 s t2 s];
            [power_function_correlation t2 s t1 s;
             power_function_correlation t2 s t2 s]] in *.
    change (correlation_table [t1; t2] [s; s] [t3] [s])
      with [[power_function_correlation t1 s t3 s];
            [power_function_correlation t2 s t3 s]].
    apply linalg_solve_2; [exact Hns | |].
    + destruct (correlation_one_std t1 t2 s) as [-> _]; [lra | lra|].
      destruct (correlation_one_std t1 t3 s) as [-> _]; [lra | lra|].
      set (e := std_to_exp1 s) in *.
      replace (Rpower (t1 / t3) e)
        with (Rpower (t1 / t2) e * Rpower (t2 / t3) e).
      * field. repeat split; lra.
      * rewrite Rpower_mult_distr by (apply Rdiv_lt_0_compat; lra).
        f_equal. field. split; lra.
    + destruct (correlation_one_std t2 t2 s) as [-> _]; [lra | lra|].
      destruct (correlation_one_std t2 t3 s) as [-> _]; [lra | lra|].
      set (e := std_to_exp1 s) in *.
      replace (t2 / t2) with 1 by (field; lra).
      rewrite Rpower_of_one. field. repeat split; lra.
  - apply Rmult_lt_0_compat; [unfold Rpower; apply exp_pos|].
    apply Rdiv_lt_0_compat; lra.
Qed.

(** With two sources of one std [s] at the steps [t1 < t2], a positive
    exponent for [s], and a target at the step [t2] with any std [s'] of
    the range: the system is solved, and the raw coefficients have a
    positive sum. *)
Lemma latest_target_solution t1 t2 s s' :
  0 < t1 < t2 -> 0 < s < 289 / 1000 -> 0 < s' < 289 / 1000 ->
  0 < std_to_exp1 s ->
  exists x1 x2,
    linalg_solve 1 (correlation_table [t1; t2] [s; s] [t1; t2] [s; s])
      (correlation_table [t1; t2] [s; s] [t2] [s'])
    = Ok [[x1]; [x2]]
    /\ 0 < x1 + x2.
Proof.
  intros Ht Hs Hs' He.
  pose proof (ExpFacts.exp_above_minus_half s' Hs') as He'.
  pose proof (two_steps_nonsingular t1 t2 s Ht Hs) as Hns.
  change (correlation_table [t1; t2] [s; s] [t1; t2] [s; s])
    with [[power_function_correlation t1 s t1 s;
           power_function_correlation t1 s t2 s];
          [power_function_correlation t2 s t1 s;
           power_function_correlation t2 s t2 s]] in *.
  change (correlation_table [t1; t2] [s; s] [t2] [s'])
    with [[power_function_correlation t1 s t2 s'];
          [power_function_correlation t2 s t2 s']].
  assert (B1 : power_function_correlation t1 s t2 s'
               = (std_to_exp1 s + 1) * (std_to_exp1 s' + 1)
                 * Rpower (t1 / t2) (std_to_exp1 s')
                 / ((std_to_exp1 s + std_to_exp1 s' + 1) * t2)).
  { unfold power_function_correlation.
    destruct (Rlt_dec t1 t2) as [_|N]; [|lra].
    now rewrite Rmax_right by lra. }
  assert (B2 : power_function_correlation t2 s t2 s'
               = (std_to_exp1 s + 1) * (std_to_exp1 s' + 1)
                 / ((std_to_exp1 s + std_to_exp1 s' + 1) * t2)).
  { unfold power_function_correlation.
    destruct (Rlt_dec t2 t2) as [N|_]; [lra|].
    rewrite Rmax_left by lra.
    replace (t2 / t2) with 1 by (field; lra).
    rewrite Rpower_of_one. f_equal. ring. }
  destruct (correlation_one_std t1 t1 s) as [C11 _]; [lra | lra|].
  destruct (correlation_one_std t2 t2 s) as [C22 _]; [lra | lra|].
  destruct (correlation_one_std t1 t2 s) as [C12 C21]; [lra | lra|].
  replace (t1 / t1) with 1 in C11 by (field; lra).
  replace (t2 / t2) with 1 in C22 by (field; lra).
  rewrite Rpower_of_one in C11, C22.
  set (e := std_to_exp1 s) in *. set (e' := std_to_exp1 s') in *.
  set (rho := Rpower (t1 / t2) e) in *.
  set (sigma := Rpower (t1 / t2) e') in *.
  assert (Hratio : 0 < t1 / t2 < 1).
  { split; [apply Rdiv_lt_0_compat; lra|].
    apply (Rmult_lt_reg_r t2); [lra|].
    unfold Rdiv. rewrite Rmult_assoc, Rinv_l by lra. lra. }
  assert (Hrho : 0 < rho < 1).
  { split; [unfold rho, Rpower; apply exp_pos|].
    now apply Rpower_below_one. }
  assert (Hsigma : 0 < sigma) by (unfold sigma, Rpower; apply exp_pos).
  assert (Hrr : rho * rho < 1) by nra.
  assert (Hdet : 0 < t2 - rho * rho * t1) by nra.
  set (beta := (e' + 1) * (e + e + 1) / ((e + e' + 1) * (e + 1))).
  assert (Hbeta : 0 < beta).
  { unfold beta. apply Rdiv_lt_0_compat; apply Rmult_lt_0_compat; lra. }
  set (x1 := beta * (sigma - rho) * t1 / (t2 - rho * rho * t1)).
  exists x1, (beta - rho * x1). split.
  - apply linalg_solve_2; [exact Hns | |].
    + rewrite C11, C12, B1. unfold x1, beta. field. repeat split; lra.
    + rewrite C21, C22, B2. unfold x1, beta. field. repeat split; lra.
  - replace (x1 + (beta - rho * x1))
      with (beta * ((t2 - rho * t1) + sigma * t1 * (1 - rho))
            / (t2 - rho * rho * t1))
      by (unfold x1; field; lra).
    apply Rdiv_lt_0_compat; [|exact Hdet].
    apply Rmult_lt_0_compat; [exact Hbeta|].
    assert (0 < sigma * t1 * (1 - rho))
      by (repeat apply Rmult_lt_0_compat; lra).
    nra.
Qed.

(** The exponent of the std 0.1 is positive. *)
Lemma exp_positive_at_0_1 : 0 < std_to_exp1 (1 / 10).
Proof.
  rewrite ExpFacts.std_to_exp1_unfold.
  apply ExpFacts.largest_root_positive.
  apply ExpFacts.pow_minus_2_bound; lra.
Qed.

(** The coefficients for the sources (100, 0.1) and (500, 0.1) and a
    target at the step 500: two numbers that sum to 1. *)
Lemma solve_two_sources s' :
  0 < s' < 289 / 1000 ->
  exists c1 c2,
    solve_posthoc_coefficients [100; 500] [1 / 10; 1 / 10] [500] [s']
    = Ok [[c1]; [c2]]
    /\ c1 + c2 = 1.
Proof.
  intros Hs'.
  destruct (latest_target_solution 100 500 (1 / 10) s')
    as (x1 & x2 & Hsol & Hpos); [lra | lra | exact Hs' | |].
  { exact exp_positive_at_0_1. }
  exists (x1 / (x1 + x2)), (x2 / (x1 + x2)). split.
  - unfold solve_posthoc_coefficients. cbn [broadcast_arrays List.length
      Nat.eqb bind fst snd]. rewrite Hsol. cbn [bind].
    unfold normalize, col_sums. simpl. do 4 f_equal; field; lra.
  - field. lra.
Qed.

(** *** The claims *)

(** C1.  For source and target profiles with positive offsets and stds in
    (0, 0.289), after their broadcast: a nonsingular correlation matrix [A]
    makes the linear solve succeed; and whenever the solve succeeds with a
    raw solution that has no zero column sum,
    [solve_posthoc_coefficients] returns that solution normalized, a
    matrix of the same shape in which every column sums to 1. *)
Theorem coefficients_columns_sum_to_one in_ofs in_std out_ofs out_std ins outs :
  broadcast_arrays in_ofs in_std = Ok ins ->
  broadcast_arrays out_ofs out_std = Ok outs ->
  positive_offsets (fst ins) -> valid_stds (snd ins) ->
  positive_offsets (fst outs) -> valid_stds (snd outs) ->
  let A := correlation_table (fst ins) (snd ins) (fst ins) (snd ins) in
  let B := correlation_table (fst ins) (snd ins) (fst outs) (snd outs) in
  let k := List.length (fst outs) in
  (nonsingular A -> exists X, linalg_solve k A B = Ok X)
  /\ forall X,
       linalg_solve k A B = Ok X ->
       (forall j, (j < k)%nat -> nth j (col_sums k X) 0 <> 0) ->
       exists X',
         solve_posthoc_coefficients in_ofs in_std out_ofs out_std = Ok X'
         /\ X' = normalize k X
         /\ List.length X' = List.length (fst ins)
         /\ rows_of_length k X'
         /\ forall j, (j < k)%nat -> nth j (col_sums k X') 0 = 1.
Proof.
  intros Hin Hout _ _ _ _ A B k.
  pose proof (broadcast_arrays_length _ _ _ Hin) as Li.
  pose proof (broadcast_arrays_length _ _ _ Hout) as Lo.
  destruct (system_shape (fst ins) (snd ins) (fst outs) (snd outs) Li Lo)
    as (Hwf & Hlen & Hfst).
  fold A B k in Hwf, Hlen, Hfst.
  assert (LA : List.length A = List.length (fst ins))
    by (now apply correlation_table_length).
  split.
  - intros Hns. unfold linalg_solve.
    apply gauss_complete; auto.
    rewrite Hfst. exact Hns.
  - intros X HX Hsum.
    destruct (gauss_shape _ k _ X Hwf Hlen HX) as [LX RX].
    destruct (normalize_shape k X RX) as [LN RN].
    exists (normalize k X).
    split; [|split; [reflexivity | split; [congruence | split; [exact RN|]]]].
    + unfold solve_posthoc_coefficients. rewrite Hin, Hout. simpl.
      fold A B k. rewrite HX. reflexivity.
    + intros j Hj. apply normalize_col_sums; auto.
Qed.

(** The coefficients for a target that is the source [j]. *)
Lemma solve_exact_match in_ofs in_std ins j o s :
  broadcast_arrays in_ofs in_std = Ok ins ->
  nth_error (combine (fst ins) (snd ins)) j = Some (o, s) ->
  nonsingular (correlation_table (fst ins) (snd ins) (fst ins) (snd ins)) ->
  (j < List.length (fst ins))%nat
  /\ solve_posthoc_coefficients in_ofs in_std [o] [s]
     = Ok (unit_column (List.length (fst ins)) j).
Proof.
  intros Hin Hj Hns.
  pose proof (broadcast_arrays_length _ _ _ Hin) as Li.
  set (A := correlation_table (fst ins) (snd ins) (fst ins) (snd ins)) in *.
  assert (LA : List.length A = List.length (fst ins))
    by (now apply correlation_table_length).
  assert (RA : rows_of_length (List.length A) A).
  { rewrite LA. now apply correlation_table_rows. }
  assert (Lj : (j < List.length (fst ins))%nat).
  { assert (L : (j < List.length (combine (fst ins) (snd ins)))%nat)
      by (apply nth_error_Some; congruence).
    rewrite length_combine in L. lia. }
  split; [exact Lj|].
  unfold solve_posthoc_coefficients. rewrite Hin. simpl.
  rewrite (correlation_table_column _ _ j o s Hj). fold A.
  rewrite (linalg_solve_unit_column A j RA Hns). simpl.
  rewrite LA, normalize_unit_column by exact Lj. reflexivity.
Qed.

Lemma solve_single_source :
  solve_posthoc_coefficients [1] [1 / 10] [1] [1 / 10] = Ok [[1]].
Proof.
  apply (solve_exact_match [1] [1 / 10] ([1], [1 / 10]) 0 1 (1 / 10)).
  - reflexivity.
  - reflexivity.
  - apply nonsingular_1.
    apply Rgt_not_eq. apply self_correlation_positive; simpl; lra.
Qed.

(** C4.  For source profiles with positive offsets and stds in
    (0, 0.289): when the single target profile is the source profile [j]
    and the correlation matrix of the sources is nonsingular, the
    coefficients returned are 1 for the source [j] and 0 for every other
    source. *)
Theorem exact_match_coefficients in_ofs in_std ins j o s :
  broadcast_arrays in_ofs in_std = Ok ins ->
  positive_offsets (fst ins) -> valid_stds (snd ins) ->
  nth_error (combine (fst ins) (snd ins)) j = Some (o, s) ->
  nonsingular (correlation_table (fst ins) (snd ins) (fst ins) (snd ins)) ->
  exists X,
    solve_posthoc_coefficients in_ofs in_std [o] [s] = Ok X
    /\ List.length X = List.length (fst ins)
    /\ forall i, (i < List.length (fst ins))%nat ->
         nth i X [] = [if (i =? j)%nat then 1 else 0].
Proof.
  intros Hin _ _ Hj Hns.
  destruct (solve_exact_match in_ofs in_std ins j o s Hin Hj Hns) as [Lj H].
  exists (unit_column (List.length (fst ins)) j).
  split; [exact H|]. split.
  - apply unit_column_shape.
  - intros i Hi. now apply nth_unit_column.
Qed.

(** C4 for the two sources (100, 0.1) and (500, 0.1) and the target
    (500, 0.1): the coefficient of the first source is 0, that of the
    second is 1. *)
Lemma exact_match_coefficients_witness :
  exists X,
    solve_posthoc_coefficients [100; 500] [1 / 10; 1 / 10] [500] [1 / 10]
    = Ok X
    /\ nth 0 X [] = [0] /\ nth 1 X [] = [1].
Proof.
  destruct (exact_match_coefficients [100; 500] [1 / 10; 1 / 10]
              ([100; 500], [1 / 10; 1 / 10]) 1 500 (1 / 10))
    as (X & H & _ & E).
  - reflexivity.
  - repeat constructor; simpl; lra.
  - repeat constructor; simpl; lra.
  - reflexivity.
  - apply two_steps_nonsingular; lra.
  - exists X. split; [exact H|]. split.
    + apply (E 0%nat). simpl. lia.
    + apply (E 1%nat). simpl. lia.
Defined.

(** C1 for the two sources (100, 0.1) and (500, 0.1) and the target
    (500, 0.2): the system is solved, the raw solution has a positive
    column sum, and the coefficients returned sum to 1. *)
Lemma coefficients_columns_sum_to_one_witness :
  exists X',
    solve_posthoc_coefficients [100; 500] [1 / 10; 1 / 10] [500] [2 / 10]
    = Ok X'
    /\ List.length X' = 2%nat
    /\ forall j, (j < 1)%nat -> nth j (col_sums 1 X') 0 = 1.
Proof.
  destruct (latest_target_solution 100 500 (1 / 10) (2 / 10))
    as (x1 & x2 & Hsol & Hpos); [lra | lra | lra | |].
  { exact exp_positive_at_0_1. }
  destruct (coefficients_columns_sum_to_one
              [100; 500] [1 / 10; 1 / 10] [500] [2 / 10]
              ([100; 500], [1 / 10; 1 / 10]) ([500], [2 / 10])
              eq_refl eq_refl) as [_ H];
    try (repeat constructor; simpl; lra).
  destruct (H _ Hsol) as (X' & H1 & _ & H2 & _ & H3).
  - intros j Hj. cbn [fst List.length] in Hj.
    destruct j; [|lia]. simpl. lra.
  - exists X'. split; [exact H1|]. split; [exact H2 | exact H3].
Defined.

End SolverFacts.

(** ** The discovery of the checkpoints *)

Module DiscoveryFacts.

Import Recon.
Open Scope R_scope.

Lemma getitem_lt {A : Type} (l : list A) i d :
  (i < List.length l)%nat -> getitem l i = Ok (nth i l d).
Proof.
  intros H. unfold getitem.
  rewrite (nth_error_nth' l d H). reflexivity.
Qed.

Lemma getitem_ge {A : Type} (l : list A) i :
  (List.length l <= i)%nat ->
  getitem l i = Raise (IndexError "list index out of range").
Proof.
  intros H. unfold getitem.
  apply nth_error_None in H. now rewrite H.
Qed.

Lemma two_records_ok step stds name :
  (2 <= List.length stds)%nat ->
  two_records step stds name
    = Ok [(step, nth 0 stds 0, name); (step, nth 1 stds 0, name)].
Proof.
  intros H. unfold two_records.
  rewrite (getitem_lt stds 0 0), (getitem_lt stds 1 0) by lia. reflexivity.
Qed.

Lemma two_records_short step stds name :
  (List.length stds < 2)%nat ->
  two_records step stds name = Raise (IndexError "list index out of range").
Proof.
  intros H. unfold two_records.
  destruct stds as [|s0 [|s1 stds]]; simpl in *; try reflexivity. lia.
Qed.

(** The scan succeeds when no entry it loads is short of stds, with two
    records for each of them, in the order of the directory. *)
Lemma scan_ok entries : forall params,
  forallb (fun e => negb (short_stds e)) entries = true ->
  scan Absolute entries params = Ok (params ++ flat_map epoch_records entries).
Proof.
  induction entries as [|[name p] entries IH]; intros params H; simpl.
  - now rewrite app_nil_r.
  - simpl in H. apply andb_prop in H. destruct H as [H1 H2].
    unfold short_stds in H1. simpl in H1.
    destruct (re_match_epoch name) eqn:E; simpl in *.
    + apply negb_true_iff, Nat.ltb_ge in H1.
      rewrite two_records_ok by exact H1. simpl.
      rewrite IH by exact H2. now rewrite <- app_assoc.
    + now apply IH.
Qed.

(** The scan raises an index error at the first entry it loads that is
    short of stds. *)
Lemma scan_short entries : forall params,
  existsb short_stds entries = true ->
  scan Absolute entries params = Raise (IndexError "list index out of range").
Proof.
  induction entries as [|[name p] entries IH]; intros params H; simpl in *.
  - discriminate.
  - unfold short_stds in H at 1. simpl in H.
    destruct (re_match_epoch name) eqn:E; simpl in *.
    + destruct (List.length (cfg_ema_stds p) <? 2)%nat eqn:L; simpl in *.
      * apply Nat.ltb_lt in L. now rewrite two_records_short.
      * apply Nat.ltb_ge in L. rewrite two_records_ok by exact L. simpl.
        now apply IH.
    + now apply IH.
Qed.

Lemma existsb_forallb_negb {A : Type} (f : A -> bool) l :
  existsb f l = false -> forallb (fun x => negb (f x)) l = true.
Proof.
  induction l as [|x l IH]; simpl; [reflexivity|].
  intros H. apply orb_false_elim in H. destruct H as [-> H].
  simpl. now apply IH.
Qed.

(** A record of the scan never names [latest.ckpt]. *)
Lemma epoch_records_not_latest entries :
  count_latest (flat_map epoch_records entries) = 0%nat.
Proof.
  unfold count_latest.
  induction entries as [|[name p] entries IH]; simpl; [reflexivity|].
  rewrite filter_app, length_app, IH, Nat.add_0_r.
  destruct (re_match_epoch name) eqn:E; [|reflexivity].
  simpl. unfold rec_file. simpl.
  destruct (String.eqb_spec name "latest.ckpt") as [->|]; [|reflexivity].
  vm_compute in E. discriminate.
Qed.

(** A name [epoch_<N>.ckpt] matches the pattern. *)
Lemma digits_dot_ckpt_digits ds : forall seen,
  forallb PyFloat.is_digit ds = true ->
  (seen = true \/ ds <> []) ->
  digits_dot_ckpt (ds ++ list_ascii_of_string ".ckpt") seen = true.
Proof.
  induction ds as [|c ds IH]; intros seen Hd Hs.
  - destruct Hs as [-> | Hs]; [reflexivity | contradiction].
  - simpl in Hd. apply andb_prop in Hd. destruct Hd as [Hc Hd].
    change ((c :: ds) ++ list_ascii_of_string ".ckpt")
      with (c :: (ds ++ list_ascii_of_string ".ckpt")).
    cbn [digits_dot_ckpt]. rewrite Hc, (IH true Hd (or_introl eq_refl)).
    simpl. apply orb_true_r.
Qed.

Lemma re_match_epoch_name ds :
  ds <> [] -> forallb PyFloat.is_digit ds = true ->
  re_match_epoch (epoch_name ds) = true.
Proof.
  intros Hne Hd. unfold re_match_epoch, epoch_name.
  change ("epoch_" ++ string_of_list_ascii ds ++ ".ckpt")%string
    with (String "e" (String "p" (String "o" (String "c" (String "h"
            (String "_" (string_of_list_ascii ds ++ ".ckpt")))))))%string.
  cbn [list_ascii_of_string strip_prefix Ascii.eqb Bool.eqb].
  assert (E : list_ascii_of_string (string_of_list_ascii ds ++ ".ckpt")
              = ds ++ list_ascii_of_string ".ckpt").
  { clear. induction ds as [|c ds IH]; simpl; [reflexivity|]. now rewrite IH. }
  rewrite E. apply digits_dot_ckpt_digits; auto.
Qed.

(** What the scan returns, when it returns: the two records of each entry
    it has loaded, in the order of the directory. *)
Lemma scan_relative_inv doubled entries : forall params r,
  scan (Relative doubled) entries params = Ok r ->
  r = params ++ flat_map epoch_records (joined (Relative doubled) entries).
Proof.
  induction entries as [|[name p] entries IH]; intros params r H.
  - simpl in H. injection H as <-. simpl. now rewrite app_nil_r.
  - cbn [scan] in H. cbn [joined flat_map fst] in *.
    destruct (re_match_epoch name) eqn:E; cbn [negb] in H.
    + unfold open_joined, load in H.
      destruct (lookup doubled name) as [q|]; [|discriminate].
      cbn [bind] in H.
      destruct (Nat.lt_ge_cases (List.length (cfg_ema_stds q)) 2) as [L|L].
      * rewrite two_records_short in H by exact L. discriminate.
      * rewrite two_records_ok in H by exact L. cbn [bind] in H.
        rewrite (IH _ _ H). cbn [app flat_map].
        unfold epoch_records at 2. rewrite E.
        now rewrite <- !app_assoc.
    + simpl. now apply IH.
Qed.

Lemma scan_inv wd entries params r :
  scan wd entries params = Ok r ->
  r = params ++ flat_map epoch_records (joined wd entries).
Proof.
  destruct wd as [|doubled]; [|apply scan_relative_inv].
  cbn [joined]. intros H.
  destruct (existsb short_stds entries) eqn:E.
  - rewrite scan_short in H by exact E. discriminate.
  - rewrite scan_ok in H by (now apply existsb_forallb_negb).
    now injection H as <-.
Qed.

(** With a relative [workspace_dir], the first name that the pattern
    matches is looked for at the doubled path; when no file is there, the
    scan stops on it. *)
Lemma scan_relative_missing doubled pre name q post : forall params,
  forallb (fun e => negb (re_match_epoch (fst e))) pre = true ->
  re_match_epoch name = true ->
  lookup doubled name = None ->
  scan (Relative doubled) (pre ++ (name, q) :: post) params
  = Raise (FileNotFoundError name).
Proof.
  induction pre as [|[n p] pre IH]; intros params Hpre Hm Hl.
  - cbn [app scan]. rewrite Hm. cbn [negb].
    unfold open_joined, load. now rewrite Hl.
  - cbn [forallb fst] in Hpre. apply andb_prop in Hpre.
    destruct Hpre as [Hn Hpre].
    cbn [app scan]. rewrite Hn. now apply IH.
Qed.

(** C10.  With [latest.ckpt] present: every name [epoch_<N>.ckpt] matches
    the pattern of the scan.  For an absolute [workspace_dir]: when every
    checkpoint that the scan loads and [latest.ckpt] hold two stds at
    least, [params] is, in the order of the directory, the two records of
    each matching file, built from the entries 0 and 1 of its own list of
    stds (whatever follows them), and then the two records of
    [latest.ckpt]; and when one of these checkpoints holds fewer than two
    stds, the discovery raises an index error.  For a relative
    [workspace_dir], line 174 looks for the first matching file at the
    doubled path, and when no file is there the discovery stops with the
    error of the missing file: the file contributes no record. *)
Theorem discovery_two_records_per_checkpoint (dir : directory) (p : payload) :
  lookup dir "latest.ckpt" = Some p ->
  (forall ds, ds <> [] -> forallb PyFloat.is_digit ds = true ->
     forall q, epoch_records (epoch_name ds, q)
               = [(pickles_global_step q, nth 0 (cfg_ema_stds q) 0, epoch_name ds);
                  (pickles_global_step q, nth 1 (cfg_ema_stds q) 0, epoch_name ds)])
  /\ (existsb short_stds dir = false ->
      (2 <= List.length (cfg_ema_stds p))%nat ->
      main_params Absolute dir
        = Ok (load_payload new_workspace p,
              flat_map epoch_records dir
              ++ [(pickles_global_step p, nth 0 (cfg_ema_stds p) 0, "latest.ckpt"%string);
                  (pickles_global_step p, nth 1 (cfg_ema_stds p) 0, "latest.ckpt"%string)]))
  /\ (existsb short_stds dir = true \/ (List.length (cfg_ema_stds p) < 2)%nat ->
      main_params Absolute dir = Raise (IndexError "list index out of range"))
  /\ (forall doubled pre name q post,
        dir = pre ++ (name, q) :: post ->
        forallb (fun e => negb (re_match_epoch (fst e))) pre = true ->
        re_match_epoch name = true ->
        lookup doubled name = None ->
        main_params (Relative doubled) dir = Raise (FileNotFoundError name)).
Proof.
  intros Hl. split; [|split; [|split]].
  - intros ds Hne Hd q. unfold epoch_records.
    now rewrite re_match_epoch_name.
  - intros Hs Hp. unfold main_params. rewrite Hl.
    rewrite scan_ok by (now apply existsb_forallb_negb). simpl.
    rewrite two_records_ok by exact Hp. reflexivity.
  - intros H. unfold main_params. rewrite Hl.
    destruct (existsb short_stds dir) eqn:E.
    + now rewrite scan_short.
    + destruct H as [H | H]; [discriminate|].
      rewrite scan_ok by (now apply existsb_forallb_negb). simpl.
      now rewrite two_records_short.
  - intros doubled pre name q post Hd Hpre Hm Hn.
    unfold main_params. rewrite Hl. subst dir.
    now rewrite scan_relative_missing.
Qed.

Lemma main_params_example :
  main_params Absolute example_directory
  = Ok (load_payload new_workspace (example_payload 500 [5 / 100; 1 / 10]),
        [(100%Z, 5 / 100, "epoch_0100.ckpt"%string);
         (100%Z, 1 / 10, "epoch_0100.ckpt"%string);
         (500%Z, 5 / 100, "latest.ckpt"%string);
         (500%Z, 1 / 10, "latest.ckpt"%string)]).
Proof. reflexivity. Qed.

(** C10 on the example directory: under an absolute [workspace_dir] the
    third std of the epoch checkpoint is ignored; under a relative one
    without a doubled directory the epoch checkpoint is not found. *)
Lemma discovery_two_records_per_checkpoint_witness :
  main_params Absolute example_directory
  = Ok (load_payload new_workspace (example_payload 500 [5 / 100; 1 / 10]),
        [(100%Z, 5 / 100, "epoch_0100.ckpt"%string);
         (100%Z, 1 / 10, "epoch_0100.ckpt"%string);
         (500%Z, 5 / 100, "latest.ckpt"%string);
         (500%Z, 1 / 10, "latest.ckpt"%string)])
  /\ main_params (Relative []) example_directory
     = Raise (FileNotFoundError "epoch_0100.ckpt").
Proof.
  split.
  - refine (proj1 (proj2 (discovery_two_records_per_checkpoint
                            example_directory
                            (example_payload 500 [5 / 100; 1 / 10]) _)) _ _).
    + reflexivity.
    + reflexivity.
    + simpl. lia.
  - refine (proj2 (proj2 (proj2 (discovery_two_records_per_checkpoint
                            example_directory
                            (example_payload 500 [5 / 100; 1 / 10]) _)))
              [] [] "epoch_0100.ckpt"%string
              (example_payload 100 [5 / 100; 1 / 10; 2 / 10])
              [("latest.ckpt"%string, example_payload 500 [5 / 100; 1 / 10])]
              _ _ _ _); reflexivity.
Defined.

(** C7, as the code has it.  When [main] assembles the list, it is the
    records of the scan followed by exactly two records for [latest.ckpt],
    one for each of the first two stds saved in it; no record of the scan
    names [latest.ckpt], so exactly two records of the list do. *)
Theorem main_params_two_latest_records wd (dir : directory) ws params :
  main_params wd dir = Ok (ws, params) ->
  exists p,
    lookup dir "latest.ckpt" = Some p
    /\ params
       = flat_map epoch_records (joined wd dir)
         ++ [(pickles_global_step p, nth 0 (cfg_ema_stds p) 0, "latest.ckpt"%string);
             (pickles_global_step p, nth 1 (cfg_ema_stds p) 0, "latest.ckpt"%string)]
    /\ count_latest (flat_map epoch_records (joined wd dir)) = 0%nat
    /\ count_latest params = 2%nat.
Proof.
  intros H. unfold main_params in H.
  destruct (lookup dir "latest.ckpt") as [p|] eqn:Hl; [|discriminate].
  exists p. split; [reflexivity|].
  destruct (scan wd dir []) as [found|e] eqn:Hs; [|discriminate].
  apply scan_inv in Hs. cbn [app] in Hs. subst found. cbn [bind] in H.
  destruct (Nat.lt_ge_cases (List.length (cfg_ema_stds p)) 2) as [L|L].
  - rewrite two_records_short in H by exact L. discriminate.
  - rewrite two_records_ok in H by exact L. simpl in H.
    injection H as _ <-.
    split; [reflexivity|]. split; [apply epoch_records_not_latest|].
    unfold count_latest. rewrite filter_app, length_app.
    fold (count_latest (flat_map epoch_records (joined wd dir))).
    rewrite epoch_records_not_latest. reflexivity.
Qed.

(** C7 on the example directory. *)
Lemma main_params_two_latest_records_witness :
  exists p,
    lookup example_directory "latest.ckpt" = Some p
    /\ count_latest
         (flat_map epoch_records example_directory
          ++ [(pickles_global_step p, nth 0 (cfg_ema_stds p) 0, "latest.ckpt"%string);
              (pickles_global_step p, nth 1 (cfg_ema_stds p) 0, "latest.ckpt"%string)])
       = 2%nat.
Proof.
  destruct (main_params_two_latest_records Absolute example_directory _ _
              main_params_example)
    as (p & Hl & Hp & _ & Hc).
  exists p. split; [exact Hl|]. cbn [joined] in Hp. rewrite <- Hp. exact Hc.
Defined.

(** C7 as it is stated fails: on the example directory the list has two
    records with the source file [latest.ckpt], not one. *)
Lemma main_params_latest_twice :
  exists ws params,
    main_params Absolute example_directory = Ok (ws, params)
    /\ count_latest params = 2%nat
    /\ (count_latest params = 1%nat -> False).
Proof.
  eexists. eexists. split; [|split].
  - exact main_params_example.
  - reflexivity.
  - intros H. discriminate H.
Qed.

End DiscoveryFacts.

(** ** The reconstruction *)

Module RunnerFacts.

Import Numerics Recon.
Open Scope R_scope.

Lemma same_shape_refl ps : same_shape ps ps.
Proof. induction ps; constructor; auto. Qed.

Lemma same_shape_sym ps qs : same_shape ps qs -> same_shape qs ps.
Proof. induction 1; constructor; auto. Qed.

Lemma same_shape_trans ps qs rs :
  same_shape ps qs -> same_shape qs rs -> same_shape ps rs.
Proof.
  unfold same_shape. intros H. revert rs.
  induction H as [|p q ps qs Hpq H IH]; intros rs Hr; inversion Hr; subst.
  - constructor.
  - constructor; [congruence | now apply IH].
Qed.

Lemma element_nil p e : element [] p e = 0.
Proof. unfold element. destruct p, e; reflexivity. Qed.

Lemma element_cons_0 t ts e : element (t :: ts) 0 e = nth e t 0.
Proof. reflexivity. Qed.

Lemma element_cons_S t ts p e : element (t :: ts) (S p) e = element ts p e.
Proof. reflexivity. Qed.

Lemma add_scaled_spec p : forall q c,
  List.length p = List.length q ->
  exists r,
    add_scaled p q c = Ok r
    /\ List.length r = List.length p
    /\ forall e, nth e r 0 = nth e p 0 + nth e q 0 * c.
Proof.
  induction p as [|x p IH]; intros [|y q] c H; simpl in *; try discriminate.
  - exists []. repeat split. intros e. destruct e; simpl; ring.
  - destruct (IH q c) as (r & Hr & Lr & Er); [now injection H|].
    exists ((x + y * c) :: r). rewrite Hr. simpl.
    repeat split; [now rewrite Lr|].
    intros [|e]; [reflexivity | apply Er].
Qed.

Lemma accumulate_spec ps qs c :
  same_shape ps qs ->
  exists ps',
    accumulate ps qs c = Ok ps'
    /\ same_shape ps ps'
    /\ forall p e, element ps' p e = element ps p e + element qs p e * c.
Proof.
  induction 1 as [|p q ps qs Hpq H IH]; simpl.
  - exists []. repeat split; [constructor|].
    intros p e. rewrite element_nil. ring.
  - destruct (add_scaled_spec p q c Hpq) as (r & Hr & Lr & Er).
    destruct IH as (ps' & Hps & Sps & Eps).
    exists (r :: ps'). rewrite Hr. simpl. rewrite Hps. simpl.
    repeat split; [constructor; auto|].
    intros [|i] e.
    + rewrite !element_cons_0. apply Er.
    + rewrite !element_cons_S. apply Eps.
Qed.

Lemma zero_parameters ps :
  same_shape ps (map zero_ ps)
  /\ forall p e, element (map zero_ ps) p e = 0.
Proof.
  induction ps as [|t ps [IH1 IH2]]; simpl.
  - split; [constructor | intros; apply element_nil].
  - split.
    + constructor; [unfold zero_; now rewrite length_map | exact IH1].
    + intros [|p] e.
      * rewrite element_cons_0. unfold zero_.
        revert e. induction t as [|x t IHt]; intros [|e]; simpl; auto.
      * rewrite element_cons_S. apply IH2.
Qed.

(** The loop over the sources adds to [out] the weighted sum of the
    variants. *)
Lemma include_spec d params srcs :
  Forall2 (variant d) params srcs ->
  forall coef ws out,
    List.length coef = List.length params ->
    rows_of_length 1 coef ->
    Forall (fun m => same_shape (parameters out) (parameters m)) srcs ->
    exists ws' out',
      include d ws out params coef = Ok (ws', out')
      /\ buffers out' = buffers out
      /\ same_shape (parameters out) (parameters out')
      /\ forall p e,
           element (parameters out') p e
           = element (parameters out) p e
             + weighted_sum (map (fun c => nth 0 c 0) coef) srcs p e.
Proof.
  induction 1 as [|r m params srcs Hv HF IH]; intros coef ws out Hlen Hrows Hsh.
  - destruct coef; [|discriminate]. simpl.
    exists ws, out. repeat split; [apply same_shape_refl|].
    intros p e. unfold weighted_sum. simpl. ring.
  - destruct coef as [|c coef]; [discriminate|].
    inversion Hrows as [|? ? Hc Hrows']; subst.
    inversion Hsh as [|? ? Hm Hsh']; subst.
    destruct c as [|c0 [|? ?]]; try discriminate.
    destruct r as [[step std_in] file].
    destruct Hv as (p & idx & Hl & Hi & Hn).
    unfold rec_file, rec_std in Hl, Hi. simpl in Hl, Hi.
    destruct (accumulate_spec (parameters out) (parameters m) c0 Hm)
      as (ps' & Hacc & Sps & Eps).
    set (ws1 := load_payload
                  (mk_workspace (ema_load_state_dict (ema ws) (state_dicts_ema p))
                     (global_step ws) (ws_model ws)) p).
    destruct (IH coef ws1 (mk_model ps' (buffers out))) as (ws' & out' & Hinc & Hb & Ss & Es).
    + simpl in Hlen. now injection Hlen.
    + exact Hrows'.
    + simpl. rewrite Forall_forall in *. intros m' Hm'.
      apply same_shape_trans with (parameters out);
        [now apply same_shape_sym | now apply Hsh'].
    + exists ws', out'. cbn [include]. unfold load. rewrite Hl. cbn [bind].
      rewrite Hi. cbn [bind]. fold ws1.
      unfold getitem, ema_get, ws1, load_payload, ema_load_state_dict.
      cbn [ema]. rewrite Hn. cbn [bind scalar_of_row].
      rewrite Hacc. cbn [bind].
      split; [exact Hinc|]. split; [exact Hb|].
      split; [now apply same_shape_trans with ps'|].
      intros q e. rewrite Es. cbn [parameters]. rewrite Eps.
      unfold weighted_sum. simpl. ring.
Qed.

(** The coefficients are one row with one entry for each source. *)
Lemma coefficients_shape io is_ o s X :
  List.length io = List.length is_ ->
  solve_posthoc_coefficients io is_ [o] [s] = Ok X ->
  List.length X = List.length io /\ rows_of_length 1 X.
Proof.
  intros Hl H. unfold solve_posthoc_coefficients in H.
  assert (Hb : broadcast_arrays io is_ = Ok (io, is_)).
  { unfold broadcast_arrays. apply Nat.eqb_eq in Hl. now rewrite Hl. }
  rewrite Hb in H. simpl in H.
  destruct (linalg_solve 1 (correlation_table io is_ io is_)
              (correlation_table io is_ [o] [s])) as [Y|] eqn:G;
    simpl in H; [|discriminate].
  injection H as <-.
  destruct (SolverFacts.system_shape io is_ [o] [s] Hl eq_refl)
    as (Hwf & Hlen & _).
  destruct (SolverFacts.gauss_shape _ 1 _ Y Hwf Hlen G) as [LY RY].
  destruct (SolverFacts.normalize_shape 1 Y RY) as [LN RN].
  split; [|exact RN].
  rewrite LN, LY. now apply SolverFacts.correlation_table_length.
Qed.

(** C5.  For a runner built from the records [params], all with a positive
    step and a std in (0, 0.289), a workspace at a positive step, a std of
    the range for which the coefficients [coef] are solved, and the EMA
    variants [srcs] that the sorted records select in their checkpoints,
    all of the shape of the model of the workspace: the reconstruction
    returns a model of that shape, accumulated into parameters that were
    all set to zero, in which every element of every parameter tensor is
    the weighted sum [sum_i coef_i * srcs_i] of the corresponding
    elements. *)
Theorem reconstruct_weighted_sum params ws d std coef ema0 srcs :
  let self := init params ws d in
  Forall valid_record params ->
  (0 < global_step ws)%Z -> 0 < std < 289 / 1000 ->
  solve_posthoc_coefficients (steps self) (in_stds self) (latest self) [std]
    = Ok coef ->
  nth_error (averaged_models (ema ws)) 0 = Some ema0 ->
  Forall2 (variant d) (sorted_params self) srcs ->
  Forall (fun m => same_shape (parameters ema0) (parameters m)) srcs ->
  exists ws' out,
    reconstruct self std = Ok (coef, ws', out)
    /\ (forall p e, element (map zero_ (parameters ema0)) p e = 0)
    /\ same_shape (parameters ema0) (parameters out)
    /\ buffers out = buffers ema0
    /\ forall p e,
         element (parameters out) p e
         = weighted_sum (map (fun c => nth 0 c 0) coef) srcs p e.
Proof.
  intros self _ _ _ Hsolve Hema Hv Hsh.
  destruct (zero_parameters (parameters ema0)) as [Sz Ez].
  unfold self, init in Hsolve, Hv.
  cbn [steps in_stds latest sorted_params] in Hsolve, Hv.
  set (sp := sorted params) in *.
  assert (Hl : List.length (map (fun x => IZR (rec_step x)) sp)
               = List.length (map rec_std sp))
    by (now rewrite !length_map).
  destruct (coefficients_shape (map (fun x => IZR (rec_step x)) sp)
              (map rec_std sp) (IZR (global_step ws)) std coef Hl Hsolve)
    as [Lc Rc].
  rewrite length_map in Lc.
  destruct (include_spec d sp srcs Hv coef ws
              (mk_model (map zero_ (parameters ema0)) (buffers ema0))
              Lc Rc)
    as (ws' & out & Hinc & Hb & Ss & Es).
  - cbn [parameters]. rewrite Forall_forall in *. intros m Hm.
    apply same_shape_trans with (parameters ema0);
      [now apply same_shape_sym | now apply Hsh].
  - exists ws', out. split; [|split; [exact Ez | split; [|split]]].
    + unfold reconstruct, self, init.
      cbn [steps in_stds latest sorted_params checkpoint_dir runner_workspace].
      fold sp. rewrite Hsolve. cbn [bind].
      unfold getitem, ema_get. rewrite Hema. cbn [bind].
      rewrite Hinc. reflexivity.
    + now apply same_shape_trans with (map zero_ (parameters ema0)).
    + exact Hb.
    + intros p e. rewrite Es. cbn [parameters]. rewrite Ez. ring.
Qed.

(** The records of the example, sorted, and the variants they select. *)
Lemma example_pair_sorted :
  sorted example_pair_params
  = [(100%Z, 1 / 10, "epoch_0100.ckpt"%string);
     (500%Z, 1 / 10, "latest.ckpt"%string)].
Proof. reflexivity. Qed.

Lemma index_first x l : index (x :: l) x = Ok 0%nat.
Proof.
  simpl. destruct (Req_dec_T x x) as [_|N]; [reflexivity | now contradiction N].
Qed.

Lemma example_pair_variants :
  Forall2 (variant example_pair_store)
    [(100%Z, 1 / 10, "epoch_0100.ckpt"%string);
     (500%Z, 1 / 10, "latest.ckpt"%string)]
    [mk_model [[2; 3]] []; mk_model [[4; 7]] []].
Proof.
  constructor; [|constructor; [|constructor]].
  - exists example_early, 0%nat. split; [reflexivity|].
    split; [apply index_first | reflexivity].
  - exists example_late, 0%nat. split; [reflexivity|].
    split; [apply index_first | reflexivity].
Qed.

(** C5 on the example runner, called with the std 0.2: two sources, with
    coefficients that sum to 1, and each element of the result is the sum
    of the two products. *)
Lemma reconstruct_weighted_sum_witness :
  exists c1 c2 ws' out,
    reconstruct example_pair_runner (2 / 10) = Ok ([[c1]; [c2]], ws', out)
    /\ c1 + c2 = 1
    /\ element (parameters out) 0 0 = c1 * 2 + c2 * 4
    /\ element (parameters out) 0 1 = c1 * 3 + c2 * 7.
Proof.
  destruct (SolverFacts.solve_two_sources (2 / 10)) as (c1 & c2 & Hs & Hc);
    [lra|].
  destruct (reconstruct_weighted_sum example_pair_params
              (load_payload new_workspace example_late) example_pair_store
              (2 / 10) [[c1]; [c2]] (mk_model [[4; 7]] [])
              [mk_model [[2; 3]] []; mk_model [[4; 7]] []])
    as (ws' & out & H & _ & _ & _ & E).
  - repeat constructor; unfold rec_step, rec_std; simpl; lra.
  - reflexivity.
  - lra.
  - unfold init. cbn [steps in_stds latest]. rewrite example_pair_sorted.
    exact Hs.
  - reflexivity.
  - unfold init. cbn [sorted_params]. rewrite example_pair_sorted.
    exact example_pair_variants.
  - repeat constructor.
  - exists c1, c2, ws', out. split; [exact H|]. split; [exact Hc|].
    split; rewrite E; unfold weighted_sum, element; simpl; ring.
Defined.

End RunnerFacts.

(** ** More on the exponent and the correlation *)

Module ExpExtra.

Import Numerics ExpFacts.
Open Scope R_scope.

Lemma cubic_shape t x :
  cubic t x = (x + 2) * (x + 2) * (x + 3) - t * (x + 1).
Proof. unfold cubic. ring. Qed.

Lemma std_to_exp1_root std :
  0 < std < 289 / 1000 ->
  cubic (pow_minus_2 std) (std_to_exp1 std) = 0
  /\ -1 / 2 < std_to_exp1 std
  /\ forall x, -1 / 2 < x -> cubic (pow_minus_2 std) x = 0 ->
       x = std_to_exp1 std.
Proof.
  intros Hstd. rewrite std_to_exp1_unfold.
  destruct (max_real_root_spec _ (pow_minus_2_range std Hstd))
    as (_ & a & b & Ha & Hb & Hc & F).
  split; [rewrite F; ring|]. split; [exact Hc|].
  intros x Hx Z. rewrite F in Z.
  apply Rmult_integral in Z. destruct Z as [Z | Z]; [|lra].
  apply Rmult_integral in Z. destruct Z; lra.
Qed.

(** X4.  [std_to_exp] inverts the formula that gives the relative standard
    deviation of a power-function profile from its exponent: for a std in
    (0, 0.289) the exponent [e] returned satisfies
    [std^2 = (e + 1) / ((e + 2)^2 (e + 3))], and it is the only exponent
    above -1/2 that does. *)
Theorem std_to_exp_inverts_std_formula std :
  0 < std < 289 / 1000 ->
  let e := std_to_exp1 std in
  std * std = (e + 1) / ((e + 2) * (e + 2) * (e + 3))
  /\ forall e', -1 / 2 < e' ->
       std * std = (e' + 1) / ((e' + 2) * (e' + 2) * (e' + 3)) ->
       e' = e.
Proof.
  intros Hstd e.
  destruct (std_to_exp1_root std Hstd) as (Z & He & U). fold e in Z, He, U.
  assert (Hu : 0 < std * std) by (apply Rmult_lt_0_compat; lra).
  assert (Ht : pow_minus_2 std * (std * std) = 1)
    by (unfold pow_minus_2; field; lra).
  assert (P : forall x, -1 / 2 < x -> 0 < (x + 2) * (x + 2) * (x + 3))
    by (intros x Hx; repeat apply Rmult_lt_0_compat; lra).
  split.
  - rewrite cubic_shape in Z.
    set (D := (e + 2) * (e + 2) * (e + 3)) in *.
    assert (HD : D <> 0) by (apply Rgt_not_eq, P, He).
    assert (E : D * (std * std) = e + 1).
    { replace D with (pow_minus_2 std * (e + 1)) by lra.
      transitivity (pow_minus_2 std * (std * std) * (e + 1)); [ring|].
      rewrite Ht. ring. }
    rewrite <- E. field. exact HD.
  - intros e' He' E. apply U; [exact He'|].
    rewrite cubic_shape.
    assert (E' : std * std * ((e' + 2) * (e' + 2) * (e' + 3)) = e' + 1).
    { rewrite E. field. split; lra. }
    replace ((e' + 2) * (e' + 2) * (e' + 3))
      with (pow_minus_2 std * (std * std) * ((e' + 2) * (e' + 2) * (e' + 3)))
      by (rewrite Ht; ring).
    rewrite Rmult_assoc, E'. ring.
Qed.

(** The formula at the std 0.1. *)
Lemma std_to_exp_inverts_std_formula_witness :
  1 / 10 * (1 / 10)
  = (std_to_exp1 (1 / 10) + 1)
    / ((std_to_exp1 (1 / 10) + 2) * (std_to_exp1 (1 / 10) + 2)
       * (std_to_exp1 (1 / 10) + 3)).
Proof.
  refine (proj1 (std_to_exp_inverts_std_formula (1 / 10) _)). lra.
Defined.

Lemma Rpower_ratio_swap x y e :
  0 < x -> 0 < y -> Rpower (x / y) e = Rpower (y / x) (- e).
Proof.
  intros Hx Hy. unfold Rpower. f_equal.
  unfold Rdiv. rewrite !ln_mult, !ln_Rinv; auto using Rinv_0_lt_compat.
  ring.
Qed.

Lemma Rpower_one e : Rpower 1 e = 1.
Proof. unfold Rpower. now rewrite ln_1, Rmult_0_r, exp_0. Qed.

(** X5.  The correlation is symmetric in its two profiles, for positive
    offsets: the exponent of the ratio depends on which offset is the
    smaller, but the value does not depend on the order of the arguments. *)
Theorem power_function_correlation_symmetric a_ofs a_std b_ofs b_std :
  0 < a_ofs -> 0 < b_ofs ->
  power_function_correlation a_ofs a_std b_ofs b_std
  = power_function_correlation b_ofs b_std a_ofs a_std.
Proof.
  intros Ha Hb. unfold power_function_correlation.
  set (ea := std_to_exp1 a_std). set (eb := std_to_exp1 b_std).
  destruct (Rlt_dec a_ofs b_ofs) as [L|L];
    destruct (Rlt_dec b_ofs a_ofs) as [G|G]; try lra.
  - rewrite (Rpower_ratio_swap a_ofs b_ofs eb Ha Hb).
    rewrite Rmax_right, Rmax_left by lra.
    f_equal; ring.
  - rewrite (Rpower_ratio_swap a_ofs b_ofs (- ea) Ha Hb), Ropp_involutive.
    rewrite Rmax_left, Rmax_right by lra.
    f_equal; ring.
  - assert (E : a_ofs = b_ofs) by lra. subst b_ofs.
    replace (a_ofs / a_ofs) with 1 by (field; lra).
    rewrite !Rpower_one. f_equal; ring.
Qed.

(** The symmetry at the offsets 100 and 500. *)
Lemma power_function_correlation_symmetric_witness :
  power_function_correlation 100 (5 / 100) 500 (1 / 10)
  = power_function_correlation 500 (1 / 10) 100 (5 / 100).
Proof.
  apply power_function_correlation_symmetric; lra.
Defined.

(** X6.  The correlation of two profiles with positive offsets and stds in
    (0, 0.289) is positive. *)
Theorem power_function_correlation_positive a_ofs a_std b_ofs b_std :
  0 < a_ofs -> 0 < b_ofs ->
  0 < a_std < 289 / 1000 -> 0 < b_std < 289 / 1000 ->
  0 < power_function_correlation a_ofs a_std b_ofs b_std.
Proof.
  intros Ha Hb Hsa Hsb. unfold power_function_correlation.
  pose proof (exp_above_minus_half a_std Hsa) as Ea.
  pose proof (exp_above_minus_half b_std Hsb) as Eb.
  apply Rdiv_lt_0_compat.
  - apply Rmult_lt_0_compat; [apply Rmult_lt_0_compat; lra|].
    unfold Rpower. apply exp_pos.
  - apply Rmult_lt_0_compat; [lra|].
    unfold Rmax. destruct Rle_dec; lra.
Qed.

Lemma power_function_correlation_positive_witness :
  0 < power_function_correlation 100 (5 / 100) 500 (1 / 10).
Proof.
  apply power_function_correlation_positive; lra.
Defined.

Lemma correlation_scaled c a_ofs a_std b_ofs b_std :
  0 < c -> 0 < a_ofs -> 0 < b_ofs ->
  0 < a_std < 289 / 1000 -> 0 < b_std < 289 / 1000 ->
  power_function_correlation (c * a_ofs) a_std (c * b_ofs) b_std
  = / c * power_function_correlation a_ofs a_std b_ofs b_std.
Proof.
  intros Hc Ha Hb Hsa Hsb. unfold power_function_correlation.
  pose proof (exp_above_minus_half a_std Hsa) as Ea.
  pose proof (exp_above_minus_half b_std Hsb) as Eb.
  set (ea := std_to_exp1 a_std) in *. set (eb := std_to_exp1 b_std) in *.
  replace (c * a_ofs / (c * b_ofs)) with (a_ofs / b_ofs) by (field; lra).
  assert (M : Rmax (c * a_ofs) (c * b_ofs) = c * Rmax a_ofs b_ofs)
    by (apply RmaxRmult; lra).
  assert (Mp : 0 < Rmax a_ofs b_ofs) by (unfold Rmax; destruct Rle_dec; lra).
  rewrite M.
  assert (T : (if Rlt_dec (c * a_ofs) (c * b_ofs) then eb else - ea)
              = (if Rlt_dec a_ofs b_ofs then eb else - ea)).
  { destruct (Rlt_dec (c * a_ofs) (c * b_ofs)) as [L|L];
      destruct (Rlt_dec a_ofs b_ofs) as [L'|L']; try reflexivity; exfalso.
    - apply L'. apply Rmult_lt_reg_l with c; assumption.
    - apply L. apply Rmult_lt_compat_l; assumption. }
  rewrite T. field. split; [lra|]. split; lra.
Qed.

(** X7.  Scaling both offsets by a positive factor divides the correlation by
    that factor: only the ratio of the offsets and the larger offset enter. *)
Theorem power_function_correlation_scaling c a_ofs a_std b_ofs b_std :
  0 < c -> 0 < a_ofs -> 0 < b_ofs ->
  0 < a_std < 289 / 1000 -> 0 < b_std < 289 / 1000 ->
  power_function_correlation (c * a_ofs) a_std (c * b_ofs) b_std
  = power_function_correlation a_ofs a_std b_ofs b_std / c.
Proof.
  intros Hc Ha Hb Hsa Hsb.
  rewrite correlation_scaled by assumption. unfold Rdiv. ring.
Qed.

Lemma power_function_correlation_scaling_witness :
  power_function_correlation (2 * 100) (5 / 100) (2 * 500) (1 / 10)
  = power_function_correlation 100 (5 / 100) 500 (1 / 10) / 2.
Proof.
  apply power_function_correlation_scaling; lra.
Defined.

End ExpExtra.

(** ** The unit of the offsets *)

Module ScaleFacts.

Import Numerics ExtraDefs SolverFacts.
Open Scope R_scope.

Lemma vscale_vadd l u : forall v,
  vscale l (vadd u v) = vadd (vscale l u) (vscale l v).
Proof.
  induction u as [|x u IH]; intros [|y v]; simpl; try reflexivity.
  f_equal; [ring | apply IH].
Qed.

Lemma vscale_vscale a b v : vscale a (vscale b v) = vscale (a * b) v.
Proof.
  unfold vscale. rewrite map_map. apply map_ext. intros x. ring.
Qed.

Lemma vscale_vsub l u v :
  vscale l (vsub u v) = vsub (vscale l u) (vscale l v).
Proof.
  unfold vsub. rewrite vscale_vadd, !vscale_vscale.
  f_equal. f_equal. ring.
Qed.

Lemma vscale_zeros l k : vscale l (zeros k) = zeros k.
Proof.
  unfold zeros. induction k as [|k IH]; simpl; [reflexivity|].
  f_equal; [ring | exact IH].
Qed.

Lemma lincomb_vscale l k cs : forall X,
  lincomb k (vscale l cs) X = vscale l (lincomb k cs X).
Proof.
  induction cs as [|c cs IH]; intros [|x X]; simpl;
    try (symmetry; apply vscale_zeros).
  rewrite vscale_vadd, IH, !vscale_vscale. reflexivity.
Qed.

Lemma tl_vscale l v : tl (vscale l v) = vscale l (tl v).
Proof. destruct v; reflexivity. Qed.

Lemma lead_scale l e : lead (scale_equation l e) = l * lead e.
Proof.
  unfold lead, scale_equation. simpl.
  destruct (fst e); simpl; ring.
Qed.

Lemma eliminate_scale l p e :
  l <> 0 -> lead p <> 0 ->
  eliminate (scale_equation l p) (scale_equation l e)
  = scale_equation l (eliminate p e).
Proof.
  intros Hl Hp. unfold eliminate. rewrite !lead_scale.
  replace (l * lead e / (l * lead p)) with (lead e / lead p) by (field; auto).
  unfold scale_equation. simpl.
  rewrite !tl_vscale, !vscale_vsub, !vscale_vscale.
  f_equal; f_equal; f_equal; ring.
Qed.

Lemma select_pivot_scale l eqs :
  0 < l ->
  select_pivot (map (scale_equation l) eqs)
  = match select_pivot eqs with
    | Some (p, others) =>
        Some (scale_equation l p, map (scale_equation l) others)
    | None => None
    end.
Proof.
  intros Hl. induction eqs as [|e eqs IH]; simpl; [reflexivity|].
  rewrite IH. destruct (select_pivot eqs) as [[p others]|]; [|reflexivity].
  rewrite !lead_scale, !Rabs_mult, (Rabs_pos_eq l) by lra.
  destruct (Rle_dec (Rabs (lead p)) (Rabs (lead e))) as [L|L];
    destruct (Rle_dec (l * Rabs (lead p)) (l * Rabs (lead e))) as [L'|L'];
    try reflexivity; exfalso.
  - apply L'. apply Rmult_le_compat_l; lra.
  - apply L. apply Rmult_le_reg_l with l; assumption.
Qed.

(** Multiplying every equation by a positive number does not change what
    the elimination returns. *)
Lemma gauss_scale l n : forall k eqs,
  0 < l ->
  gauss n k (map (scale_equation l) eqs) = gauss n k eqs.
Proof.
  induction n as [|n IH]; intros k eqs Hl; simpl; [reflexivity|].
  rewrite select_pivot_scale by exact Hl.
  destruct (select_pivot eqs) as [[p others]|]; [|reflexivity].
  rewrite lead_scale.
  destruct (Req_dec_T (lead p) 0) as [Z|Z];
    destruct (Req_dec_T (l * lead p) 0) as [Z'|Z']; try reflexivity.
  - exfalso. apply Z'. rewrite Z. ring.
  - exfalso. apply Rmult_integral in Z'. destruct Z'; [lra | contradiction].
  - assert (E : map (eliminate (scale_equation l p)) (map (scale_equation l) others)
                = map (scale_equation l) (map (eliminate p) others)).
    { rewrite !map_map. apply map_ext. intros e.
      apply eliminate_scale; [lra | exact Z]. }
    rewrite E, IH by exact Hl.
    destruct (gauss n k (map (eliminate p) others)) as [X'|err];
      [|reflexivity].
    simpl. do 2 f_equal.
    rewrite tl_vscale, lincomb_vscale, <- vscale_vsub, vscale_vscale.
    f_equal. field. split; [exact Z | lra].
Qed.

Lemma combine_scale l : forall A B : matrix,
  combine (map (vscale l) A) (map (vscale l) B)
  = map (scale_equation l) (combine A B).
Proof.
  induction A as [|r A IH]; intros [|b B]; simpl; try reflexivity.
  now rewrite IH.
Qed.

Lemma combine_scaled_offsets c : forall ofs stds : list R,
  combine (map (Rmult c) ofs) stds
  = map (fun p => (c * fst p, snd p)) (combine ofs stds).
Proof.
  induction ofs as [|o ofs IH]; intros [|s stds]; simpl; try reflexivity.
  now rewrite IH.
Qed.

Lemma in_combine_valid ofs stds p :
  positive_offsets ofs -> valid_stds stds ->
  In p (combine ofs stds) -> 0 < fst p /\ 0 < snd p < 289 / 1000.
Proof.
  intros Ho Hs Hp. destruct p as [o s].
  unfold positive_offsets, valid_stds in *. rewrite Forall_forall in *.
  split; [apply Ho; eapply in_combine_l; exact Hp
         | apply Hs; eapply in_combine_r; exact Hp].
Qed.

Lemma correlation_table_scaled c a_ofs a_std b_ofs b_std :
  0 < c ->
  positive_offsets a_ofs -> valid_stds a_std ->
  positive_offsets b_ofs -> valid_stds b_std ->
  correlation_table (map (Rmult c) a_ofs) a_std (map (Rmult c) b_ofs) b_std
  = map (vscale (/ c)) (correlation_table a_ofs a_std b_ofs b_std).
Proof.
  intros Hc Hao Has Hbo Hbs. unfold correlation_table.
  rewrite !combine_scaled_offsets, !map_map.
  apply map_ext_in. intros a Ha.
  unfold vscale. rewrite !map_map. apply map_ext_in. intros b Hb. simpl.
  destruct (in_combine_valid _ _ a Hao Has Ha) as [A1 A2].
  destruct (in_combine_valid _ _ b Hbo Hbs Hb) as [B1 B2].
  now apply ExpExtra.correlation_scaled.
Qed.

Lemma broadcast_arrays_scaled c x y ins :
  broadcast_arrays x y = Ok ins ->
  broadcast_arrays (map (Rmult c) x) y = Ok (map (Rmult c) (fst ins), snd ins).
Proof.
  unfold broadcast_arrays. rewrite !length_map.
  destruct (List.length x =? List.length y)%nat.
  - intros H. now injection H as <-.
  - destruct (List.length x =? 1)%nat eqn:E.
    + intros H. injection H as <-. simpl. f_equal. f_equal.
      destruct x as [|x0 [|x1 x]]; try discriminate. simpl.
      clear. induction (List.length y) as [|m IH]; simpl; [reflexivity|].
      now rewrite IH.
    + destruct (List.length y =? 1)%nat; [|discriminate].
      intros H. now injection H as <-.
Qed.

Lemma broadcast_arrays_members x y ins :
  broadcast_arrays x y = Ok ins ->
  (forall a, In a (fst ins) -> In a x)
  /\ (forall b, In b (snd ins) -> In b y).
Proof.
  unfold broadcast_arrays.
  destruct (List.length x =? List.length y)%nat.
  - intros H. injection H as <-. simpl. auto.
  - destruct (List.length x =? 1)%nat eqn:E.
    + intros H. injection H as <-. simpl. split; [|auto].
      intros a Ha. apply repeat_spec in Ha. subst a.
      destruct x as [|x0 x]; [discriminate | now left].
    + destruct (List.length y =? 1)%nat eqn:E'; [|discriminate].
      intros H. injection H as <-. simpl. split; [auto|].
      intros b Hb. apply repeat_spec in Hb. subst b.
      destruct y as [|y0 y]; [discriminate | now left].
Qed.

(** In the model, scaling the offsets changes nothing of the result. *)
Lemma solve_scaled c in_ofs in_std out_ofs out_std :
  0 < c ->
  positive_offsets in_ofs -> valid_stds in_std ->
  positive_offsets out_ofs -> valid_stds out_std ->
  solve_posthoc_coefficients (map (Rmult c) in_ofs) in_std
    (map (Rmult c) out_ofs) out_std
  = solve_posthoc_coefficients in_ofs in_std out_ofs out_std.
Proof.
  intros Hc Hio His Hoo Hos. unfold solve_posthoc_coefficients.
  destruct (broadcast_arrays in_ofs in_std) as [ins|e] eqn:Bi.
  - rewrite (broadcast_arrays_scaled c _ _ _ Bi). simpl.
    destruct (broadcast_arrays out_ofs out_std) as [outs|e] eqn:Bo.
    + rewrite (broadcast_arrays_scaled c _ _ _ Bo). simpl.
      destruct (broadcast_arrays_members _ _ _ Bi) as [M1 M2].
      destruct (broadcast_arrays_members _ _ _ Bo) as [M3 M4].
      assert (P1 : positive_offsets (fst ins)).
      { unfold positive_offsets in *. rewrite Forall_forall in *. auto. }
      assert (P2 : valid_stds (snd ins)).
      { unfold valid_stds in *. rewrite Forall_forall in *. auto. }
      assert (P3 : positive_offsets (fst outs)).
      { unfold positive_offsets in *. rewrite Forall_forall in *. auto. }
      assert (P4 : valid_stds (snd outs)).
      { unfold valid_stds in *. rewrite Forall_forall in *. auto. }
      rewrite !correlation_table_scaled by assumption.
      rewrite length_map.
      unfold linalg_solve. rewrite length_map, combine_scale.
      rewrite gauss_scale by (now apply Rinv_0_lt_compat).
      reflexivity.
    + unfold broadcast_arrays in *. rewrite !length_map.
      destruct (List.length out_ofs =? List.length out_std)%nat; [discriminate|].
      destruct (List.length out_ofs =? 1)%nat; [discriminate|].
      destruct (List.length out_std =? 1)%nat; [discriminate|].
      simpl. now injection Bo as <-.
  - unfold broadcast_arrays in *. rewrite !length_map.
    destruct (List.length in_ofs =? List.length in_std)%nat; [discriminate|].
    destruct (List.length in_ofs =? 1)%nat; [discriminate|].
    destruct (List.length in_std =? 1)%nat; [discriminate|].
    simpl. now injection Bi as <-.
Qed.

(** X8.  The coefficients do not depend on the unit of the offsets: for
    positive offsets, stds in (0, 0.289) and a nonsingular correlation
    matrix of the sources, [solve_posthoc_coefficients] returns
    coefficients, and it returns the same ones when the offsets of all the
    sources and of all the targets are multiplied by one positive
    factor. *)
Theorem coefficients_scale_invariant c in_ofs in_std out_ofs out_std ins outs :
  0 < c ->
  positive_offsets in_ofs -> valid_stds in_std ->
  positive_offsets out_ofs -> valid_stds out_std ->
  broadcast_arrays in_ofs in_std = Ok ins ->
  broadcast_arrays out_ofs out_std = Ok outs ->
  nonsingular (correlation_table (fst ins) (snd ins) (fst ins) (snd ins)) ->
  exists X,
    solve_posthoc_coefficients in_ofs in_std out_ofs out_std = Ok X
    /\ solve_posthoc_coefficients (map (Rmult c) in_ofs) in_std
         (map (Rmult c) out_ofs) out_std = Ok X.
Proof.
  intros Hc Hio His Hoo Hos Bi Bo Hns.
  rewrite (solve_scaled c) by assumption.
  pose proof (broadcast_arrays_length _ _ _ Bi) as Li.
  pose proof (broadcast_arrays_length _ _ _ Bo) as Lo.
  destruct (system_shape (fst ins) (snd ins) (fst outs) (snd outs) Li Lo)
    as (Hwf & Hlen & Hfst).
  destruct (gauss_complete _ _ _ Hwf Hlen) as [X G];
    [rewrite Hfst; exact Hns|].
  exists (normalize (List.length (fst outs)) X).
  assert (E : solve_posthoc_coefficients in_ofs in_std out_ofs out_std
              = Ok (normalize (List.length (fst outs)) X)).
  { unfold solve_posthoc_coefficients. rewrite Bi, Bo. cbn [bind].
    unfold linalg_solve. rewrite G. reflexivity. }
  split; exact E.
Qed.

(** The invariance for the sources (100, 0.1) and (500, 0.1) and the
    target (500, 0.2), with the steps counted in thousands. *)
Lemma coefficients_scale_invariant_witness :
  exists X,
    solve_posthoc_coefficients [100; 500] [1 / 10; 1 / 10] [500] [2 / 10]
    = Ok X
    /\ solve_posthoc_coefficients
         (map (Rmult (1 / 1000)) [100; 500]) [1 / 10; 1 / 10]
         (map (Rmult (1 / 1000)) [500]) [2 / 10] = Ok X.
Proof.
  apply (coefficients_scale_invariant (1 / 1000)
           [100; 500] [1 / 10; 1 / 10] [500] [2 / 10]
           ([100; 500], [1 / 10; 1 / 10]) ([500], [2 / 10]));
    try lra; try reflexivity; try (repeat constructor; lra).
  apply (two_steps_nonsingular 100 500 (1 / 10)); lra.
Defined.

End ScaleFacts.

(** ** More on the discovery of the checkpoints *)

Module DiscoveryExtra.

Import Recon DiscoveryFacts.
Open Scope R_scope.

Lemma strip_prefix_app p : forall s r,
  strip_prefix p s = Some r <-> s = p ++ r.
Proof.
  induction p as [|a p IH]; intros s r; simpl.
  - split; [now intros [= ->] | now intros ->].
  - destruct s as [|b s]; [split; [discriminate | intros H; discriminate H]|].
    destruct (Ascii.eqb_spec a b) as [->|N].
    + rewrite IH. split; [now intros -> | now intros [= ->]].
    + split; [discriminate | intros [= E _]; now contradiction N].
Qed.

Lemma dot_ckpt_shape s :
  dot_ckpt s = true <->
  exists c suffix,
    Ascii.eqb c "010" = false
    /\ s = c :: list_ascii_of_string "ckpt" ++ suffix.
Proof.
  unfold dot_ckpt. destruct s as [|c s].
  - split; [discriminate | intros (c & suffix & _ & H); discriminate H].
  - destruct (strip_prefix (list_ascii_of_string "ckpt") s) as [r|] eqn:E.
    + apply strip_prefix_app in E. rewrite andb_true_r, negb_true_iff.
      split.
      * intros H. exists c, r. now rewrite <- E.
      * intros (c' & suffix & H1 & H2). now injection H2 as -> _.
    + rewrite andb_false_r. split; [discriminate|].
      intros (c' & suffix & _ & H). injection H as _ H.
      assert (K : strip_prefix (list_ascii_of_string "ckpt") s = Some suffix)
        by (now apply strip_prefix_app).
      congruence.
Qed.

Lemma digits_dot_ckpt_shape s : forall seen,
  digits_dot_ckpt s seen = true <->
  (seen = true /\ dot_ckpt s = true)
  \/ exists ds rest,
       ds <> [] /\ forallb PyFloat.is_digit ds = true
       /\ s = ds ++ rest /\ dot_ckpt rest = true.
Proof.
  induction s as [|c s IH]; intros seen.
  - simpl. rewrite orb_false_r, andb_false_r. split; [discriminate|].
    intros [[_ H] | (ds & rest & Hne & _ & E & H)]; [discriminate|].
    destruct ds; [contradiction | discriminate].
  - cbn [digits_dot_ckpt]. rewrite orb_true_iff, !andb_true_iff, IH.
    split.
    + intros [H | [Hc [[_ H] | (ds & rest & Hne & Hd & E & H)]]].
      * now left.
      * right. exists [c], s. simpl. rewrite Hc. repeat split; auto. discriminate.
      * right. exists (c :: ds), rest. simpl. rewrite Hc, Hd, E.
        repeat split; auto. discriminate.
    + intros [H | (ds & rest & Hne & Hd & E & H)]; [now left|].
      right. destruct ds as [|d ds]; [contradiction|].
      simpl in Hd, E. apply andb_prop in Hd. destruct Hd as [Hd1 Hd2].
      injection E as -> ->. split; [exact Hd1|].
      destruct ds as [|d' ds].
      * left. now split.
      * right. exists (d' :: ds), rest. repeat split; auto. discriminate.
Qed.

(** X9.  The names that the scan of [main] loads are exactly those made of
    [epoch_], one digit or more, one character that is no newline, [ckpt],
    and then anything: the pattern is not anchored at the end of the name
    and its dot stands for any character. *)
Theorem re_match_epoch_shape name :
  re_match_epoch name = true <->
  exists ds c suffix,
    ds <> [] /\ forallb PyFloat.is_digit ds = true
    /\ Ascii.eqb c "010" = false
    /\ list_ascii_of_string name
       = list_ascii_of_string "epoch_" ++ ds ++ c
         :: list_ascii_of_string "ckpt" ++ suffix.
Proof.
  unfold re_match_epoch.
  destruct (strip_prefix (list_ascii_of_string "epoch_")
              (list_ascii_of_string name)) as [r|] eqn:E.
  - apply strip_prefix_app in E. rewrite digits_dot_ckpt_shape. split.
    + intros [[H _] | (ds & rest & Hne & Hd & Er & H)]; [discriminate|].
      apply dot_ckpt_shape in H. destruct H as (c & suffix & Hc & Es).
      exists ds, c, suffix. rewrite E, Er, Es. auto.
    + intros (ds & c & suffix & Hne & Hd & Hc & En). right.
      rewrite E in En. apply app_inv_head in En.
      exists ds, (c :: list_ascii_of_string "ckpt" ++ suffix).
      repeat split; auto. apply dot_ckpt_shape. eauto.
  - split; [discriminate|].
    intros (ds & c & suffix & _ & _ & _ & En).
    assert (K : strip_prefix (list_ascii_of_string "epoch_")
                  (list_ascii_of_string name)
                = Some (ds ++ c :: list_ascii_of_string "ckpt" ++ suffix))
      by (now apply strip_prefix_app).
    congruence.
Qed.

Lemma lookup_absent_main wd dir :
  lookup dir "latest.ckpt" = None ->
  main_params wd dir = Raise (AssertionError "Checkpoint does not exist").
Proof. intros H. unfold main_params. now rewrite H. Qed.

(** The errors of the scan: the index error of a checkpoint with fewer
    than two stds and, under a relative [workspace_dir], the error of a
    matching name that is not found at the doubled path. *)
Lemma scan_errors wd entries : forall params e,
  scan wd entries params = Raise e ->
  e = IndexError "list index out of range"
  \/ exists doubled name,
       wd = Relative doubled /\ e = FileNotFoundError name
       /\ re_match_epoch name = true /\ In name (map fst entries)
       /\ lookup doubled name = None.
Proof.
  induction entries as [|[name p] entries IH]; intros params e H.
  - discriminate H.
  - cbn [scan] in H. destruct (re_match_epoch name) eqn:E; cbn [negb] in H.
    + destruct (open_joined wd name p) as [q|e'] eqn:O; cbn [bind] in H.
      * unfold two_records, getitem in H.
        destruct (nth_error (cfg_ema_stds q) 0); cbn [bind] in H;
          [|left; now injection H as <-].
        destruct (nth_error (cfg_ema_stds q) 1); cbn [bind] in H;
          [|left; now injection H as <-].
        destruct (IH _ _ H) as [K | (d & n & K1 & K2 & K3 & K4 & K5)];
          [now left|].
        right. exists d, n. repeat split; auto. now right.
      * injection H as <-. right.
        destruct wd as [|doubled]; [discriminate O|].
        unfold open_joined, load in O.
        destruct (lookup doubled name) eqn:L; [discriminate O|].
        injection O as <-.
        exists doubled, name. repeat split; auto. now left.
    + destruct (IH _ _ H) as [K | (d & n & K1 & K2 & K3 & K4 & K5)];
        [now left|].
      right. exists d, n. repeat split; auto. now right.
Qed.

(** X10.  [main] raises the assertion error exactly when the directory has
    no [latest.ckpt], before any checkpoint is looked at.  The other ways
    for the discovery to fail, on checkpoints that load: the index error of
    a checkpoint with fewer than two stds, and, only under a relative
    [workspace_dir], the error of a file missing at the doubled path that
    line 174 builds for a name that the pattern matches. *)
Theorem main_params_errors wd dir :
  (lookup dir "latest.ckpt" = None <->
   main_params wd dir = Raise (AssertionError "Checkpoint does not exist"))
  /\ forall e, main_params wd dir = Raise e ->
       e = AssertionError "Checkpoint does not exist"
       \/ e = IndexError "list index out of range"
       \/ exists doubled name,
            wd = Relative doubled /\ e = FileNotFoundError name
            /\ re_match_epoch name = true /\ In name (map fst dir)
            /\ lookup doubled name = None.
Proof.
  assert (G : forall e, main_params wd dir = Raise e ->
            lookup dir "latest.ckpt" = None
            /\ e = AssertionError "Checkpoint does not exist"
            \/ lookup dir "latest.ckpt" <> None
               /\ (e = IndexError "list index out of range"
                   \/ exists doubled name,
                        wd = Relative doubled /\ e = FileNotFoundError name
                        /\ re_match_epoch name = true /\ In name (map fst dir)
                        /\ lookup doubled name = None)).
  { intros e H. unfold main_params in H.
    destruct (lookup dir "latest.ckpt") as [p|];
      [|left; split; [reflexivity | now injection H as <-]].
    right. split; [discriminate|].
    destruct (scan wd dir []) as [found|e'] eqn:Hs; cbn [bind] in H.
    - left. unfold two_records, getitem in H. cbn [load_payload global_step] in H.
      destruct (nth_error (cfg_ema_stds p) 0); cbn [bind] in H;
        [|now injection H as <-].
      destruct (nth_error (cfg_ema_stds p) 1); cbn [bind] in H;
        [discriminate H | now injection H as <-].
    - injection H as <-. exact (scan_errors _ _ _ _ Hs). }
  split.
  - split; [apply lookup_absent_main|].
    intros H. destruct (G _ H) as [[K _] | [_ [K | K]]]; [exact K | |].
    + discriminate K.
    + destruct K as (d & n & _ & K & _). discriminate K.
  - intros e H. destruct (G _ H) as [[_ K] | [_ K]]; auto.
Qed.

End DiscoveryExtra.

(** ** More on the runner *)

Module RunnerExtra.

Import Numerics Recon ExtraDefs SolverFacts RunnerFacts.
Open Scope R_scope.

Lemma nth_map_some {U : Type} (g : U -> R) (l : list U) i x :
  nth_error l i = Some x -> nth i (map g l) 0 = g x.
Proof.
  revert i. induction l as [|a l IH]; intros [|i] H; simpl in *;
    try discriminate.
  - now injection H as ->.
  - now apply IH.
Qed.

(** *** The sort of [__init__] *)

Lemma key_le_spec a b : key_le a b = true <-> key_order a b.
Proof.
  unfold key_le, key_order.
  rewrite orb_true_iff, andb_true_iff, Z.ltb_lt, Z.eqb_eq.
  destruct (Rle_dec (rec_std a) (rec_std b)); intuition (try discriminate).
Qed.

Lemma key_order_total a b : key_order a b \/ key_order b a.
Proof.
  unfold key_order.
  destruct (Z.lt_total (rec_step a) (rec_step b)) as [H | [H | H]]; auto.
  destruct (Rle_or_lt (rec_std a) (rec_std b)) as [L | L]; auto.
  right. right. split; [now symmetry | lra].
Qed.

Lemma key_order_trans a b c : key_order a b -> key_order b c -> key_order a c.
Proof.
  unfold key_order. intros [H1 | [H1 L1]] [H2 | [H2 L2]].
  - left. lia.
  - left. lia.
  - left. lia.
  - right. split; [congruence | lra].
Qed.

Lemma insert_by_key_perm x l : Permutation (x :: l) (insert_by_key x l).
Proof.
  induction l as [|y l IH]; simpl; [reflexivity|].
  destruct (key_le x y); [reflexivity|].
  rewrite perm_swap. now constructor.
Qed.

Lemma insert_by_key_sorted x l :
  StronglySorted key_order l -> StronglySorted key_order (insert_by_key x l).
Proof.
  induction 1 as [|y l Hs IH Hy]; simpl.
  - repeat constructor.
  - destruct (key_le x y) eqn:E.
    + apply key_le_spec in E. constructor; [now constructor|].
      constructor; [exact E|].
      rewrite Forall_forall in *. intros z Hz.
      apply key_order_trans with y; auto.
    + assert (Hyx : key_order y x).
      { destruct (key_order_total x y) as [H | H]; [|exact H].
        apply key_le_spec in H. congruence. }
      constructor; [exact IH|].
      rewrite Forall_forall in *. intros z Hz.
      apply (Permutation_in z (Permutation_sym (insert_by_key_perm x l))) in Hz.
      destruct Hz as [<- | Hz]; auto.
Qed.

(** X11.  The runner keeps the records it is given, sorted by step and then by
    std, and the arrays [steps] and [in_stds] are the columns of the sorted
    list, entry by entry. *)
Theorem init_sorted_params params ws d :
  let self := init params ws d in
  Permutation params (sorted_params self)
  /\ StronglySorted key_order (sorted_params self)
  /\ combine (steps self) (in_stds self)
     = map (fun r => (IZR (rec_step r), rec_std r)) (sorted_params self)
  /\ latest self = [IZR (global_step ws)].
Proof.
  cbn [init sorted_params steps in_stds latest].
  split; [|split; [|split; [|reflexivity]]].
  - unfold sorted. induction params as [|x params IH]; simpl; [reflexivity|].
    rewrite <- insert_by_key_perm. now constructor.
  - unfold sorted. induction params as [|x params IH]; simpl.
    + constructor.
    + now apply insert_by_key_sorted.
  - induction (sorted params) as [|r l IH]; simpl; [reflexivity|].
    now rewrite IH.
Qed.

(** *** The loop over the sources, up to a given record *)

Lemma include_prefix d pre srcs :
  Forall2 (variant d) pre srcs ->
  forall cpre ws out rest crest,
    List.length cpre = List.length pre ->
    rows_of_length 1 cpre ->
    Forall (fun m => same_shape (parameters out) (parameters m)) srcs ->
    exists ws' out',
      include d ws out (pre ++ rest) (cpre ++ crest)
      = include d ws' out' rest crest.
Proof.
  induction 1 as [|r m pre srcs Hv HF IH];
    intros cpre ws out rest crest Hlen Hrows Hsh.
  - destruct cpre; [|discriminate]. simpl. eauto.
  - destruct cpre as [|c cpre]; [discriminate|].
    inversion Hrows as [|? ? Hc Hrows']; subst.
    inversion Hsh as [|? ? Hm Hsh']; subst.
    destruct c as [|c0 [|? ?]]; try discriminate.
    destruct r as [[step std_in] file].
    destruct Hv as (p & idx & Hl & Hi & Hn).
    unfold rec_file, rec_std in Hl, Hi. simpl in Hl, Hi.
    destruct (accumulate_spec (parameters out) (parameters m) c0 Hm)
      as (ps' & Hacc & Sps & Eps).
    set (ws1 := load_payload
                  (mk_workspace (ema_load_state_dict (ema ws) (state_dicts_ema p))
                     (global_step ws) (ws_model ws)) p).
    destruct (IH cpre ws1 (mk_model ps' (buffers out)) rest crest)
      as (ws' & out' & Hinc).
    + simpl in Hlen. now injection Hlen.
    + exact Hrows'.
    + simpl. rewrite Forall_forall in *. intros m' Hm'.
      apply same_shape_trans with (parameters out);
        [now apply same_shape_sym | now apply Hsh'].
    + exists ws', out'. rewrite <- Hinc.
      change ((((step, std_in, file) :: pre) ++ rest))
        with ((step, std_in, file) :: (pre ++ rest)).
      change (([c0] :: cpre) ++ crest) with ([c0] :: (cpre ++ crest)).
      cbn [include]. unfold load. rewrite Hl. cbn [bind].
      rewrite Hi. cbn [bind]. fold ws1.
      unfold getitem, ema_get, ws1, load_payload, ema_load_state_dict.
      cbn [ema]. rewrite Hn. cbn [bind scalar_of_row].
      rewrite Hacc. cbn [bind]. reflexivity.
Qed.

(** The reconstruction up to the record that follows the records [pre]. *)
Lemma reconstruct_at params ws d std coef ema0 pre r post srcs :
  solve_posthoc_coefficients
    (map (fun x => IZR (rec_step x)) (sorted params))
    (map rec_std (sorted params)) [IZR (global_step ws)] [std] = Ok coef ->
  nth_error (averaged_models (ema ws)) 0 = Some ema0 ->
  sorted params = pre ++ r :: post ->
  Forall2 (variant d) pre srcs ->
  Forall (fun m => same_shape (parameters ema0) (parameters m)) srcs ->
  exists ws' out' c crest,
    reconstruct (init params ws d) std
    = (x <- include d ws' out' (r :: post) ([c] :: crest) ;;
       Ok (coef, fst x, snd x)).
Proof.
  intros Hsolve Hema Hsp Hv Hsh.
  destruct (zero_parameters (parameters ema0)) as [Sz Ez].
  assert (Hl : List.length (map (fun x => IZR (rec_step x)) (sorted params))
               = List.length (map rec_std (sorted params)))
    by (now rewrite !length_map).
  destruct (coefficients_shape _ _ _ _ coef Hl Hsolve) as [Lc Rc].
  rewrite length_map, Hsp, length_app in Lc. simpl in Lc.
  pose proof (firstn_skipn (List.length pre) coef) as Ec.
  assert (Lrest : List.length (skipn (List.length pre) coef)
                  = S (List.length post))
    by (rewrite length_skipn; lia).
  set (cpre := firstn (List.length pre) coef) in *.
  assert (Lpre : List.length cpre = List.length pre)
    by (unfold cpre; rewrite length_firstn; lia).
  destruct (skipn (List.length pre) coef) as [|c crest']; [discriminate|].
  unfold rows_of_length in Rc. rewrite Forall_forall in Rc.
  assert (Rpre : rows_of_length 1 cpre).
  { unfold rows_of_length. rewrite Forall_forall.
    intros x Hx. apply Rc. rewrite <- Ec. apply in_or_app. now left. }
  assert (Hc : List.length c = 1%nat).
  { apply Rc. rewrite <- Ec. apply in_or_app. right. now left. }
  destruct c as [|c0 [|? ?]]; try discriminate.
  destruct (include_prefix d pre srcs Hv cpre ws
              (mk_model (map zero_ (parameters ema0)) (buffers ema0))
              (r :: post) ([c0] :: crest') Lpre Rpre)
    as (ws' & out' & Hinc).
  { cbn [parameters]. rewrite Forall_forall in *. intros m Hm.
    apply same_shape_trans with (parameters ema0);
      [now apply same_shape_sym | now apply Hsh]. }
  exists ws', out', c0, crest'.
  unfold reconstruct, init.
  cbn [steps in_stds latest sorted_params checkpoint_dir runner_workspace].
  rewrite Hsolve. cbn [bind].
  unfold getitem, ema_get. rewrite Hema. cbn [bind].
  rewrite Hsp. rewrite <- Ec at 1. rewrite Hinc. reflexivity.
Qed.

(** X12.  When the checkpoint file of a record is not in the directory, and the
    records sorted before it are in order, the reconstruction raises the
    error of the missing file, named after the file. *)
Theorem reconstruct_missing_file params ws d std coef ema0 pre r post srcs :
  solve_posthoc_coefficients
    (map (fun x => IZR (rec_step x)) (sorted params))
    (map rec_std (sorted params)) [IZR (global_step ws)] [std] = Ok coef ->
  nth_error (averaged_models (ema ws)) 0 = Some ema0 ->
  sorted params = pre ++ r :: post ->
  Forall2 (variant d) pre srcs ->
  Forall (fun m => same_shape (parameters ema0) (parameters m)) srcs ->
  lookup d (rec_file r) = None ->
  reconstruct (init params ws d) std = Raise (FileNotFoundError (rec_file r)).
Proof.
  intros Hsolve Hema Hsp Hv Hsh Hl.
  destruct (reconstruct_at params ws d std coef ema0 pre r post srcs
              Hsolve Hema Hsp Hv Hsh) as (ws' & out' & c & crest & H).
  rewrite H. destruct r as [[step std_in] file].
  unfold rec_file in Hl. simpl in Hl.
  cbn [include]. unfold load. rewrite Hl. reflexivity.
Qed.

Lemma reconstruct_missing_file_witness :
  reconstruct
    (init [example_missing_record]
       (load_payload new_workspace example_checkpoint) example_store)
    (1 / 10)
  = Raise (FileNotFoundError "epoch_1.ckpt").
Proof.
  apply (reconstruct_missing_file [example_missing_record]
           (load_payload new_workspace example_checkpoint) example_store
           (1 / 10) [[1]] example_source [] example_missing_record [] []).
  - exact solve_single_source.
  - reflexivity.
  - reflexivity.
  - constructor.
  - constructor.
  - reflexivity.
Defined.

Lemma index_absent l x :
  (In x l -> False) -> index l x = Raise (ValueError "is not in list").
Proof.
  induction l as [|y l IH]; intros H; simpl; [reflexivity|].
  destruct (Req_dec_T y x) as [E|N].
  - exfalso. apply H. now left.
  - rewrite IH; [reflexivity|]. intros K. apply H. now right.
Qed.

(** X13.  When the std of a record is not among the stds that its checkpoint
    records, and the records sorted before it are in order, the
    reconstruction raises the value error of [list.index]. *)
Theorem reconstruct_std_not_recorded params ws d std coef ema0 pre r post srcs p :
  solve_posthoc_coefficients
    (map (fun x => IZR (rec_step x)) (sorted params))
    (map rec_std (sorted params)) [IZR (global_step ws)] [std] = Ok coef ->
  nth_error (averaged_models (ema ws)) 0 = Some ema0 ->
  sorted params = pre ++ r :: post ->
  Forall2 (variant d) pre srcs ->
  Forall (fun m => same_shape (parameters ema0) (parameters m)) srcs ->
  lookup d (rec_file r) = Some p ->
  (In (rec_std r) (cfg_ema_stds p) -> False) ->
  reconstruct (init params ws d) std = Raise (ValueError "is not in list").
Proof.
  intros Hsolve Hema Hsp Hv Hsh Hl Hn.
  destruct (reconstruct_at params ws d std coef ema0 pre r post srcs
              Hsolve Hema Hsp Hv Hsh) as (ws' & out' & c & crest & H).
  rewrite H. destruct r as [[step std_in] file].
  unfold rec_file in Hl. unfold rec_std in Hn. simpl in Hl, Hn.
  cbn [include]. unfold load. rewrite Hl. cbn [bind].
  rewrite (index_absent _ _ Hn). reflexivity.
Qed.

Lemma reconstruct_std_not_recorded_witness :
  reconstruct
    (init [(1%Z, 1 / 10, "latest.ckpt"%string)]
       (load_payload new_workspace example_checkpoint) example_other_store)
    (1 / 10)
  = Raise (ValueError "is not in list").
Proof.
  apply (reconstruct_std_not_recorded [(1%Z, 1 / 10, "latest.ckpt"%string)]
           (load_payload new_workspace example_checkpoint) example_other_store
           (1 / 10) [[1]] example_source []
           (1%Z, 1 / 10, "latest.ckpt"%string) [] []
           (mk_payload [2 / 10] 1 (mk_ema [2 / 10] [example_source])
              example_source)).
  - exact solve_single_source.
  - reflexivity.
  - reflexivity.
  - constructor.
  - constructor.
  - reflexivity.
  - unfold rec_std. simpl. intros [H | []]. lra.
Defined.

(** *** The reconstructed parameters *)

Lemma reconstruct_elements params ws d std coef ema0 srcs :
  solve_posthoc_coefficients
    (map (fun x => IZR (rec_step x)) (sorted params))
    (map rec_std (sorted params)) [IZR (global_step ws)] [std] = Ok coef ->
  nth_error (averaged_models (ema ws)) 0 = Some ema0 ->
  Forall2 (variant d) (sorted params) srcs ->
  Forall (fun m => same_shape (parameters ema0) (parameters m)) srcs ->
  List.length coef = List.length srcs
  /\ rows_of_length 1 coef
  /\ exists ws' out,
       reconstruct (init params ws d) std = Ok (coef, ws', out)
       /\ buffers out = buffers ema0
       /\ forall p e,
            element (parameters out) p e
            = weighted_sum (map (fun c => nth 0 c 0) coef) srcs p e.
Proof.
  intros Hsolve Hema Hv Hsh.
  destruct (zero_parameters (parameters ema0)) as [Sz Ez].
  assert (Hl : List.length (map (fun x => IZR (rec_step x)) (sorted params))
               = List.length (map rec_std (sorted params)))
    by (now rewrite !length_map).
  destruct (coefficients_shape _ _ _ _ coef Hl Hsolve) as [Lc Rc].
  rewrite length_map in Lc.
  split; [rewrite Lc; now apply (Forall2_length Hv)|]. split; [exact Rc|].
  destruct (include_spec d (sorted params) srcs Hv coef ws
              (mk_model (map zero_ (parameters ema0)) (buffers ema0)) Lc Rc)
    as (ws' & out & Hinc & Hb & Ss & Es).
  { cbn [parameters]. rewrite Forall_forall in *. intros m Hm.
    apply same_shape_trans with (parameters ema0);
      [now apply same_shape_sym | now apply Hsh]. }
  exists ws', out. split; [|split; [exact Hb|]].
  - unfold reconstruct, init.
    cbn [steps in_stds latest sorted_params checkpoint_dir runner_workspace].
    rewrite Hsolve. cbn [bind].
    unfold getitem, ema_get. rewrite Hema. cbn [bind].
    rewrite Hinc. reflexivity.
  - intros p e. rewrite Es. cbn [parameters]. rewrite Ez. ring.
Qed.

Lemma weighted_sum_dot cs : forall ms p e,
  weighted_sum cs ms p e
  = dot cs (map (fun m => element (parameters m) p e) ms).
Proof.
  unfold weighted_sum.
  induction cs as [|c cs IH]; intros [|m ms] p e; simpl; try reflexivity.
  now rewrite IH.
Qed.

Lemma dot_comm u : forall v, dot u v = dot v u.
Proof.
  induction u as [|x u IH]; intros [|y v]; simpl; try reflexivity.
  rewrite IH. ring.
Qed.

Lemma combine_columns (sp : list record) :
  combine (map (fun x => IZR (rec_step x)) sp) (map rec_std sp)
  = map (fun r => (IZR (rec_step r), rec_std r)) sp.
Proof. induction sp as [|r l IH]; simpl; [reflexivity | now rewrite IH]. Qed.

(** X14.  For records with positive steps and stds in (0, 0.289): when the
    target is the profile of one of the records (same step as the
    workspace, same std) and the correlation matrix of the sources is
    nonsingular, the reconstruction returns the parameters of the EMA
    variant of that record, element by element. *)
Theorem reconstruct_exact_match params ws d std ema0 srcs j r m :
  Forall valid_record params ->
  nth_error (sorted params) j = Some r ->
  rec_step r = global_step ws -> rec_std r = std ->
  nonsingular
    (correlation_table
       (map (fun x => IZR (rec_step x)) (sorted params))
       (map rec_std (sorted params))
       (map (fun x => IZR (rec_step x)) (sorted params))
       (map rec_std (sorted params))) ->
  nth_error (averaged_models (ema ws)) 0 = Some ema0 ->
  Forall2 (variant d) (sorted params) srcs ->
  Forall (fun m => same_shape (parameters ema0) (parameters m)) srcs ->
  nth_error srcs j = Some m ->
  exists coef ws' out,
    reconstruct (init params ws d) std = Ok (coef, ws', out)
    /\ forall p e,
         element (parameters out) p e = element (parameters m) p e.
Proof.
  intros _ Hj Hstep Hstd Hns Hema Hv Hsh Hm.
  set (io := map (fun x => IZR (rec_step x)) (sorted params)) in *.
  set (is_ := map rec_std (sorted params)) in *.
  assert (Hl : List.length io = List.length is_)
    by (unfold io, is_; now rewrite !length_map).
  assert (Hb : broadcast_arrays io is_ = Ok (io, is_)).
  { unfold broadcast_arrays. apply Nat.eqb_eq in Hl. now rewrite Hl. }
  assert (Hc : nth_error (combine io is_) j = Some (IZR (global_step ws), std)).
  { unfold io, is_. rewrite combine_columns.
    rewrite (map_nth_error _ _ _ Hj). now rewrite Hstep, Hstd. }
  destruct (solve_exact_match io is_ (io, is_) j _ _ Hb Hc Hns) as [Lj Hsolve].
  cbn [fst] in Lj, Hsolve.
  destruct (reconstruct_elements params ws d std _ ema0 srcs Hsolve Hema Hv Hsh)
    as (Lc & _ & ws' & out & Hrec & _ & E).
  exists (unit_column (List.length io) j), ws', out.
  split; [exact Hrec|].
  intros p e. rewrite E, weighted_sum_dot.
  fold (col 0 (unit_column (List.length io) j)).
  rewrite col_unit_column, dot_comm.
  destruct (unit_column_shape (List.length io) j) as [Lu _].
  rewrite Lu in Lc.
  replace (List.length io)
    with (List.length (map (fun m0 => element (parameters m0) p e) srcs))
    by (rewrite length_map; congruence).
  rewrite dot_unit. simpl. rewrite Nat.sub_0_r.
  exact (nth_map_some
           (fun m0 => element (parameters m0) p e) srcs j m Hm).
Qed.

Lemma example_variant :
  Forall2 (variant example_store) (sorted [(1%Z, 1 / 10, "latest.ckpt"%string)])
    [example_source].
Proof.
  constructor; [|constructor].
  exists example_checkpoint, 0%nat. split; [reflexivity|]. split.
  - unfold rec_std. simpl.
    destruct (Req_dec_T (1 / 10) (1 / 10)) as [_|N];
      [reflexivity | now contradiction N].
  - reflexivity.
Qed.

(** The example runner of two records, called with the std 0.1 of its
    second record: the model of [latest.ckpt] for this std comes back. *)
Lemma reconstruct_exact_match_witness :
  exists coef ws' out,
    reconstruct example_pair_runner (1 / 10) = Ok (coef, ws', out)
    /\ forall p e,
         element (parameters out) p e = element [[4; 7]] p e.
Proof.
  apply (reconstruct_exact_match example_pair_params
           (load_payload new_workspace example_late) example_pair_store
           (1 / 10) (mk_model [[4; 7]] [])
           [mk_model [[2; 3]] []; mk_model [[4; 7]] []] 1
           (500%Z, 1 / 10, "latest.ckpt"%string) (mk_model [[4; 7]] [])).
  - repeat constructor; unfold rec_step, rec_std; simpl; lra.
  - reflexivity.
  - reflexivity.
  - reflexivity.
  - rewrite example_pair_sorted.
    apply (two_steps_nonsingular 100 500 (1 / 10)); lra.
  - reflexivity.
  - rewrite example_pair_sorted. exact example_pair_variants.
  - repeat constructor.
  - reflexivity.
Defined.

Lemma col_sums_first (coef : matrix) :
  rows_of_length 1 coef ->
  nth 0 (col_sums 1 coef) 0
  = fold_right Rplus 0 (map (fun c => nth 0 c 0) coef).
Proof.
  induction 1 as [|c coef Hc H IH]; simpl; [reflexivity|].
  rewrite nth_vadd, IH; [reflexivity|].
  rewrite col_sums_length; assumption.
Qed.

Lemma dot_constant x : forall cs xs,
  List.length cs = List.length xs ->
  (forall y, In y xs -> y = x) ->
  dot cs xs = fold_right Rplus 0 cs * x.
Proof.
  induction cs as [|c cs IH]; intros [|y xs] L H; simpl in *;
    try discriminate; [ring|].
  rewrite IH; [|now injection L | auto].
  rewrite (H y) by (now left). ring.
Qed.

(** X15.  The reconstruction is an average.  For records with positive
    steps and stds in (0, 0.289), a workspace at a positive step and a
    std of the range: when the coefficients sum to 1 and all the selected
    variants hold the same parameter values, the reconstructed model holds
    these values. *)
Theorem reconstruct_constant_sources params ws d std coef ema0 srcs m0 :
  Forall valid_record params ->
  (0 < global_step ws)%Z -> 0 < std < 289 / 1000 ->
  solve_posthoc_coefficients
    (map (fun x => IZR (rec_step x)) (sorted params))
    (map rec_std (sorted params)) [IZR (global_step ws)] [std] = Ok coef ->
  nth 0 (col_sums 1 coef) 0 = 1 ->
  nth_error (averaged_models (ema ws)) 0 = Some ema0 ->
  Forall2 (variant d) (sorted params) srcs ->
  Forall (fun m => same_shape (parameters ema0) (parameters m)) srcs ->
  (forall m p e, In m srcs ->
     element (parameters m) p e = element (parameters m0) p e) ->
  exists ws' out,
    reconstruct (init params ws d) std = Ok (coef, ws', out)
    /\ forall p e,
         element (parameters out) p e = element (parameters m0) p e.
Proof.
  intros _ _ _ Hsolve Hsum Hema Hv Hsh Hconst.
  destruct (reconstruct_elements params ws d std coef ema0 srcs
              Hsolve Hema Hv Hsh) as (Lc & Rc & ws' & out & Hrec & _ & E).
  exists ws', out. split; [exact Hrec|].
  intros p e. rewrite E, weighted_sum_dot.
  rewrite (dot_constant (element (parameters m0) p e)).
  - rewrite <- col_sums_first by exact Rc. rewrite Hsum. ring.
  - now rewrite !length_map.
  - intros y Hy. apply in_map_iff in Hy. destruct Hy as [m [<- Hm]].
    now apply Hconst.
Qed.

Lemma example_same_variants :
  Forall2 (variant example_same_store)
    [(100%Z, 1 / 10, "epoch_0100.ckpt"%string);
     (500%Z, 1 / 10, "latest.ckpt"%string)]
    [mk_model [[2; 3]] []; mk_model [[2; 3]] []].
Proof.
  constructor; [|constructor; [|constructor]].
  - exists example_same_early, 0%nat. split; [reflexivity|].
    split; [apply index_first | reflexivity].
  - exists example_same_late, 0%nat. split; [reflexivity|].
    split; [apply index_first | reflexivity].
Qed.

(** Two checkpoints whose models at the std 0.1 hold the values 2 and 3,
    called with the std 0.2: the two coefficients sum to 1 and the
    reconstructed model holds 2 and 3. *)
Lemma reconstruct_constant_sources_witness :
  exists c1 c2 ws' out,
    reconstruct
      (init example_pair_params (load_payload new_workspace example_same_late)
         example_same_store) (2 / 10)
    = Ok ([[c1]; [c2]], ws', out)
    /\ forall p e, element (parameters out) p e = element [[2; 3]] p e.
Proof.
  destruct (solve_two_sources (2 / 10)) as (c1 & c2 & Hs & Hc); [lra|].
  exists c1, c2.
  apply (reconstruct_constant_sources example_pair_params
           (load_payload new_workspace example_same_late) example_same_store
           (2 / 10) [[c1]; [c2]] (mk_model [[2; 3]] [])
           [mk_model [[2; 3]] []; mk_model [[2; 3]] []]
           (mk_model [[2; 3]] [])).
  - repeat constructor; unfold rec_step, rec_std; simpl; lra.
  - reflexivity.
  - lra.
  - rewrite example_pair_sorted. exact Hs.
  - simpl. lra.
  - reflexivity.
  - rewrite example_pair_sorted. exact example_same_variants.
  - repeat constructor.
  - intros m p e [<- | [<- | []]]; reflexivity.
Defined.

End RunnerExtra.

(** ** More on the std list parser *)

Module StdListExtra.

Import PyFloat StdList ExtraDefs StdListFacts.
Open Scope float_scope.

(** *** Floats in the range *)

Lemma in_range_finite x :
  in_range x = true -> exists m e, Prim2SF x = S754_finite false m e.
Proof.
  unfold in_range. rewrite andb_true_iff, !ltb_spec.
  assert (E0 : Prim2SF lit_0_000 = S754_zero false) by (vm_compute; reflexivity).
  assert (E1 : exists m e, Prim2SF lit_0_289 = S754_finite false m e)
    by (eexists; eexists; vm_compute; reflexivity).
  destruct E1 as (m1 & e1 & E1). rewrite E0, E1.
  unfold SFltb. destruct (Prim2SF x) as [s | [|] | | [|] m e]; simpl;
    intros [H1 H2]; try discriminate; eauto.
Qed.

Lemma SFltb_positive m1 e1 m2 e2 :
  SFltb (S754_finite false m1 e1) (S754_finite false m2 e2) = true
  <-> (e1 < e2)%Z \/ (e1 = e2 /\ (m1 < m2)%positive).
Proof.
  unfold SFltb. simpl. change (Pos.compare_cont Eq m1 m2) with (Pos.compare m1 m2).
  destruct (Z.compare_spec e1 e2) as [E | L | G].
  - destruct (Pos.compare_spec m1 m2) as [Em | Lm | Gm];
      split; intros H; try discriminate; try reflexivity.
    + destruct H as [H | [_ H]]; [lia | subst; now apply Pos.lt_irrefl in H].
    + right. split; assumption.
    + destruct H as [H | [_ H]]; [lia | exfalso; apply (Pos.lt_irrefl m1);
        now apply Pos.lt_trans with m2].
  - split; [left; assumption | reflexivity].
  - split; [discriminate | intros [H | [H _]]; lia].
Qed.

Lemma SFeqb_positive m1 e1 m2 e2 :
  SFeqb (S754_finite false m1 e1) (S754_finite false m2 e2) = true
  <-> e1 = e2 /\ m1 = m2.
Proof.
  unfold SFeqb. simpl. change (Pos.compare_cont Eq m1 m2) with (Pos.compare m1 m2).
  destruct (Z.compare_spec e1 e2) as [E | L | G].
  - destruct (Pos.compare_spec m1 m2) as [Em | Lm | Gm];
      split; intros H; try discriminate; try (split; assumption);
      try reflexivity; destruct H as [_ H]; subst;
      now apply Pos.lt_irrefl in Lm || now apply Pos.lt_irrefl in Gm.
  - split; [discriminate | intros [H _]; lia].
  - split; [discriminate | intros [H _]; lia].
Qed.

Lemma float_lt_trans x y z :
  in_range x = true -> in_range y = true -> in_range z = true ->
  float_lt x y -> float_lt y z -> float_lt x z.
Proof.
  unfold float_lt. rewrite !ltb_spec.
  intros Hx Hy Hz.
  destruct (in_range_finite x Hx) as (mx & ex & ->).
  destruct (in_range_finite y Hy) as (my & ey & ->).
  destruct (in_range_finite z Hz) as (mz & ez & ->).
  rewrite !SFltb_positive.
  intros [H1 | [H1 L1]] [H2 | [H2 L2]]; try (left; lia).
  right. split; [congruence | now apply Pos.lt_trans with my].
Qed.

Lemma float_lt_total x y :
  in_range x = true -> in_range y = true ->
  (x =? y) = false -> (x <? y) = false -> float_lt y x.
Proof.
  unfold float_lt. rewrite eqb_spec, !ltb_spec.
  intros Hx Hy.
  destruct (in_range_finite x Hx) as (mx & ex & ->).
  destruct (in_range_finite y Hy) as (my & ey & ->).
  intros He Hl.
  apply SFltb_positive.
  destruct (Z.lt_total ex ey) as [L | [E | G]].
  - exfalso. assert (K : SFltb (S754_finite false mx ex) (S754_finite false my ey) = true)
      by (apply SFltb_positive; now left). congruence.
  - right. split; [now symmetry|].
    destruct (Pos.lt_total mx my) as [Lm | [Em | Gm]].
    + exfalso. assert (K : SFltb (S754_finite false mx ex) (S754_finite false my ey) = true)
        by (apply SFltb_positive; right; now split). congruence.
    + exfalso. assert (K : SFeqb (S754_finite false mx ex) (S754_finite false my ey) = true)
        by (apply SFeqb_positive; now split). congruence.
    + exact Gm.
  - now left.
Qed.

(** *** The sorted set *)

Lemma insert_members x l w : In w (insert x l) -> w = x \/ In w l.
Proof.
  induction l as [|y l IH]; simpl.
  - intros [<- | []]. now left.
  - destruct (x =? y); [now right|].
    destruct (x <? y) eqn:L.
    + intros [<- | H]; [now left | now right].
    + intros [<- | H]; [right; now left|].
      destruct (IH H) as [-> | K]; [now left | right; now right].
Qed.

Lemma insert_sorted x l :
  in_range x = true -> Forall (fun v => in_range v = true) l ->
  StronglySorted float_lt l -> StronglySorted float_lt (insert x l).
Proof.
  intros Hx Hl Hs. induction Hs as [|y l Hs IH Hy]; simpl.
  - repeat constructor.
  - inversion Hl as [|? ? Ry Rl]; subst.
    destruct (x =? y) eqn:E; [now constructor|].
    destruct (x <? y) eqn:L.
    + constructor; [now constructor|].
      constructor; [exact L|].
      rewrite Forall_forall in *. intros z Hz.
      apply float_lt_trans with y; auto.
    + constructor; [now apply IH|].
      rewrite Forall_forall in *. intros z Hz.
      apply insert_members in Hz. destruct Hz as [-> | Hz]; auto.
      now apply float_lt_total.
Qed.

Lemma sorted_fold out :
  Forall (fun v => in_range v = true) out ->
  forall acc,
    Forall (fun v => in_range v = true) acc -> StronglySorted float_lt acc ->
    StronglySorted float_lt (fold_left (fun acc x => insert x acc) out acc)
    /\ forall w, In w (fold_left (fun acc x => insert x acc) out acc) ->
                 In w acc \/ In w out.
Proof.
  induction 1 as [|x out Hx Hout IH]; intros acc Ra Sa; simpl.
  - split; [exact Sa | intros w Hw; now left].
  - destruct (IH (insert x acc)) as [S M].
    + rewrite Forall_forall in *. intros w Hw.
      apply insert_members in Hw. destruct Hw as [-> | Hw]; auto.
    + now apply insert_sorted.
    + split; [exact S|]. intros w Hw.
      destruct (M w Hw) as [K | K]; [|right; now right].
      apply insert_members in K. destruct K as [-> | K];
        [right; now left | now left].
Qed.

(** *** What a successful parse went through *)

Lemma parse_ok_inv s l :
  parse_std_list (Str s) = Ok l ->
  exists raw out,
    parse_raw (split s) = Ok raw /\ fill raw 0 raw [] = Ok out
    /\ l = sorted_set out /\ forallb in_range l = true.
Proof.
  simpl. destruct (parse_raw (split s)) as [raw|e] eqn:Hraw; [|discriminate].
  simpl. unfold parse_tokens.
  destruct (fill raw 0 raw []) as [out|e] eqn:Hfill; [|discriminate].
  simpl. unfold validate.
  destruct (forallb in_range (sorted_set out)) eqn:E; simpl; [|discriminate].
  intros H. injection H as <-. exists raw, out. repeat split; auto.
Qed.

Lemma out_in_range out :
  forallb in_range (sorted_set out) = true ->
  Forall (fun v => in_range v = true) out.
Proof.
  intros H. rewrite forallb_forall in H. apply Forall_forall. intros v Hv.
  destruct (sorted_set_covers out [] v (or_introl Hv)) as [w [Hw [-> | Hc]]].
  - now apply H.
  - rewrite (eqb_in_range _ _ Hc). now apply H.
Qed.

Lemma covered_in_range v l :
  forallb in_range l = true -> covered v l -> in_range v = true.
Proof.
  intros H [w [Hw [-> | Hc]]]; rewrite forallb_forall in H.
  - now apply H.
  - rewrite (eqb_in_range _ _ Hc). now apply H.
Qed.

(** The list built by the loop: the literals and, for each ellipsis, the
    points its checks let through; nothing else. *)
Lemma fill_spec rest :
  forall pre out0 out,
    fill (pre ++ rest) (List.length pre) rest out0 = Ok out ->
    (forall v, In v out0 -> In v out)
    /\ (forall v, In (Some v) rest -> In v out)
    /\ (forall i, (List.length pre <= i)%nat ->
          nth_error (pre ++ rest) i = Some None ->
          exists pts, ellipsis (pre ++ rest) i = Ok pts
                      /\ forall p, In p pts -> In p out)
    /\ (forall v, In v out ->
          In v out0 \/ In (Some v) rest
          \/ exists i pts, nth_error (pre ++ rest) i = Some None
                           /\ ellipsis (pre ++ rest) i = Ok pts /\ In v pts).
Proof.
  induction rest as [|x rest IH]; intros pre out0 out H.
  - simpl in H. injection H as <-. repeat split; auto.
    + intros v [].
    + intros i Hi Hn. rewrite app_nil_r in Hn. apply nth_error_lt in Hn. lia.
  - assert (Hshift : pre ++ x :: rest = (pre ++ [x]) ++ rest)
      by (rewrite <- app_assoc; reflexivity).
    assert (Hlen : List.length (pre ++ [x]) = S (List.length pre))
      by (rewrite length_app; simpl; lia).
    assert (Hx : nth_error (pre ++ x :: rest) (List.length pre) = Some x)
      by (rewrite nth_error_app2, Nat.sub_diag by lia; reflexivity).
    destruct x as [w|]; simpl in H.
    + rewrite <- Hlen in H. rewrite Hshift in *.
      destruct (IH _ _ _ H) as (K1 & K2 & K3 & K4).
      split; [|split; [|split]].
      * intros v Hv. apply K1, in_or_app. now left.
      * intros v [E | Hv]; [|now apply K2].
        injection E as ->. apply K1, in_or_app. right. now left.
      * intros i Hi Hn. apply K3; [|exact Hn]. rewrite Hlen.
        destruct (Nat.eq_dec i (List.length pre)) as [-> | Hne]; [|lia].
        rewrite Hx in Hn. discriminate.
      * intros v Hv. destruct (K4 v Hv) as [A | [A | A]].
        -- apply in_app_or in A. destruct A as [A | [<- | []]];
             [now left | right; left; now left].
        -- right. left. now right.
        -- right. now right.
    + destruct (ellipsis (pre ++ None :: rest) (List.length pre)) as [pts0|e]
        eqn:E; simpl in H; [|discriminate].
      rewrite <- Hlen in H. rewrite Hshift in *.
      destruct (IH _ _ _ H) as (K1 & K2 & K3 & K4).
      split; [|split; [|split]].
      * intros v Hv. apply K1, in_or_app. now left.
      * intros v [E' | Hv]; [discriminate | now apply K2].
      * intros i Hi Hn.
        destruct (Nat.eq_dec i (List.length pre)) as [-> | Hne].
        -- exists pts0. split; [exact E|].
           intros p Hp. apply K1, in_or_app. now right.
        -- apply K3; [rewrite Hlen; lia | exact Hn].
      * intros v Hv. destruct (K4 v Hv) as [A | [A | A]].
        -- apply in_app_or in A. destruct A as [A | A]; [now left|].
           right. right. exists (List.length pre), pts0. auto.
        -- right. left. now right.
        -- right. now right.
Qed.

Lemma ellipsis_ok_inv raw i pts :
  ellipsis raw i = Ok pts ->
  exists a b c num,
    (2 <= i)%nat
    /\ nth_error raw (i - 2) = Some (Some a)
    /\ nth_error raw (i - 1) = Some (Some b)
    /\ nth_error raw (i + 1) = Some (Some c)
    /\ (a =? b) = false
    /\ round ((c - b) / (b - a) - 1) = Ok num
    /\ (0 < num)%Z
    /\ (lit_1e_4 <? abs (of_int num - ((c - b) / (b - a) - 1))) = false
    /\ pts = map (fun j => b + (b - a) * of_int (j + 1)) (range num).
Proof.
  unfold ellipsis, at_.
  destruct (i <? 2)%nat eqn:E2; [discriminate|]. apply Nat.ltb_ge in E2.
  destruct (nth_error raw (i - 2)) as [[a|]|]; try discriminate.
  destruct (nth_error raw (i - 1)) as [[b|]|]; try discriminate.
  cbn [is_None orb].
  destruct (List.length raw <=? i + 1)%nat; [discriminate|].
  destruct (nth_error raw (i + 1)) as [[c|]|]; try discriminate.
  cbn [is_None orb].
  destruct (a =? b) eqn:Eab; [discriminate|].
  destruct (round ((c - b) / (b - a) - 1)) as [num|e] eqn:Er; [|discriminate].
  cbn [bind].
  destruct (num <=? 0)%Z eqn:En; [discriminate|]. apply Z.leb_gt in En.
  destruct (lit_1e_4 <? abs (of_int num - ((c - b) / (b - a) - 1))) eqn:Ee;
    [discriminate|].
  intros H. injection H as <-.
  exists a, b, c, num. repeat split; auto.
Qed.



(** *** [s.split(',')] *)

Lemma string_of_list_ascii_app l1 l2 :
  string_of_list_ascii (l1 ++ l2)
  = (string_of_list_ascii l1 ++ string_of_list_ascii l2)%string.
Proof. induction l1 as [|c l1 IH]; simpl; [reflexivity | now rewrite IH]. Qed.

Lemma list_ascii_of_string_app s1 s2 :
  list_ascii_of_string (s1 ++ s2)%string
  = list_ascii_of_string s1 ++ list_ascii_of_string s2.
Proof. induction s1 as [|c s1 IH]; simpl; [reflexivity | now rewrite IH]. Qed.

Lemma split_comma_cons s cur : exists p ps, split_comma s cur = p :: ps.
Proof.
  revert cur. induction s as [|c s IH]; intros cur; simpl.
  - eauto.
  - destruct (Ascii.eqb c ","); [eauto | apply IH].
Qed.

Lemma split_comma_join s :
  forall cur,
    join_comma (split_comma s cur) = string_of_list_ascii (rev cur ++ s).
Proof.
  unfold join_comma.
  induction s as [|c s IH]; intros cur; simpl.
  - now rewrite app_nil_r.
  - destruct (Ascii.eqb c ",") eqn:E.
    + apply Ascii.eqb_eq in E. subst c.
      destruct (split_comma_cons s []) as (p & ps & Hp).
      specialize (IH []). rewrite Hp in *. simpl in IH.
      rewrite string_of_list_ascii_app. simpl. rewrite <- IH.
      change (concat "," (string_of_list_ascii (rev cur) :: p :: ps))
        with (string_of_list_ascii (rev cur) ++ "," ++ concat "," (p :: ps))%string.
      reflexivity.
    + rewrite IH. simpl. rewrite <- app_assoc. reflexivity.
Qed.

Lemma split_comma_pieces s :
  forall cur p,
    ~ In ","%char cur -> In p (split_comma s cur) ->
    ~ In ","%char (list_ascii_of_string p).
Proof.
  induction s as [|c s IH]; intros cur p Hc; simpl.
  - intros [<- | []]. rewrite list_ascii_of_string_of_list_ascii.
    now rewrite <- in_rev.
  - destruct (Ascii.eqb c ",") eqn:E.
    + intros [<- | Hp].
      * rewrite list_ascii_of_string_of_list_ascii. now rewrite <- in_rev.
      * apply (IH [] p); auto.
    + apply IH. intros [K | K]; [|contradiction].
      subst c. now rewrite Ascii.eqb_refl in E.
Qed.

Lemma split_comma_length s :
  forall cur,
    List.length (split_comma s cur)
    = S (List.length (filter (Ascii.eqb ",") s)).
Proof.
  induction s as [|c s IH]; intros cur; [reflexivity|].
  cbn [split_comma filter]. rewrite (Ascii.eqb_sym "," c).
  destruct (Ascii.eqb c ","); simpl; now rewrite IH.
Qed.

(** *** The properties *)

(** [s.split(',')] as the parser uses it: joining the pieces with commas
    gives [s] back, no piece contains a comma, and there is one piece more
    than there are commas in [s] (so never no piece at all). *)
Lemma split_join_round_trip s :
  join_comma (split s) = s
  /\ (forall p, In p (split s) -> ~ In ","%char (list_ascii_of_string p))
  /\ List.length (split s)
     = S (List.length (filter (Ascii.eqb ",") (list_ascii_of_string s))).
Proof.
  unfold split. split; [|split].
  - rewrite split_comma_join. simpl. apply string_of_list_ascii_of_string.
  - intros p. apply split_comma_pieces. intros [].
  - apply split_comma_length.
Qed.



(** X20.  A list returned for a string is not empty, strictly increasing
    (so without repetition) and inside the open interval (0, 0.289). *)
Theorem parse_std_list_increasing s l :
  parse_std_list (Str s) = Ok l ->
  l <> []
  /\ StronglySorted float_lt l
  /\ Forall (fun v => in_range v = true) l.
Proof.
  intros H. destruct (parse_ok_inv s l H) as (raw & out & Hraw & Hfill & -> & Hr).
  pose proof (out_in_range out Hr) as Ho.
  destruct (sorted_fold out Ho [] (Forall_nil _) (SSorted_nil _)) as [Sd M].
  split; [|split].
  - destruct (split_comma_cons (list_ascii_of_string s) []) as (p & ps & Hp).
    unfold split in Hraw. rewrite Hp in Hraw. simpl in Hraw.
    assert (Hv : exists v, In v out).
    { destruct (fill_spec raw [] [] out Hfill) as (_ & K2 & K3 & _).
      destruct raw as [|[v|] raw'].
      - destruct (String.eqb p "..."); simpl in Hraw.
        + destruct (parse_raw ps); discriminate.
        + destruct (of_string p); simpl in Hraw; [|discriminate].
          destruct (parse_raw ps); discriminate.
      - exists v. apply K2. now left.
      - destruct (K3 0%nat (Nat.le_0_l _) eq_refl) as (pts & Hp0 & _).
        discriminate Hp0. }
    destruct Hv as [v Hv].
    destruct (sorted_set_covers out [] v (or_introl Hv)) as [w [Hw _]].
    intros E. unfold sorted_set in E. rewrite E in Hw. destruct Hw.
  - exact Sd.
  - apply Forall_forall. rewrite forallb_forall in Hr. exact Hr.
Qed.

Lemma parse_std_list_increasing_witness :
  [0.125; 0.25] <> []
  /\ StronglySorted float_lt [0.125; 0.25]
  /\ Forall (fun v => in_range v = true) [0.125; 0.25].
Proof.
  apply (parse_std_list_increasing "0.25,0.125,0.25").
  vm_compute. reflexivity.
Defined.

(** X21.  What a list returned for a string holds: every float written in
    the string is in the range and is represented in the list (by itself
    or by a float equal to it), and every element of the list is a float
    written in the string or a point generated for one of its ellipses. *)
Theorem parse_std_list_values s raw l :
  parse_raw (split s) = Ok raw ->
  parse_std_list (Str s) = Ok l ->
  (forall v, In (Some v) raw -> covered v l /\ in_range v = true)
  /\ (forall w, In w l ->
        In (Some w) raw
        \/ exists i pts, nth_error raw i = Some None
                         /\ ellipsis raw i = Ok pts /\ In w pts).
Proof.
  intros Hraw H.
  destruct (parse_ok_inv s l H) as (raw' & out & Hraw' & Hfill & -> & Hr).
  rewrite Hraw in Hraw'. injection Hraw' as <-.
  destruct (fill_spec raw [] [] out Hfill) as (_ & K2 & _ & K4).
  split.
  - intros v Hv.
    assert (C : covered v (sorted_set out))
      by (apply sorted_set_covers; left; now apply K2).
    split; [exact C | now apply covered_in_range with (sorted_set out)].
  - intros w Hw.
    destruct (sorted_fold out (out_in_range out Hr) []
                (Forall_nil _) (SSorted_nil _)) as [_ M].
    destruct (M w Hw) as [[] | Ho].
    destruct (K4 w Ho) as [[] | [A | A]]; auto.
Qed.

Lemma parse_std_list_values_witness :
  covered 0.25 [0.125; 0.25] /\ in_range 0.25 = true.
Proof.
  apply (proj1 (parse_std_list_values "0.25,0.125,0.25"
                  [Some 0.25; Some 0.125; Some 0.25] [0.125; 0.25]
                  ltac:(vm_compute; reflexivity)
                  ltac:(vm_compute; reflexivity))).
  simpl. auto.
Defined.

(** X22.  When a list is returned, every ['...'] of the string passed all
    its checks: it stands after two floats [a], [b] that are not equal and
    before a float [c], the count [num = round((c - b) / (b - a) - 1)] is
    positive and within 1e-4 of the quotient, and each of the [num] points
    [b + (b - a) * (j + 1)] is in the range and represented in the
    list. *)
Theorem parse_std_list_ellipsis_passed s raw l i :
  parse_raw (split s) = Ok raw ->
  parse_std_list (Str s) = Ok l ->
  nth_error raw i = Some None ->
  exists a b c num,
    (2 <= i)%nat
    /\ nth_error raw (i - 2) = Some (Some a)
    /\ nth_error raw (i - 1) = Some (Some b)
    /\ nth_error raw (i + 1) = Some (Some c)
    /\ (a =? b) = false
    /\ round ((c - b) / (b - a) - 1) = Ok num
    /\ (0 < num)%Z
    /\ (lit_1e_4 <? abs (of_int num - ((c - b) / (b - a) - 1))) = false
    /\ forall j, (0 <= j < num)%Z ->
         covered (b + (b - a) * of_int (j + 1)) l
         /\ in_range (b + (b - a) * of_int (j + 1)) = true.
Proof.
  intros Hraw H Hi.
  destruct (parse_ok_inv s l H) as (raw' & out & Hraw' & Hfill & -> & Hr).
  rewrite Hraw in Hraw'. injection Hraw' as <-.
  destruct (fill_spec raw [] [] out Hfill) as (_ & _ & K3 & _).
  destruct (K3 i (Nat.le_0_l _) Hi) as (pts & Hpts & Hin).
  destruct (ellipsis_ok_inv raw i pts Hpts)
    as (a & b & c & num & H1 & H2 & H3 & H4 & H5 & H6 & H7 & H8 & ->).
  exists a, b, c, num. repeat (split; [assumption|]).
  intros j Hj.
  assert (C : covered (b + (b - a) * of_int (j + 1)) (sorted_set out)).
  { apply sorted_set_covers. left. apply Hin.
    apply (in_map (fun j => b + (b - a) * of_int (j + 1))).
    unfold range. apply in_map_iff. exists (Z.to_nat j).
    split; [lia|]. apply in_seq. lia. }
  split; [exact C | now apply covered_in_range with (sorted_set out)].
Qed.

Lemma parse_std_list_ellipsis_passed_witness :
  exists raw l a b c num,
    parse_raw (split "0.05,0.10,...,0.25") = Ok raw
    /\ parse_std_list (Str "0.05,0.10,...,0.25") = Ok l
    /\ nth_error raw 0 = Some (Some a)
    /\ nth_error raw 1 = Some (Some b)
    /\ nth_error raw 3 = Some (Some c)
    /\ round ((c - b) / (b - a) - 1) = Ok num
    /\ num = 2%Z
    /\ covered (b + (b - a) * of_int 2) l.
Proof.
  eexists. eexists.
  destruct (parse_std_list_ellipsis_passed "0.05,0.10,...,0.25" _ _ 2
              ltac:(vm_compute; reflexivity) ltac:(vm_compute; reflexivity)
              eq_refl)
    as (a & b & c & num & _ & H2 & H3 & H4 & _ & H6 & H7 & _ & H9).
  exists a, b, c, num.
  split; [vm_compute; reflexivity|].
  split; [vm_compute; reflexivity|].
  repeat (split; [assumption|]).
  assert (En : num = 2%Z).
  { simpl in H2, H3, H4. injection H2 as <-. injection H3 as <-.
    injection H4 as <-. vm_compute in H6. now injection H6 as <-. }
  split; [exact En|].
  subst num. apply (proj1 (H9 1%Z ltac:(lia))).
Defined.

End StdListExtra.

(** ** The counters of the training loop *)

Module TrainFacts.

Import Train.
Open Scope Z_scope.

(** *** Lists of steps *)

Lemma logged_steps_app a b :
  logged_steps (a ++ b) = logged_steps a ++ logged_steps b.
Proof. apply flat_map_app. Qed.

Lemma saved_app a b : saved (a ++ b) = saved a ++ saved b.
Proof. apply flat_map_app. Qed.

Lemma map_seq_from {A : Type} k : forall (f : nat -> A) a,
  map f (seq a k) = map (fun i => f (a + i)%nat) (seq 0 k).
Proof.
  induction k as [|k IH]; intros f a; simpl; [reflexivity|].
  rewrite Nat.add_0_r. f_equal.
  rewrite (IH f (S a)), (IH (fun i => f (a + i)%nat) 1%nat).
  apply map_ext. intros i. f_equal. lia.
Qed.

Lemma steps_between_nil a : steps_between a a = [].
Proof. unfold steps_between. now rewrite Z.sub_diag. Qed.

Lemma steps_between_one a : steps_between a (a + 1) = [a].
Proof.
  unfold steps_between. replace (a + 1 - a) with 1 by lia. simpl.
  f_equal. lia.
Qed.

Lemma steps_between_app a b c :
  a <= b <= c -> steps_between a b ++ steps_between b c = steps_between a c.
Proof.
  intros H. unfold steps_between.
  replace (Z.to_nat (c - a)) with (Z.to_nat (b - a) + Z.to_nat (c - b))%nat
    by lia.
  rewrite seq_app, map_app. apply (f_equal (app _)). simpl.
  rewrite (map_seq_from _ _ (Z.to_nat (b - a))).
  apply map_ext. intros i. lia.
Qed.

(** *** Events that touch neither the counters nor the logs *)

Lemma quiet_refl st : quiet st st.
Proof. unfold quiet. auto 10. Qed.

Lemma quiet_trans a b c : quiet a b -> quiet b c -> quiet a c.
Proof. unfold quiet. intuition congruence. Qed.

Lemma quiet_emit ev st :
  match ev with Log _ | SaveCheckpoint _ _ _ => False | _ => True end ->
  quiet st (emit ev st).
Proof.
  intros H. unfold quiet, emit. simpl.
  rewrite logged_steps_app, saved_app.
  destruct ev; try contradiction; simpl; rewrite !app_nil_r; auto 10.
Qed.

Lemma quiet_emit_if c ev st :
  match ev with Log _ | SaveCheckpoint _ _ _ => False | _ => True end ->
  quiet st (emit_if c ev st).
Proof.
  intros H. destruct c; simpl; [now apply quiet_emit | apply quiet_refl].
Qed.

Lemma every_epoch_quiet every ev st :
  every <> 0 ->
  match ev with Log _ | SaveCheckpoint _ _ _ => False | _ => True end ->
  exists st', every_epoch every (fun st => Done (emit ev st)) st = Done st'
              /\ quiet st st'.
Proof.
  intros Hne Hev. unfold every_epoch.
  destruct (Z.eqb_spec every 0) as [E|_]; [contradiction|].
  destruct (epoch st mod every =? 0).
  - eexists. split; [reflexivity | now apply quiet_emit].
  - eexists. split; [reflexivity | apply quiet_refl].
Qed.

(** *** The loop over the batches *)

Lemma train_batches_spec cfg n :
  gradient_accumulate_every cfg <> 0 ->
  forall todo idx st,
    (idx + todo = n)%nat ->
    exists st',
      train_batches cfg n idx todo st = Done st'
      /\ epoch st' = epoch st
      /\ has_ema st' = has_ema st
      /\ train_sampling_batch st'
         = (train_sampling_batch st || negb (todo =? 0)%nat)%bool
      /\ global_step st' = global_step st + in_loop_steps cfg n idx
      /\ 0 <= in_loop_steps cfg n idx
      /\ logged_steps (events st')
         = logged_steps (events st)
           ++ steps_between (global_step st) (global_step st')
      /\ saved (events st') = saved (events st).
Proof.
  intros Hg. induction todo as [|todo IH]; intros idx st Hsum.
  - exists st. simpl. unfold in_loop_steps.
    destruct (Nat.leb_spec n idx) as [_|L]; [|lia].
    rewrite Z.add_0_r, steps_between_nil, app_nil_r, orb_false_r.
    repeat split; auto. lia.
  - cbn [train_batches].
    destruct (Z.eqb_spec (gradient_accumulate_every cfg) 0) as [E|_];
      [contradiction|].
    set (st1 := emit_if (use_ema cfg) EmaStep
                  (emit_if (global_step (keep_batch st)
                              mod gradient_accumulate_every cfg =? 0)
                     OptimizerStep (keep_batch st))).
    assert (Q : quiet (keep_batch st) st1).
    { apply quiet_trans with
        (emit_if (global_step (keep_batch st)
                    mod gradient_accumulate_every cfg =? 0)
           OptimizerStep (keep_batch st)); now apply quiet_emit_if. }
    destruct Q as (Q1 & Q2 & Q3 & Q4 & Q5 & Q6). simpl in Q1, Q2, Q3, Q4, Q5, Q6.
    set (st2 := if negb (Z.of_nat idx =? Z.of_nat n - 1)
                then next_step (emit (Log (global_step st1)) st1) else st1).
    assert (P : epoch st2 = epoch st /\ has_ema st2 = has_ema st
                /\ train_sampling_batch st2 = true
                /\ global_step st2
                   = global_step st
                     + (if Z.of_nat idx =? Z.of_nat n - 1 then 0 else 1)
                /\ logged_steps (events st2)
                   = logged_steps (events st)
                     ++ steps_between (global_step st) (global_step st2)
                /\ saved (events st2) = saved (events st)).
    { unfold st2. destruct (Z.of_nat idx =? Z.of_nat n - 1); simpl.
      - rewrite Z.add_0_r, Q1, steps_between_nil, app_nil_r. auto 10.
      - rewrite logged_steps_app, saved_app, Q1, Q5, Q6. simpl.
        rewrite steps_between_one, app_nil_r. auto 10. }
    destruct P as (P1 & P2 & P3 & P4 & P5 & P6).
    assert (Hstop :
      in_loop_steps cfg n idx
      = (if Z.of_nat idx =? Z.of_nat n - 1 then 0 else 1)
        + (if match max_train_steps cfg with
              | Some m => m - 1 <=? Z.of_nat idx
              | None => false
              end
           then 0 else in_loop_steps cfg n (S idx))).
    { unfold in_loop_steps.
      destruct (Nat.leb_spec n idx) as [L|_]; [lia|].
      destruct (Nat.leb_spec n (S idx)) as [L|L];
        destruct (max_train_steps cfg) as [m|];
        repeat match goal with
               | |- context [?a <=? ?b] => destruct (Z.leb_spec a b)
               | |- context [?a =? ?b] => destruct (Z.eqb_spec a b)
               end; lia. }
    destruct (match max_train_steps cfg with
              | Some m => m - 1 <=? Z.of_nat idx
              | None => false
              end).
    + exists st2. rewrite Hstop, Z.add_0_r.
      split; [reflexivity|].
      split; [exact P1|]. split; [exact P2|].
      split; [rewrite P3; simpl; now rewrite orb_true_r|].
      split; [exact P4|].
      split; [destruct (Z.of_nat idx =? Z.of_nat n - 1); lia|].
      split; [exact P5 | exact P6].
    + destruct (IH (S idx) st2 ltac:(lia))
        as (st' & R & R1 & R2 & R3 & R4 & R0 & R5 & R6).
      exists st'. rewrite Hstop.
      split; [exact R|].
      split; [congruence|]. split; [congruence|].
      split; [rewrite R3, P3; simpl; now rewrite orb_true_r|].
      split; [lia|].
      split; [destruct (Z.of_nat idx =? Z.of_nat n - 1); lia|].
      split; [|congruence].
      rewrite R5, P5, <- app_assoc. f_equal.
      apply steps_between_app.
      destruct (Z.of_nat idx =? Z.of_nat n - 1); lia.
Qed.

(** *** One epoch *)

Lemma steps_per_epoch_in_loop cfg n :
  (0 < n)%nat -> steps_per_epoch cfg n = in_loop_steps cfg n 0 + 1.
Proof.
  intros Hn. unfold steps_per_epoch, in_loop_steps.
  destruct (Nat.leb_spec n 0) as [L|_]; [lia|].
  destruct (max_train_steps cfg) as [m|]; [|lia].
  cbv zeta.
  repeat match goal with
         | |- context [?a <? ?b] => destruct (Z.ltb_spec a b)
         | |- context [?a =? ?b] => destruct (Z.eqb_spec a b)
         end; lia.
Qed.

Lemma sampling_quiet every st :
  every <> 0 -> train_sampling_batch st = true ->
  exists st',
    every_epoch every
      (fun st => if train_sampling_batch st then Done (emit Sampling st)
                 else Raised SamplingWithoutBatch st) st = Done st'
    /\ quiet st st'.
Proof.
  intros Hne Hb. unfold every_epoch.
  destruct (Z.eqb_spec every 0) as [E|_]; [contradiction|].
  destruct (epoch st mod every =? 0).
  - rewrite Hb. eexists. split; [reflexivity | now apply quiet_emit].
  - eexists. split; [reflexivity | apply quiet_refl].
Qed.

(** An epoch up to the test of [checkpoint_every]. *)
Lemma epoch_before_checkpoint cfg n st :
  gradient_accumulate_every cfg <> 0 -> rollout_every cfg <> 0 ->
  val_every cfg <> 0 -> sample_every cfg <> 0 -> (0 < n)%nat ->
  exists st4,
    run_epoch cfg n st
    = and_then
        (every_epoch (checkpoint_every cfg)
           (fun st =>
              Done (emit (SaveCheckpoint (Some (epoch_tag (epoch st)))
                            (global_step st) (epoch st)) st)) st4)
        (fun st => Done (next_epoch (next_step (emit (Log (global_step st)) st))))
    /\ epoch st4 = epoch st
    /\ has_ema st4 = has_ema st
    /\ global_step st4 = global_step st + steps_per_epoch cfg n - 1
    /\ 1 <= steps_per_epoch cfg n
    /\ logged_steps (events st4)
       = logged_steps (events st)
         ++ steps_between (global_step st) (global_step st4)
    /\ saved (events st4)
       = saved (events st)
         ++ (if save_last_ckpt cfg
             then [(None, global_step st4, epoch st)] else []).
Proof.
  intros Hg Hr Hv Hs Hn.
  destruct (train_batches_spec cfg n Hg n 0%nat st eq_refl)
    as (st1 & E1 & A1 & A2 & A3 & A4 & A0 & A5 & A6).
  destruct (every_epoch_quiet (rollout_every cfg) Rollout st1 Hr I)
    as (st2 & E2 & B1 & B2 & B3 & B4 & B5 & B6).
  destruct (every_epoch_quiet (val_every cfg) Validation st2 Hv I)
    as (st3 & E3 & C1 & C2 & C3 & C4 & C5 & C6).
  assert (Hb : train_sampling_batch st3 = true).
  { rewrite C4, B4, A3. destruct n; [lia|]. simpl. apply orb_true_r. }
  destruct (sampling_quiet (sample_every cfg) st3 Hs Hb)
    as (st3' & E3' & D1 & D2 & D3 & D4 & D5 & D6).
  unfold run_epoch. rewrite E1. cbn [and_then].
  rewrite E2. cbn [and_then]. rewrite E3. cbn [and_then].
  rewrite E3'. cbn [and_then].
  eexists. split; [reflexivity|].
  rewrite (steps_per_epoch_in_loop cfg n Hn).
  assert (G : global_step st3' = global_step st + in_loop_steps cfg n 0)
    by congruence.
  destruct (save_last_ckpt cfg), (save_last_snapshot cfg); simpl;
    rewrite ?logged_steps_app, ?saved_app; simpl; rewrite ?app_nil_r;
    (split; [congruence|]); (split; [congruence|]); (split; [lia|]);
    (split; [lia|]);
    (split; [rewrite D5, C5, B5, A5; do 2 f_equal; congruence|]);
    rewrite D6, C6, B6, A6, ?app_nil_r, ?D2, ?C2, ?B2, ?A1; reflexivity.
Qed.

Lemma run_epoch_spec cfg n st :
  periods_nonzero cfg -> (0 < n)%nat ->
  exists st',
    run_epoch cfg n st = Done st'
    /\ epoch st' = epoch st + 1
    /\ has_ema st' = has_ema st
    /\ global_step st' = global_step st + steps_per_epoch cfg n
    /\ 1 <= steps_per_epoch cfg n
    /\ logged_steps (events st')
       = logged_steps (events st)
         ++ steps_between (global_step st) (global_step st')
    /\ saved (events st')
       = saved (events st)
         ++ epoch_saves cfg (global_step st' - 1) (epoch st).
Proof.
  intros (Hg & Hr & Hv & Hs & Hc) Hn.
  destruct (epoch_before_checkpoint cfg n st Hg Hr Hv Hs Hn)
    as (st4 & E & A1 & A2 & A3 & A0 & A5 & A6).
  rewrite E. unfold every_epoch, epoch_saves.
  destruct (Z.eqb_spec (checkpoint_every cfg) 0) as [K|_]; [contradiction|].
  rewrite A1.
  assert (L : steps_between (global_step st) (global_step st4)
              ++ [global_step st4]
              = steps_between (global_step st) (global_step st4 + 1)).
  { rewrite <- steps_between_one. apply steps_between_app. lia. }
  destruct (epoch st mod checkpoint_every cfg =? 0); cbn [and_then];
    eexists; (split; [reflexivity|]); simpl;
    rewrite ?logged_steps_app, ?saved_app; simpl; rewrite ?app_nil_r;
    (split; [lia|]); (split; [assumption|]); (split; [lia|]);
    (split; [lia|]);
    replace (global_step st4 + 1 - 1) with (global_step st4) by lia;
    (split; [rewrite A5, <- app_assoc, L; reflexivity|]);
    rewrite A6, ?A1, ?app_nil_r, <- ?app_assoc; reflexivity.
Qed.

(** An epoch whose [checkpoint_every] is zero stops at the test of line
    324. *)
Lemma run_epoch_checkpoint_zero cfg n st :
  gradient_accumulate_every cfg <> 0 -> rollout_every cfg <> 0 ->
  val_every cfg <> 0 -> sample_every cfg <> 0 -> (0 < n)%nat ->
  checkpoint_every cfg = 0 ->
  exists st',
    run_epoch cfg n st = Raised ZeroDivisionError st'
    /\ epoch st' = epoch st
    /\ global_step st' = global_step st + steps_per_epoch cfg n - 1
    /\ logged_steps (events st')
       = logged_steps (events st)
         ++ steps_between (global_step st) (global_step st')
    /\ saved (events st')
       = saved (events st)
         ++ (if save_last_ckpt cfg
             then [(None, global_step st', epoch st)] else []).
Proof.
  intros Hg Hr Hv Hs Hn Hc.
  destruct (epoch_before_checkpoint cfg n st Hg Hr Hv Hs Hn)
    as (st4 & E & A1 & A2 & A3 & A0 & A5 & A6).
  rewrite E. unfold every_epoch. rewrite Hc. simpl.
  exists st4. auto 10.
Qed.

(** *** The loop over the epochs *)

Lemma flat_map_seq_succ {A : Type} (f : nat -> list A) k :
  flat_map f (seq 0 (S k)) = f 0%nat ++ flat_map (fun j => f (S j)) (seq 0 k).
Proof.
  simpl. f_equal. rewrite !flat_map_concat_map. f_equal.
  apply (map_seq_from k f 1%nat).
Qed.

Lemma epochs_spec cfg n :
  periods_nonzero cfg -> (0 < n)%nat ->
  forall k st,
    exists st',
      epochs cfg n k st = Done st'
      /\ epoch st' = epoch st + Z.of_nat k
      /\ has_ema st' = has_ema st
      /\ global_step st'
         = global_step st + Z.of_nat k * steps_per_epoch cfg n
      /\ logged_steps (events st')
         = logged_steps (events st)
           ++ steps_between (global_step st) (global_step st')
      /\ saved (events st')
         = saved (events st)
           ++ flat_map
                (fun j =>
                   epoch_saves cfg
                     (global_step st
                      + (Z.of_nat j + 1) * steps_per_epoch cfg n - 1)
                     (epoch st + Z.of_nat j))
                (seq 0 k).
Proof.
  intros Hp Hn. induction k as [|k IH]; intros st.
  - exists st. simpl.
    rewrite !Z.add_0_r, steps_between_nil, !app_nil_r. auto 10.
  - destruct (run_epoch_spec cfg n st Hp Hn)
      as (st1 & E & A1 & A2 & A3 & A0 & A5 & A6).
    destruct (IH st1) as (st' & E' & B1 & B2 & B3 & B5 & B6).
    exists st'. cbn [epochs]. rewrite E. cbn [and_then].
    split; [exact E'|].
    split; [lia|]. split; [congruence|].
    split; [rewrite B3, A3; lia|].
    split.
    + rewrite B5, A5, <- app_assoc. f_equal.
      apply steps_between_app. nia.
    + rewrite B6, A6, <- app_assoc, flat_map_seq_succ. f_equal. f_equal.
      * f_equal; [rewrite A3; lia | lia].
      * apply flat_map_ext. intros j.
        f_equal; [rewrite A3, Nat2Z.inj_succ; ring | rewrite A1; lia].
Qed.

(** [run] when no period is zero. *)
Lemma run_spec cfg n st :
  periods_nonzero (effective cfg) -> (0 < n)%nat -> has_ema st = true ->
  exists st',
    run cfg n st = Done st'
    /\ epoch st' = epoch st + Z.max 0 (num_epochs (effective cfg))
    /\ global_step st'
       = global_step st
         + Z.max 0 (num_epochs (effective cfg))
           * steps_per_epoch (effective cfg) n
    /\ logged_steps (events st')
       = logged_steps (events st)
         ++ steps_between (global_step st) (global_step st')
    /\ saved (events st')
       = saved (events st)
         ++ flat_map
              (fun j =>
                 epoch_saves (effective cfg)
                   (global_step st
                    + (Z.of_nat j + 1) * steps_per_epoch (effective cfg) n
                    - 1)
                   (epoch st + Z.of_nat j))
              (seq 0 (Z.to_nat (num_epochs (effective cfg)))).
Proof.
  intros Hp Hn He. unfold run. cbv zeta.
  replace (negb (has_ema st)) with false by (now rewrite He).
  destruct (Z.eqb_spec (gradient_accumulate_every (effective cfg)) 0)
    as [K|_]; [now destruct Hp|].
  destruct (epochs_spec (effective cfg) n Hp Hn
              (Z.to_nat (num_epochs (effective cfg)))
              (mk_state (global_step st) (epoch st) (has_ema st) false
                 (events st)))
    as (st' & E & A1 & A2 & A3 & A5 & A6).
  simpl in A1, A2, A3, A5, A6.
  exists st'. split; [exact E|].
  split; [lia|]. split; [lia|]. split; assumption.
Qed.

Lemma digits_of_uint d :
  forallb PyFloat.is_digit
    (list_ascii_of_string (DecimalString.NilEmpty.string_of_uint d)) = true.
Proof. induction d; simpl; auto. Qed.

Lemma digits_of_nat_string d :
  list_ascii_of_string (DecimalString.NilZero.string_of_uint d) <> []
  /\ forallb PyFloat.is_digit
       (list_ascii_of_string (DecimalString.NilZero.string_of_uint d)) = true.
Proof.
  destruct d; simpl; try (split; [discriminate | apply digits_of_uint]).
  split; [discriminate | reflexivity].
Qed.

(** *** The properties *)

(** X23.  The counters after [run]: with a train loader of [n >= 1]
    batches and no period equal to zero, [run] returns, [epoch] has grown
    by the number of epochs and [global_step] by that number times the
    steps of one epoch, which are [n] when every batch is trained on and
    [max(1, max_train_steps) + 1] when [max_train_steps] cuts the epoch
    short. *)
Theorem run_counters cfg n st :
  periods_nonzero (effective cfg) -> (0 < n)%nat -> has_ema st = true ->
  exists st',
    run cfg n st = Done st'
    /\ epoch st' = epoch st + Z.max 0 (num_epochs (effective cfg))
    /\ global_step st'
       = global_step st
         + Z.max 0 (num_epochs (effective cfg))
           * steps_per_epoch (effective cfg) n.
Proof.
  intros Hp Hn He.
  destruct (run_spec cfg n st Hp Hn He) as (st' & E & A1 & A3 & _).
  exists st'. auto.
Qed.

Lemma run_counters_witness :
  exists st',
    run example_config 5 example_state = Done st'
    /\ epoch st' = 3 /\ global_step st' = 9.
Proof.
  destruct (run_counters example_config 5 example_state) as (st' & E & A & B).
  - unfold periods_nonzero. simpl. lia.
  - lia.
  - reflexivity.
  - exists st'. split; [exact E|]. split; [exact A | exact B].
Defined.

(** X24.  The steps under which [run] logs are consecutive: they are the
    integers from the [global_step] at the start up to the one before the
    [global_step] at the end, each once and in order, whatever the batches
    cut short and the checkpoints saved. *)
Theorem run_logs_consecutive cfg n st :
  periods_nonzero (effective cfg) -> (0 < n)%nat -> has_ema st = true ->
  exists st',
    run cfg n st = Done st'
    /\ logged_steps (events st')
       = logged_steps (events st)
         ++ steps_between (global_step st) (global_step st').
Proof.
  intros Hp Hn He.
  destruct (run_spec cfg n st Hp Hn He) as (st' & E & _ & _ & A5 & _).
  exists st'. auto.
Qed.

Lemma run_logs_consecutive_witness :
  exists st',
    run example_config 5 example_state = Done st'
    /\ logged_steps (events st') = [0; 1; 2; 3; 4; 5; 6; 7; 8].
Proof.
  destruct (run_logs_consecutive example_config 5 example_state)
    as (st' & E & A).
  - unfold periods_nonzero. simpl. lia.
  - lia.
  - reflexivity.
  - exists st'. split; [exact E|]. rewrite A.
    assert (K : Done st' = run example_config 5 example_state)
      by (symmetry; exact E).
    vm_compute in K. injection K as ->. reflexivity.
Defined.

(** X25.  The checkpoints [run] saves: in each epoch, first the untagged
    one when [save_last_ckpt] is set, then the one tagged
    [epoch_<epoch>] when [checkpoint_every] divides the epoch; both are
    saved with the counters the epoch ends on, before the step of the end
    of the epoch is counted.  So a tagged checkpoint has the same
    [global_step] as the untagged one saved just before it. *)
Theorem run_checkpoints cfg n st :
  periods_nonzero (effective cfg) -> (0 < n)%nat -> has_ema st = true ->
  exists st',
    run cfg n st = Done st'
    /\ saved (events st')
       = saved (events st)
         ++ flat_map
              (fun j =>
                 epoch_saves (effective cfg)
                   (global_step st
                    + (Z.of_nat j + 1) * steps_per_epoch (effective cfg) n
                    - 1)
                   (epoch st + Z.of_nat j))
              (seq 0 (Z.to_nat (num_epochs (effective cfg)))).
Proof.
  intros Hp Hn He.
  destruct (run_spec cfg n st Hp Hn He) as (st' & E & _ & _ & _ & A6).
  exists st'. auto.
Qed.

Lemma run_checkpoints_witness :
  exists st',
    run example_config 5 example_state = Done st'
    /\ saved (events st')
       = [(None, 2, 0); (Some "epoch_0"%string, 2, 0);
          (None, 5, 1);
          (None, 8, 2); (Some "epoch_2"%string, 8, 2)].
Proof.
  destruct (run_checkpoints example_config 5 example_state)
    as (st' & E & A).
  - unfold periods_nonzero. simpl. lia.
  - lia.
  - reflexivity.
  - exists st'. split; [exact E|]. rewrite A. vm_compute. reflexivity.
Defined.

(** X27.  With [checkpoint_every = 0] (and the other periods not zero, one
    epoch or more to run, [n >= 1] batches), [run] raises at the test of
    line 324 in the first epoch: the batches have been trained on and
    logged and the untagged checkpoint saved when [save_last_ckpt] is set,
    but the epoch is not counted. *)
Theorem run_checkpoint_every_zero cfg n st :
  debug cfg = false ->
  gradient_accumulate_every cfg <> 0 -> rollout_every cfg <> 0 ->
  val_every cfg <> 0 -> sample_every cfg <> 0 ->
  checkpoint_every cfg = 0 ->
  (0 < n)%nat -> 1 <= num_epochs cfg -> has_ema st = true ->
  exists st',
    run cfg n st = Raised ZeroDivisionError st'
    /\ epoch st' = epoch st
    /\ global_step st' = global_step st + steps_per_epoch cfg n - 1
    /\ logged_steps (events st')
       = logged_steps (events st)
         ++ steps_between (global_step st) (global_step st')
    /\ saved (events st')
       = saved (events st)
         ++ (if save_last_ckpt cfg
             then [(None, global_step st', epoch st)] else []).
Proof.
  intros Hd Hg Hr Hv Hs Hc Hn Hk He. unfold run, effective.
  rewrite Hd. replace (negb (has_ema st)) with false by (now rewrite He).
  destruct (Z.eqb_spec (gradient_accumulate_every cfg) 0) as [K|_];
    [contradiction|].
  destruct (Z.to_nat (num_epochs cfg)) as [|k] eqn:Ek; [lia|].
  cbn [epochs].
  destruct (run_epoch_checkpoint_zero cfg n
              (mk_state (global_step st) (epoch st) (has_ema st) false
                 (events st)) Hg Hr Hv Hs Hn Hc)
    as (st' & E & A).
  rewrite E. exists st'. split; [reflexivity | exact A].
Qed.

Lemma run_checkpoint_every_zero_witness :
  exists st',
    run (mk_config false 3 None 1 true 1 1 1 0 true false) 4 example_state
    = Raised ZeroDivisionError st'
    /\ epoch st' = 0 /\ global_step st' = 3
    /\ saved (events st') = [(None, 3, 0)].
Proof.
  destruct (run_checkpoint_every_zero
              (mk_config false 3 None 1 true 1 1 1 0 true false) 4
              example_state)
    as (st' & E & A1 & A3 & _ & A6);
    try reflexivity; try (simpl; lia).
  exists st'. split; [exact E|]. split; [exact A1|].
  split; [exact A3|]. rewrite A6, A3. reflexivity.
Defined.

(** X28.  In debug mode [run] does one epoch of at most three batches
    whatever the configuration says: [epoch] grows by one, [global_step]
    by [n] for a loader of [n <= 3] batches and by four for a longer one,
    and the untagged and the tagged checkpoint are both saved, on the same
    counters. *)
Theorem run_debug cfg n st :
  debug cfg = true -> gradient_accumulate_every cfg <> 0 ->
  (0 < n)%nat -> has_ema st = true ->
  exists st',
    run cfg n st = Done st'
    /\ epoch st' = epoch st + 1
    /\ global_step st'
       = global_step st + (if 3 <? Z.of_nat n then 4 else Z.of_nat n)
    /\ saved (events st')
       = saved (events st)
         ++ [(None, global_step st' - 1, epoch st);
             (Some (epoch_tag (epoch st)), global_step st' - 1, epoch st)].
Proof.
  intros Hd Hg Hn He.
  assert (Hc : effective cfg
               = mk_config true 1 (Some 3) (gradient_accumulate_every cfg)
                   (use_ema cfg) 1 1 1 1 true false)
    by (unfold effective; now rewrite Hd).
  destruct (run_spec cfg n st) as (st' & E & A1 & A3 & _ & A6); auto.
  { rewrite Hc. unfold periods_nonzero. simpl. repeat split; auto; lia. }
  rewrite Hc in A1, A3, A6.
  unfold steps_per_epoch, epoch_saves in A3, A6.
  cbn [num_epochs max_train_steps save_last_ckpt checkpoint_every]
    in A1, A3, A6.
  change (Z.to_nat 1) with 1%nat in A6. cbn [seq flat_map] in A6.
  change (Z.max 0 1) with 1 in *. change (Z.max 1 3) with 3 in *.
  change (Z.of_nat 0) with 0 in A6. cbv zeta in *.
  set (k := if 3 <? Z.of_nat n then 4 else Z.of_nat n) in *.
  rewrite Z.mul_1_l in A3.
  rewrite Z.add_0_l, Z.mul_1_l, Z.mod_1_r, Z.add_0_r, app_nil_r in A6.
  cbn [Z.eqb app] in A6.
  exists st'. split; [exact E|]. split; [exact A1|].
  split; [exact A3|].
  rewrite A6, A3. do 4 f_equal; lia.
Qed.

Lemma run_debug_witness :
  exists st',
    run (mk_config true 100 None 2 true 50 10 5 20 false true) 7
      example_state = Done st'
    /\ epoch st' = 1 /\ global_step st' = 4
    /\ saved (events st')
       = [(None, 3, 0); (Some "epoch_0"%string, 3, 0)].
Proof.
  destruct (run_debug (mk_config true 100 None 2 true 50 10 5 20 false true)
              7 example_state)
    as (st' & E & A1 & A3 & A6);
    try reflexivity; try (simpl; lia).
  exists st'. split; [exact E|]. split; [exact A1|].
  split; [exact A3|]. rewrite A6, A3. reflexivity.
Defined.

(** X29.  The tag under which [run] saves the checkpoint of an epoch,
    followed by [.ckpt], is a name that the scan of [main] in
    [recon_ema.py] loads, as long as the epoch is not negative; the tag of
    a negative epoch is not. *)
Theorem epoch_tag_matches_scan e :
  Recon.re_match_epoch (epoch_tag e ++ ".ckpt") = (0 <=? e).
Proof.
  unfold Recon.re_match_epoch, epoch_tag, py_str.
  rewrite !StdListExtra.list_ascii_of_string_app.
  rewrite <- app_assoc.
  rewrite (proj2 (DiscoveryExtra.strip_prefix_app _ _ _) eq_refl).
  destruct e as [|p|p]; cbn [Z.to_int DecimalString.NilZero.string_of_int].
  - reflexivity.
  - destruct (digits_of_nat_string (Pos.to_uint p)) as [Hne Hd].
    change (0 <=? Z.pos p) with true.
    apply DiscoveryExtra.digits_dot_ckpt_shape. right.
    eexists. eexists. split; [exact Hne|]. split; [exact Hd|].
    split; reflexivity.
  - reflexivity.
Qed.

End TrainFacts.

(** ** The score returned by a call *)

Module RunnerLogFacts.

Import RunnerLog.

Lemma dict_get_set_same {V : Type} (d : dict V) k v :
  dict_get (dict_set d k v) k = Some v.
Proof.
  induction d as [|[k' v'] d IH]; simpl.
  - now rewrite String.eqb_refl.
  - destruct (String.eqb k' k) eqn:E; simpl; rewrite E; auto.
Qed.

Lemma dict_get_set_other {V : Type} (d : dict V) k v k0 :
  k <> k0 -> dict_get (dict_set d k v) k0 = dict_get d k0.
Proof.
  intros Hne. induction d as [|[k' v'] d IH]; simpl.
  - destruct (String.eqb_spec k k0); [contradiction | reflexivity].
  - destruct (String.eqb_spec k' k) as [->|N]; simpl.
    + destruct (String.eqb_spec k k0); [contradiction | reflexivity].
    + destruct (String.eqb k' k0); auto.
Qed.

Lemma find_app {A : Type} (f : A -> bool) l1 l2 :
  find f (l1 ++ l2)
  = match find f l1 with Some x => Some x | None => find f l2 end.
Proof.
  induction l1 as [|x l1 IH]; simpl; [reflexivity|].
  destruct (f x); auto.
Qed.

(** The comprehension keeps, under each new key, the value of the last
    entry that is given this key. *)
Lemma prefixed_get {V : Type} (g : string -> string) (log : dict V) key :
  forall d0,
    dict_get (fold_left (fun d kv => dict_set d (g (fst kv)) (snd kv))
                log d0) key
    = match find (fun kv => String.eqb (g (fst kv)) key) (rev log) with
      | Some kv => Some (snd kv)
      | None => dict_get d0 key
      end.
Proof.
  induction log as [|[k v] log IH]; intros d0; [reflexivity|].
  cbn [fold_left rev fst snd]. rewrite IH, find_app.
  destruct (find (fun kv => String.eqb (g (fst kv)) key) (rev log));
    [reflexivity|].
  cbn [find fst snd]. destruct (String.eqb_spec (g k) key) as [->|N].
  - apply dict_get_set_same.
  - now apply dict_get_set_other.
Qed.

Lemma find_rev_last {V : Type} (f : string * V -> bool) (log : dict V) kv :
  find f (rev log) = Some kv ->
  exists pre post,
    log = pre ++ kv :: post /\ f kv = true
    /\ forall x, In x post -> f x = false.
Proof.
  induction log as [|x log IH]; simpl; [discriminate|].
  rewrite find_app.
  destruct (find f (rev log)) as [y|] eqn:E.
  - intros [= ->]. destruct (IH eq_refl) as (pre & post & -> & H1 & H2).
    exists (x :: pre), post. auto.
  - simpl. destruct (f x) eqn:Fx; [|discriminate]. intros [= ->].
    exists [], log. repeat split; auto.
    intros y Hy.
    destruct (f y) eqn:Fy; [|reflexivity].
    exfalso. apply in_rev in Hy.
    apply (find_none _ _ E) in Hy. congruence.
Qed.

Lemma dict_get_in {V : Type} (d : dict V) k v :
  dict_get d k = Some v -> In (k, v) d.
Proof.
  induction d as [|[k' v'] d IH]; simpl; [discriminate|].
  destruct (String.eqb_spec k' k) as [->|N].
  - intros [= ->]. now left.
  - intros H. right. now apply IH.
Qed.

Lemma dict_get_unique {V : Type} (d : dict V) k v :
  NoDup (map fst d) -> In (k, v) d -> dict_get d k = Some v.
Proof.
  induction d as [|[k' v'] d IH]; simpl; [intros _ []|].
  intros Hn [E | Hin].
  - injection E as -> ->. now rewrite String.eqb_refl.
  - inversion Hn as [|? ? Hk Hd]; subst.
    destruct (String.eqb_spec k' k) as [->|N]; [|now apply IH].
    exfalso. apply Hk. apply (in_map fst) in Hin. exact Hin.
Qed.

Lemma split_on_cons sep s cur : exists p ps, split_on sep s cur = p :: ps.
Proof.
  revert cur. induction s as [|c s IH]; intros cur; simpl.
  - eauto.
  - destruct (Ascii.eqb c sep); [eauto | apply IH].
Qed.

Lemma join_split_slash s :
  forall cur,
    String.concat "_" (split_on "/" s cur)
    = string_of_list_ascii
        (rev cur ++ map (fun c => if Ascii.eqb c "/" then "_"%char else c) s).
Proof.
  induction s as [|c s IH]; intros cur; simpl.
  - now rewrite app_nil_r.
  - destruct (Ascii.eqb c "/") eqn:E.
    + destruct (split_on_cons "/" s []) as (p & ps & Hp).
      specialize (IH []). rewrite Hp in *. simpl in IH.
      rewrite StdListExtra.string_of_list_ascii_app. simpl. rewrite <- IH.
      change (String.concat "_" (string_of_list_ascii (rev cur) :: p :: ps))
        with (string_of_list_ascii (rev cur) ++ "_"
              ++ String.concat "_" (p :: ps))%string.
      reflexivity.
    + rewrite IH. simpl. rewrite <- app_assoc. reflexivity.
Qed.

Lemma ema_key_not_std k : ema_key k <> "std"%string.
Proof. unfold ema_key. simpl. discriminate. Qed.

(** X30.  The end of [__call__].  The key under which an entry of the
    runner's log is logged is [ema/] followed by the key with every slash
    turned into an underscore.  Without a key [test/mean_score] the call
    raises (line 143).  With one, the dict logged holds the std under
    [std], and the score returned is the value of the last entry of the
    runner's log whose key is renamed to [ema/test_mean_score]: the value
    under [test/mean_score] when no other key of the log is renamed so,
    the value of a later entry such as [test_mean_score] otherwise. *)
Theorem log_score_last_entry {V : Type} (runner_log : dict V) (std : V) :
  NoDup (map fst runner_log) ->
  (forall k, ema_key k = ("ema/" ++ underscored k)%string)
  /\ (dict_get runner_log "test/mean_score" = None ->
      log_score runner_log std = None)
  /\ forall v,
       dict_get runner_log "test/mean_score" = Some v ->
       exists logged score,
         log_score runner_log std = Some (logged, score)
         /\ dict_get logged "std" = Some std
         /\ (exists pre k post,
               runner_log = pre ++ (k, score) :: post
               /\ underscored k = "test_mean_score"%string
               /\ forall k', In k' (map fst post) ->
                    underscored k' <> "test_mean_score"%string)
         /\ ((forall k, In k (map fst runner_log) ->
                underscored k = "test_mean_score"%string ->
                k = "test/mean_score"%string) ->
             score = v).
Proof.
  intros Hn.
  assert (Hkey : forall k, ema_key k = ("ema/" ++ underscored k)%string).
  { intros k. unfold ema_key, underscored. now rewrite join_split_slash. }
  split; [exact Hkey|]. split.
  - intros H. unfold log_score. now rewrite H.
  - intros v Hv. unfold log_score. rewrite Hv.
    rewrite dict_get_set_other by discriminate.
    unfold prefixed. rewrite (prefixed_get ema_key).
    destruct (find (fun kv => String.eqb (ema_key (fst kv)) "ema/test_mean_score")
                (rev runner_log)) as [[k w]|] eqn:F.
    + destruct (find_rev_last _ _ _ F) as (pre & post & E & Hk & Hpost).
      cbn [fst] in Hk. apply String.eqb_eq in Hk. rewrite Hkey in Hk.
      injection Hk as Hk.
      eexists. exists w. split; [reflexivity|].
      split; [apply dict_get_set_same|]. split.
      * exists pre, k, post. split; [exact E|]. split; [exact Hk|].
        intros k' Hk' C. apply in_map_iff in Hk'.
        destruct Hk' as ([k'' w'] & <- & Hin).
        specialize (Hpost _ Hin). cbn [fst] in Hpost, C.
        rewrite Hkey, C in Hpost. discriminate.
      * intros Hu.
        assert (Hin : In (k, w) runner_log)
          by (rewrite E; apply in_or_app; right; now left).
        assert (K : k = "test/mean_score"%string)
          by (apply Hu; [apply (in_map fst) in Hin; exact Hin | exact Hk]).
        subst k. rewrite (dict_get_unique _ _ _ Hn Hin) in Hv.
        now injection Hv.
    + exfalso. apply dict_get_in in Hv. apply in_rev in Hv.
      apply (find_none _ _ F) in Hv. cbn [fst] in Hv.
      rewrite Hkey in Hv. discriminate.
Qed.

(** A log in which [test_mean_score] comes after [test/mean_score]: the
    score returned is the later value. *)
Lemma log_score_last_entry_witness :
  exists logged,
    log_score [("test/mean_score"%string, 1%Z); ("test_mean_score"%string, 2%Z)]
      0%Z = Some (logged, 2%Z).
Proof.
  destruct (proj2 (proj2 (log_score_last_entry
              [("test/mean_score"%string, 1%Z); ("test_mean_score"%string, 2%Z)]
              0%Z
              ltac:(repeat constructor; simpl; intuition discriminate)))
            1%Z eq_refl)
    as (logged & score & E & _).
  exists logged.
  assert (K : Some (logged, score)
              = log_score [("test/mean_score"%string, 1%Z);
                           ("test_mean_score"%string, 2%Z)] 0%Z)
    by (symmetry; exact E).
  vm_compute in K. injection K as -> ->. reflexivity.
Defined.

End RunnerLogFacts.
